(** * Letter Playground: the glyph model and the point editor

    A shallow embedding of [src/Letter_Playground.js]: the path commands,
    [GlyphModel] (generate, reset, applyParams, randomize and the undo/redo
    history) and the [Editor] (its point editing and its pointer handlers).

    Numbers.  The program computes with IEEE 754 doubles.  The embedding
    has them twice.  The main one idealises them as real numbers: [+], [-],
    [*] are exact, [Math.hypot] is the Euclidean norm and [Math.tan] the
    tangent; a quotient whose divisor is zero (Infinity or NaN in
    JavaScript) has no real value and is reported as [Err NonFinite].  What
    is proved there about the value of a coordinate holds in exact
    arithmetic; what is proved about structure (which commands and fields
    are written, the history, the selection) does not depend on rounding.
    [Module Double] embeds the passes of [applyParams] and the anchor
    branch of [setPoint] once more over binary64 floats, operation by
    operation as the source has them: there the rounding of the program
    shows.

    Objects.  Every path the model stores is a private copy: [generate],
    [reset], [applyParams], [saveState] and [_load] all go through
    [copyCommands], and a snapshot holds a spread copy of [params].  No two
    owners ever share a command array, so arrays are embedded as immutable
    lists and an in-place update of [glyphModel.path.commands] as a new list
    at the same place of the state. *)

From Stdlib Require Import Floats Reals Lra ZArith Lia Ascii.
From stdpp Require Import base option list strings.

Local Open Scope R_scope.

(* A decimal literal of [float] denotes the nearest double, as a number
   literal does in JavaScript. *)
Set Warnings "-inexact-float".

(** ** Outcomes of a call *)

Inductive error : Type :=
| TypeError      (* a property of [undefined] is read or written *)
| NonFinite      (* a division by zero: Infinity or NaN *)
| NotModelled.   (* the call would add a field the command does not have *)

Inductive res (A : Type) : Type :=
| Ok (a : A)
| Err (e : error).
Arguments Ok {A} a.
Arguments Err {A} e.

Definition bind {A B : Type} (r : res A) (k : A -> res B) : res B :=
  match r with
  | Ok a => k a
  | Err e => Err e
  end.

Definition orThrow {A : Type} (e : error) (o : option A) : res A :=
  match o with
  | Some a => Ok a
  | None => Err e
  end.

Notation "'do' x <- r ; k" := (bind r (fun x => k))
  (at level 10, x pattern, r at level 100, k at level 200).

(** ** Numbers *)

(** [a / b]; a zero divisor gives Infinity or NaN in JavaScript. *)
Definition jsdiv (a b : R) : res R :=
  if Req_dec_T b 0 then Err NonFinite else Ok (a / b).

(** [a || b] on numbers: [0] is falsy. *)
Definition jsor (a b : R) : R :=
  if Req_dec_T a 0 then b else a.

(** [Math.hypot(dx, dy)]. *)
Definition hypot (dx dy : R) : R := sqrt (dx * dx + dy * dy).

(** p5's [dist(x1, y1, x2, y2)]: the length of the segment. *)
Definition dist (x1 y1 x2 y2 : R) : R := hypot (x2 - x1) (y2 - y1).

(** p5's [lerp(start, stop, amt)], in exact arithmetic; [Double.lerp] is
    the rounded one. *)
Definition lerp (start stop amt : R) : R := amt * (stop - start) + start.

(** ** Path commands *)

(** The command objects of an opentype path: [{type:'M', x, y}],
    [{type:'L', x, y}], [{type:'C', x1, y1, x2, y2, x, y}],
    [{type:'Q', x1, y1, x, y}] and [{type:'Z'}]. *)
Inductive Command : Type :=
| CmdM (x y : R)
| CmdL (x y : R)
| CmdC (x1 y1 x2 y2 x y : R)
| CmdQ (x1 y1 x y : R)
| CmdZ.

Record Path : Type := { commands : list Command }.

Definition isC (c : Command) : bool :=
  match c with CmdC _ _ _ _ _ _ => true | _ => false end.

Definition isZ (c : Command) : bool :=
  match c with CmdZ => true | _ => false end.

(** [(c.x, c.y)], for the commands with ['x' in c]. *)
Definition xy (c : Command) : option (R * R) :=
  match c with
  | CmdM x y | CmdL x y | CmdC _ _ _ _ x y | CmdQ _ _ x y => Some (x, y)
  | CmdZ => None
  end.

(** [(c.x1, c.y1)], for the commands with ['x1' in c]. *)
Definition xy1 (c : Command) : option (R * R) :=
  match c with
  | CmdC x1 y1 _ _ _ _ | CmdQ x1 y1 _ _ => Some (x1, y1)
  | _ => None
  end.

(** [(c.x2, c.y2)], for the commands with ['x2' in c]. *)
Definition xy2 (c : Command) : option (R * R) :=
  match c with
  | CmdC _ _ x2 y2 _ _ => Some (x2, y2)
  | _ => None
  end.

(** [c.x = x; c.y = y] *)
Definition set_xy (x y : R) (c : Command) : option Command :=
  match c with
  | CmdM _ _ => Some (CmdM x y)
  | CmdL _ _ => Some (CmdL x y)
  | CmdC x1 y1 x2 y2 _ _ => Some (CmdC x1 y1 x2 y2 x y)
  | CmdQ x1 y1 _ _ => Some (CmdQ x1 y1 x y)
  | CmdZ => None
  end.

(** [c.x1 = x; c.y1 = y] *)
Definition set_xy1 (x y : R) (c : Command) : option Command :=
  match c with
  | CmdC _ _ x2 y2 ax ay => Some (CmdC x y x2 y2 ax ay)
  | CmdQ _ _ ax ay => Some (CmdQ x y ax ay)
  | _ => None
  end.

(** [c.x2 = x; c.y2 = y] *)
Definition set_xy2 (x y : R) (c : Command) : option Command :=
  match c with
  | CmdC x1 y1 _ _ ax ay => Some (CmdC x1 y1 x y ax ay)
  | _ => None
  end.

(** [JSON.parse(JSON.stringify(cmds || []))]: a structural copy. *)
Definition copyCommand (c : Command) : Command :=
  match c with
  | CmdM x y => CmdM x y
  | CmdL x y => CmdL x y
  | CmdC x1 y1 x2 y2 x y => CmdC x1 y1 x2 y2 x y
  | CmdQ x1 y1 x y => CmdQ x1 y1 x y
  | CmdZ => CmdZ
  end.

Definition copyCommands (cmds : list Command) : list Command :=
  map copyCommand cmds.

(** [newPath(cmds)]: a path object holding [cmds]. *)
Definition newPath (cmds : list Command) : Path := {| commands := cmds |}.

(** ** Editor: point references *)

Inductive PointType : Type := anchor | c1 | c2 | q.

Record PointRef : Type := { index : nat; type : PointType }.

Module Editor.

(** [for (k = i + 1; k < commands.length; k++) if (commands[k].type === 'C')
    return k; return -1]: [scanCurve] walks the commands from position [k]. *)
Fixpoint scanCurve (cmds : list Command) (k : nat) : option nat :=
  match cmds with
  | [] => None
  | c :: rest => if isC c then Some k else scanCurve rest (S k)
  end.

Definition nextCurve (cmds : list Command) (i : nat) : option nat :=
  scanCurve (drop (S i) cmds) (S i).

(** [for (k = i; k >= 0; k--) if (commands[k].type === 'C') return k;
    return -1].  The scan starts at [i] itself.  Reading [.type] of a
    missing command throws. *)
Fixpoint prevCurve (cmds : list Command) (k : nat) : res (option nat) :=
  match cmds !! k with
  | None => Err TypeError
  | Some c =>
      if isC c then Ok (Some k)
      else match k with
           | O => Ok None
           | S k' => prevCurve cmds k'
           end
  end.

(** The collinear-lock block of [setPoint]: which command holds the shared
    anchor and which control point is the opposite one ([opp.cmd] by its
    index, [opp.key]).  [None] when [anchor && opp] is falsy. *)
Definition lockTarget (cmds : list Command) (ref : PointRef)
  : res (option (nat * (nat * PointType))) :=
  match type ref with
  | c2 =>
      match nextCurve cmds (index ref) with
      | Some ni => Ok (Some (index ref, (ni, c1)))
      | None => Ok None
      end
  | c1 =>
      do pi <- prevCurve cmds (index ref);
      match pi with
      | Some pi => Ok (Some (pi, (pi, c2)))
      | None => Ok None
      end
  | _ => Ok None
  end.

(** The body of [if (anchor && opp) { ... }]: the opposite control point is
    put at its old distance [ol] from the anchor, on the side away from
    [(x, y)].  Norm, quotient and product are the exact ones. *)
Definition mirrorOpposite (x y : R) (ai oi : nat) (key : PointType)
    (cmds : list Command) : res (list Command) :=
  do a <- orThrow TypeError (cmds !! ai);
  do o <- orThrow TypeError (cmds !! oi);
  do (ax, ay) <- orThrow NotModelled (xy a);
  do (ox, oy) <- orThrow NotModelled
                    (match key with c1 => xy1 o | _ => xy2 o end);
  let dx := x - ax in
  let dy := y - ay in
  let ol := dist ax ay ox oy in
  let len := jsor (hypot dx dy) 1 in
  do qx <- jsdiv dx len;
  do qy <- jsdiv dy len;
  let nx := ax - qx * ol in
  let ny := ay - qy * ol in
  do o' <- orThrow NotModelled
             (match key with c1 => set_xy1 nx ny o | _ => set_xy2 nx ny o end);
  Ok (<[oi := o']> cmds).

(** [setPoint(ref, x, y, lockCollinear)] on [glyphModel.path.commands], in
    exact arithmetic; [Double.setPointAnchor] is the anchor branch with
    rounded sums. *)
Definition setPoint (ref : PointRef) (x y : R) (lockCollinear : bool)
    (cmds : list Command) : res (list Command) :=
  do c <- orThrow TypeError (cmds !! index ref);
  match type ref with
  | anchor =>
      do (cx, cy) <- orThrow NotModelled (xy c);
      let dx := x - cx in
      let dy := y - cy in
      do moved <- orThrow NotModelled (set_xy x y c);
      let moved :=
        match moved with
        | CmdC x1 y1 x2 y2 ax ay => CmdC x1 y1 (x2 + dx) (y2 + dy) ax ay
        | other => other
        end in
      let cmds := <[index ref := moved]> cmds in
      match nextCurve cmds (index ref) with
      | Some ni =>
          do n <- orThrow TypeError (cmds !! ni);
          do (nx1, ny1) <- orThrow NotModelled (xy1 n);
          do n' <- orThrow NotModelled (set_xy1 (nx1 + dx) (ny1 + dy) n);
          Ok (<[ni := n']> cmds)
      | None => Ok cmds
      end
  | _ =>
      do c' <- orThrow NotModelled
                 (match type ref with
                  | c2 => set_xy2 x y c
                  | _ => set_xy1 x y c
                  end);
      let cmds := <[index ref := c']> cmds in
      if lockCollinear then
        do target <- lockTarget cmds ref;
        match target with
        | Some (ai, (oi, key)) => mirrorOpposite x y ai oi key cmds
        | None => Ok cmds
        end
      else Ok cmds
  end.

End Editor.

(** ** The environment: the libraries and the loaded font *)

(** What [opentype.Path.prototype.getBoundingBox] returns: the corners
    [x1, y1, x2, y2]. *)
Record BoundingBox : Type := { bx1 : R; by1 : R; bx2 : R; by2 : R }.

(** The opentype.js library as [bboxOf] uses it.  [getBoundingBox] answers
    [None] when the method is missing ([?.]) or a corner is not finite. *)
Record Opentype : Type :=
  { getBoundingBox : list Command -> option BoundingBox }.

(** The loaded font: [font.charToGlyph(ch).getPath(0, 0, 72).commands]. *)
Definition Font : Type := ascii -> list Command.

(** The global [opentype] ([None] while [typeof opentype === 'undefined'])
    and the global [font] ([null] until a font is loaded). *)
Record Env : Type := { opentype : option Opentype; font : option Font }.

(** p5's seeded generator: [randomSeed(seed)] replaces the generator state,
    [random()] returns the next value and the next state. *)
Record Generator : Type :=
  { rstate : Type;
    randomSeed : Z -> rstate;
    random : rstate -> R * rstate }.

(** ** The model *)

Record Params : Type :=
  { width : R; height : R; weight : R; slant : R; roundness : R }.

Inductive ParamName : Type :=
| pWidth | pHeight | pWeight | pSlant | pRoundness.

(** A history entry [{ path, params }]. *)
Record Snapshot : Type := { s_path : Path; s_params : Params }.

Record GlyphModel : Type :=
  { originalPath : Path;
    path : Path;
    char : ascii;
    params : Params;
    undoStack : list Snapshot;
    redoStack : list Snapshot;
    maxHist : nat }.

Definition defaultParams : Params :=
  {| width := 1; height := 1; weight := 0; slant := 0; roundness := 0 |}.

(** [new GlyphModel()] *)
Definition newGlyphModel : GlyphModel :=
  {| originalPath := newPath [];
     path := newPath [];
     char := "A"%char;
     params := defaultParams;
     undoStack := [];
     redoStack := [];
     maxHist := 60 |}.

(** [{ x, y, w, h }] *)
Record Box : Type := { box_x : R; box_y : R; box_w : R; box_h : R }.

(** [bboxOf(cmds)] *)
Definition bboxOf (env : Env) (cmds : list Command) : Box :=
  match opentype env with
  | None => {| box_x := 0; box_y := 0; box_w := 100; box_h := 100 |}
  | Some ot =>
      match getBoundingBox ot (copyCommands cmds) with
      | None => {| box_x := 0; box_y := 0; box_w := 0; box_h := 0 |}
      | Some b =>
          {| box_x := bx1 b; box_y := by1 b;
             box_w := bx2 b - bx1 b; box_h := by2 b - by1 b |}
      end
  end.

(** [bbox()] *)
Definition bbox (env : Env) (m : GlyphModel) : Box :=
  bboxOf env (commands (path m)).

(** *** History *)

(** [saveState()]: [push] appends at the end, [shift] drops the first. *)
Definition saveState (m : GlyphModel) : GlyphModel :=
  let snap := {| s_path := newPath (copyCommands (commands (path m)));
                 s_params := params m |} in
  let pushed := undoStack m ++ [snap] in
  {| originalPath := originalPath m;
     path := path m;
     char := char m;
     params := params m;
     undoStack := if (maxHist m <? length pushed)%nat
                  then tail pushed else pushed;
     redoStack := [];
     maxHist := maxHist m |}.

(** [_load(state)]; [state] is [None] for [undefined]. *)
Definition _load (state : option Snapshot) (m : GlyphModel) : GlyphModel :=
  match state with
  | None => m
  | Some st =>
      {| originalPath := originalPath m;
         path := newPath (copyCommands (commands (s_path st)));
         char := char m;
         params := s_params st;
         undoStack := undoStack m;
         redoStack := redoStack m;
         maxHist := maxHist m |}
  end.

(** [stack.pop()]: the last entry, and the stack without it. *)
Definition pop {A : Type} (stack : list A) : option A * list A :=
  (last stack, removelast stack).

(** [undo()].  Under the guard the stack has a top, so [pop] always answers
    an entry. *)
Definition undo (m : GlyphModel) : GlyphModel :=
  if (1 <? length (undoStack m))%nat then
    let '(top, rest) := pop (undoStack m) in
    let m1 :=
      {| originalPath := originalPath m;
         path := path m;
         char := char m;
         params := params m;
         undoStack := rest;
         redoStack := redoStack m ++ from_option (fun s => [s]) [] top;
         maxHist := maxHist m |} in
    _load (last (undoStack m1)) m1
  else m.

(** [redo()].  Under the guard [pop] always answers an entry. *)
Definition redo (m : GlyphModel) : GlyphModel :=
  if (0 <? length (redoStack m))%nat then
    let '(s, rest) := pop (redoStack m) in
    let m1 :=
      {| originalPath := originalPath m;
         path := path m;
         char := char m;
         params := params m;
         undoStack := undoStack m ++ from_option (fun s => [s]) [] s;
         redoStack := rest;
         maxHist := maxHist m |} in
    _load s m1
  else m.

(** *** Generating a glyph *)

(** [reset()] *)
Definition reset (m : GlyphModel) : GlyphModel :=
  saveState
    {| originalPath := originalPath m;
       path := newPath (copyCommands (commands (originalPath m)));
       char := char m;
       params := defaultParams;
       undoStack := [];
       redoStack := [];
       maxHist := maxHist m |}.

(** The path builders of [opentype.Path]: each pushes one command. *)
Definition moveTo (x y : R) (p : Path) : Path :=
  {| commands := commands p ++ [CmdM x y] |}.
Definition lineTo (x y : R) (p : Path) : Path :=
  {| commands := commands p ++ [CmdL x y] |}.
Definition close (p : Path) : Path :=
  {| commands := commands p ++ [CmdZ] |}.

(** The fallback glyph of [generate]. *)
Definition fallbackPath : Path :=
  close (lineTo 80 0 (lineTo 40 120 (moveTo 0 0 (newPath [])))).

Definition withOriginal (p : Path) (m : GlyphModel) : GlyphModel :=
  {| originalPath := p;
     path := path m;
     char := char m;
     params := params m;
     undoStack := undoStack m;
     redoStack := redoStack m;
     maxHist := maxHist m |}.

Definition withChar (a : ascii) (m : GlyphModel) : GlyphModel :=
  {| originalPath := originalPath m;
     path := path m;
     char := a;
     params := params m;
     undoStack := undoStack m;
     redoStack := redoStack m;
     maxHist := maxHist m |}.

(** [generate(ch)]; [ch] is [None] for a missing ([undefined]) argument.
    The result is how the call completes and the model it leaves behind.
    Without the opentype library [newPath()] is a plain object, and
    [p.moveTo] is not a function: the call throws after [char] is set. *)
Definition generate (env : Env) (ch : option string) (m : GlyphModel)
  : res unit * GlyphModel :=
  match ch with
  | None => (Ok tt, m)
  | Some EmptyString => (Ok tt, m)
  | Some (String a _) =>
      let m := withChar a m in
      match font env, opentype env with
      | Some f, Some _ =>
          (Ok tt, reset (withOriginal (newPath (copyCommands (f a))) m))
      | _, Some _ =>
          (Ok tt,
           reset (withOriginal
                    (newPath (copyCommands (commands fallbackPath))) m))
      | _, None => (Err TypeError, m)
      end
  end.

(** *** Transforming the original path *)

Definition withCommands (cmds : list Command) (m : GlyphModel) : GlyphModel :=
  {| originalPath := originalPath m;
     path := {| commands := cmds |};
     char := char m;
     params := params m;
     undoStack := undoStack m;
     redoStack := redoStack m;
     maxHist := maxHist m |}.

(** [c.x += c.y * tanv], and the same for the control points. *)
Definition slantCommand (tanv : R) (c : Command) : Command :=
  match c with
  | CmdM x y => CmdM (x + y * tanv) y
  | CmdL x y => CmdL (x + y * tanv) y
  | CmdC x1 y1 x2 y2 x y =>
      CmdC (x1 + y1 * tanv) y1 (x2 + y2 * tanv) y2 (x + y * tanv) y
  | CmdQ x1 y1 x y => CmdQ (x1 + y1 * tanv) y1 (x + y * tanv) y
  | CmdZ => CmdZ
  end.

(** [c.x = (c.x - bb.x) * width + bb.x], [c.y = (c.y - bb.y) * height + bb.y],
    and the same for the control points, in exact arithmetic;
    [Double.scaleCommand] is the rounded one. *)
Definition scaleCommand (bb : Box) (p : Params) (c : Command) : Command :=
  let sx v := (v - box_x bb) * width p + box_x bb in
  let sy v := (v - box_y bb) * height p + box_y bb in
  match c with
  | CmdM x y => CmdM (sx x) (sy y)
  | CmdL x y => CmdL (sx x) (sy y)
  | CmdC x1 y1 x2 y2 x y => CmdC (sx x1) (sy y1) (sx x2) (sy y2) (sx x) (sy y)
  | CmdQ x1 y1 x y => CmdQ (sx x1) (sy y1) (sx x) (sy y)
  | CmdZ => CmdZ
  end.

(** The roundness loop body: control points are pulled toward [(c.x, c.y)]. *)
Definition roundCommand (t : R) (c : Command) : Command :=
  match c with
  | CmdC x1 y1 x2 y2 x y =>
      CmdC (lerp x1 x t) (lerp y1 y t) (lerp x2 x t) (lerp y2 y t) x y
  | CmdQ x1 y1 x y => CmdQ (lerp x1 x t) (lerp y1 y t) x y
  | other => other
  end.

(** The three passes of [applyParams] over the copied commands, in exact
    arithmetic and with the real tangent and pi; [Double.slantPass],
    [Double.scalePass] and [Double.roundPass] are the rounded ones. *)
Definition slantPass (p : Params) (cmds : list Command) : list Command :=
  if Req_dec_T (slant p) 0 then cmds
  else map (slantCommand (tan (slant p * (PI / 4)))) cmds.

Definition scalePass (env : Env) (p : Params) (cmds : list Command)
  : list Command :=
  let bb := bboxOf env cmds in
  if Rgt_dec (box_w bb) 0 then
    if Rgt_dec (box_h bb) 0 then map (scaleCommand bb p) cmds else cmds
  else cmds.

Definition roundPass (p : Params) (cmds : list Command) : list Command :=
  if Rgt_dec (roundness p) 0 then map (roundCommand (roundness p)) cmds
  else cmds.

(** [applyParams()] *)
Definition applyParams (env : Env) (m : GlyphModel) : GlyphModel :=
  let cmds := copyCommands (commands (originalPath m)) in
  let cmds := slantPass (params m) cmds in
  let cmds := scalePass env (params m) cmds in
  let cmds := roundPass (params m) cmds in
  saveState (withCommands cmds m).

(** [params[name] = value] *)
Definition setParam (name : ParamName) (v : R) (p : Params) : Params :=
  match name with
  | pWidth => {| width := v; height := height p; weight := weight p;
                 slant := slant p; roundness := roundness p |}
  | pHeight => {| width := width p; height := v; weight := weight p;
                  slant := slant p; roundness := roundness p |}
  | pWeight => {| width := width p; height := height p; weight := v;
                  slant := slant p; roundness := roundness p |}
  | pSlant => {| width := width p; height := height p; weight := weight p;
                 slant := v; roundness := roundness p |}
  | pRoundness => {| width := width p; height := height p; weight := weight p;
                     slant := slant p; roundness := v |}
  end.

(** [UI.paramChange(name, slider)]: the slider value is stored, then
    [applyParams()] runs. *)
Definition paramChange (env : Env) (name : ParamName) (v : R)
    (m : GlyphModel) : GlyphModel :=
  applyParams env
    {| originalPath := originalPath m;
       path := path m;
       char := char m;
       params := setParam name v (params m);
       undoStack := undoStack m;
       redoStack := redoStack m;
       maxHist := maxHist m |}.

(** *** Randomizing *)

(** [v += (random() - 0.5) * s] with [s = 20]: the new value and the next
    generator state. *)
Definition perturb (G : Generator) (v : R) (g : rstate G) : R * rstate G :=
  let '(r, g) := random G g in (v + (r - 0.5) * 20, g).

(** The loop body of [randomize]: [x], [y], then [x1], [y1], [x2], [y2]. *)
Definition randomizeCommand (G : Generator) (c : Command) (g : rstate G)
  : Command * rstate G :=
  match c with
  | CmdM x y =>
      let '(x, g) := perturb G x g in
      let '(y, g) := perturb G y g in
      (CmdM x y, g)
  | CmdL x y =>
      let '(x, g) := perturb G x g in
      let '(y, g) := perturb G y g in
      (CmdL x y, g)
  | CmdC x1 y1 x2 y2 x y =>
      let '(x, g) := perturb G x g in
      let '(y, g) := perturb G y g in
      let '(x1, g) := perturb G x1 g in
      let '(y1, g) := perturb G y1 g in
      let '(x2, g) := perturb G x2 g in
      let '(y2, g) := perturb G y2 g in
      (CmdC x1 y1 x2 y2 x y, g)
  | CmdQ x1 y1 x y =>
      let '(x, g) := perturb G x g in
      let '(y, g) := perturb G y g in
      let '(x1, g) := perturb G x1 g in
      let '(y1, g) := perturb G y1 g in
      (CmdQ x1 y1 x y, g)
  | CmdZ => (CmdZ, g)
  end.

(** [for (const c of this.path.commands) ...], in index order. *)
Fixpoint randomizeCommands (G : Generator) (cmds : list Command)
    (g : rstate G) : list Command * rstate G :=
  match cmds with
  | [] => ([], g)
  | c :: rest =>
      let '(c', g) := randomizeCommand G c g in
      let '(rest', g) := randomizeCommands G rest g in
      (c' :: rest', g)
  end.

(** [randomize(seed)], [seed] being the integer the UI parsed.  [g] is the
    state of the generator when the call starts, which [randomSeed(seed)]
    replaces; the result is the model and the generator state left
    behind. *)
Definition randomize (G : Generator) (seed : Z) (m : GlyphModel)
    (g : rstate G) : GlyphModel * rstate G :=
  let g := randomSeed G seed in
  let '(cmds, g) := randomizeCommands G (commands (path m)) g in
  (saveState (withCommands cmds m), g).

(** ** The operations of a session *)

(** One step of a session: a model method called by the UI or the editor,
    in the environment of that moment (a font may be loaded in between).
    A drag is a [setPoint] on the working path; a [setPoint] that throws
    does so before it writes and leaves the path as it was.  References to
    a field the command does not have are outside the embedding. *)
Inductive step (G : Generator) : GlyphModel -> GlyphModel -> Prop :=
| step_generate env ch m :
    step G m (snd (generate env ch m))
| step_reset m :
    step G m (reset m)
| step_paramChange env name v m :
    step G m (paramChange env name v m)
| step_randomize seed g m :
    step G m (fst (randomize G seed m g))
| step_undo m :
    step G m (undo m)
| step_redo m :
    step G m (redo m)
| step_setPoint ref x y lock m cmds :
    Editor.setPoint ref x y lock (commands (path m)) = Ok cmds ->
    step G m (withCommands cmds m)
| step_mouseReleased m :
    step G m (saveState m).

(** The models a session can be in, starting from [new GlyphModel()]. *)
Inductive reachable (G : Generator) : GlyphModel -> Prop :=
| reachable_new : reachable G newGlyphModel
| reachable_step m m' :
    reachable G m -> step G m m' -> reachable G m'.

(** ** Concrete libraries for the examples *)

(** The points a command carries, control points included. *)
Definition pointsOf (c : Command) : list (R * R) :=
  match c with
  | CmdM x y | CmdL x y => [(x, y)]
  | CmdC x1 y1 x2 y2 x y => [(x1, y1); (x2, y2); (x, y)]
  | CmdQ x1 y1 x y => [(x1, y1); (x, y)]
  | CmdZ => []
  end.

Definition addPoint (b : BoundingBox) (pt : R * R) : BoundingBox :=
  {| bx1 := Rmin (bx1 b) (fst pt); by1 := Rmin (by1 b) (snd pt);
     bx2 := Rmax (bx2 b) (fst pt); by2 := Rmax (by2 b) (snd pt) |}.

(** Modelled from the spec: [opentype.Path.prototype.getBoundingBox] belongs
    to the opentype.js library and is not in the sources.  The box
    "enclosing all anchor and control points in the path (control points of
    curves count toward the box)", and "a zero-area box for an empty
    path". *)
Definition specBoundingBox (cmds : list Command) : option BoundingBox :=
  match concat (map pointsOf cmds) with
  | [] => Some {| bx1 := 0; by1 := 0; bx2 := 0; by2 := 0 |}
  | (x, y) :: pts =>
      Some (fold_left addPoint pts {| bx1 := x; by1 := y; bx2 := x; by2 := y |})
  end.

Definition specOpentype : Opentype := {| getBoundingBox := specBoundingBox |}.

(** The session in which the library is loaded and the default font is
    not. *)
Definition noFontEnv : Env := {| opentype := Some specOpentype; font := None |}.

(** A seeded generator of the kind p5 documents for [randomSeed]/[random]:
    a linear congruential generator on 32-bit states, [random()] being the
    new state divided by [2^32].  The theorems below hold for every
    generator; this one makes the examples concrete. *)
Definition lcg : Generator :=
  {| rstate := Z;
     randomSeed := fun seed => (seed mod 4294967296)%Z;
     random := fun z =>
       let z' := ((1664525 * z + 1013904223) mod 4294967296)%Z in
       (IZR z' / 4294967296, z') |}.

(** A font whose every glyph is one contour with a cubic and a quadratic
    segment, and the session that has loaded it. *)
Definition curvedFont : Font :=
  fun _ => [CmdM 0 0; CmdC 10 20 30 40 50 60; CmdQ 70 80 90 10; CmdZ].

Definition curvedEnv : Env :=
  {| opentype := Some specOpentype; font := Some curvedFont |}.

(** ** Notions used in the statements *)

(** The history stacks of a model hold at most [60] entries between them,
    and the bound itself is [60]. *)
Definition historyBounded (m : GlyphModel) : Prop :=
  maxHist m = 60%nat /\
  (length (undoStack m) + length (redoStack m) <= 60)%nat.

(** The history entry [saveState] builds from a model. *)
Definition snapshotOf (m : GlyphModel) : Snapshot :=
  {| s_path := newPath (copyCommands (commands (path m)));
     s_params := params m |}.

(** Every control point of the command lies on its end anchor. *)
Definition collapsed (c : Command) : Prop :=
  match c with
  | CmdC x1 y1 x2 y2 x y => (x1, y1) = (x, y) /\ (x2, y2) = (x, y)
  | CmdQ x1 y1 x y => (x1, y1) = (x, y)
  | _ => True
  end.

(** The model after [generate] found no font to read. *)
Definition fallbackModel : GlyphModel :=
  snd (generate noFontEnv (Some "A"%string) newGlyphModel).

(** The model after [generate] read a glyph of [curvedFont]. *)
Definition curvedModel : GlyphModel :=
  snd (generate curvedEnv (Some "O"%string) newGlyphModel).

(** [m] with [params[name] = v] stored. *)
Definition withParam (name : ParamName) (v : R) (m : GlyphModel) : GlyphModel :=
  {| originalPath := originalPath m;
     path := path m;
     char := char m;
     params := setParam name v (params m);
     undoStack := undoStack m;
     redoStack := redoStack m;
     maxHist := maxHist m |}.

(** ** Editor: pointer handling *)

(** [c.type] *)
Inductive CommandType : Type := typeM | typeL | typeC | typeQ | typeZ.

Definition typeOf (c : Command) : CommandType :=
  match c with
  | CmdM _ _ => typeM
  | CmdL _ _ => typeL
  | CmdC _ _ _ _ _ _ => typeC
  | CmdQ _ _ _ _ => typeQ
  | CmdZ => typeZ
  end.

(** The coordinates a command carries, in the order of its fields. *)
Definition coords (c : Command) : list R :=
  match c with
  | CmdM x y | CmdL x y => [x; y]
  | CmdC x1 y1 x2 y2 x y => [x1; y1; x2; y2; x; y]
  | CmdQ x1 y1 x y => [x1; y1; x; y]
  | CmdZ => []
  end.

(** [Math.round(v)]: the nearest integer, halves going up. *)
Definition jsround (v : R) : R := IZR (Int_part (v + 0.5)).

Module Events.

(** [this.cam = { x, y, z }] *)
Record Camera : Type := { camX : R; camY : R; camZ : R }.

(** A layout rectangle [{ x, y, w, h }]. *)
Record Area : Type := { areaX : R; areaY : R; areaW : R; areaH : R }.

(** [this.dragMode]: [null], ['canvas'] or a point reference. *)
Inductive DragMode : Type :=
| noDrag
| canvasDrag
| pointDrag (ref : PointRef).

(** [this.view = { wire, fill, grid, lock }] *)
Record View : Type := { wire : bool; fill : bool; grid : bool; lock : bool }.

(** The fields of an [Editor]. *)
Record EditorState : Type :=
  { cam : Camera;
    dragMode : DragMode;
    dragOff : R * R;
    selected : list PointRef;
    hover : option PointRef;
    view : View;
    initCam : bool;
    lastEditorArea : Area }.

(** What a handler reads from p5: [mouseX], [mouseY] and
    [keyIsDown(SHIFT)]. *)
Record Mouse : Type := { mouseX : R; mouseY : R; shiftDown : bool }.

Definition withCam (c : Camera) (ed : EditorState) : EditorState :=
  {| cam := c; dragMode := dragMode ed; dragOff := dragOff ed;
     selected := selected ed; hover := hover ed; view := view ed;
     initCam := initCam ed; lastEditorArea := lastEditorArea ed |}.

Definition withDragMode (d : DragMode) (ed : EditorState) : EditorState :=
  {| cam := cam ed; dragMode := d; dragOff := dragOff ed;
     selected := selected ed; hover := hover ed; view := view ed;
     initCam := initCam ed; lastEditorArea := lastEditorArea ed |}.

Definition withDragOff (off : R * R) (ed : EditorState) : EditorState :=
  {| cam := cam ed; dragMode := dragMode ed; dragOff := off;
     selected := selected ed; hover := hover ed; view := view ed;
     initCam := initCam ed; lastEditorArea := lastEditorArea ed |}.

Definition withSelected (sel : list PointRef) (ed : EditorState)
  : EditorState :=
  {| cam := cam ed; dragMode := dragMode ed; dragOff := dragOff ed;
     selected := sel; hover := hover ed; view := view ed;
     initCam := initCam ed; lastEditorArea := lastEditorArea ed |}.

Definition withHover (h : option PointRef) (ed : EditorState) : EditorState :=
  {| cam := cam ed; dragMode := dragMode ed; dragOff := dragOff ed;
     selected := selected ed; hover := h; view := view ed;
     initCam := initCam ed; lastEditorArea := lastEditorArea ed |}.

(** [s.index === t.index && s.type === t.type] *)
Definition sameRef (s t : PointRef) : bool :=
  Nat.eqb (index s) (index t) &&
  match type s, type t with
  | anchor, anchor | c1, c1 | c2, c2 | q, q => true
  | _, _ => false
  end.

(** [getPoint(ref)].  Reading a coordinate of a missing command throws. *)
Definition getPoint (cmds : list Command) (ref : PointRef) : res (R * R) :=
  do c <- orThrow TypeError (cmds !! index ref);
  match type ref with
  | anchor => orThrow NotModelled (xy c)
  | c1 => orThrow NotModelled (xy1 c)
  | c2 => orThrow NotModelled (xy2 c)
  | q => orThrow NotModelled (xy1 c)
  end.

(** The body of the loop of [pointHit] for the command [c] at index [i]:
    the control points are tried before the anchor. *)
Definition hitCommand (r mx my : R) (i : nat) (c : Command)
  : option PointRef :=
  match c with
  | CmdC x1 y1 x2 y2 x y =>
      if Rlt_dec (dist mx my x1 y1) r then Some {| index := i; type := c1 |}
      else if Rlt_dec (dist mx my x2 y2) r
           then Some {| index := i; type := c2 |}
      else if Rlt_dec (dist mx my x y) r
           then Some {| index := i; type := anchor |}
      else None
  | CmdQ x1 y1 x y =>
      if Rlt_dec (dist mx my x1 y1) r then Some {| index := i; type := q |}
      else if Rlt_dec (dist mx my x y) r
           then Some {| index := i; type := anchor |}
      else None
  | CmdM x y | CmdL x y =>
      if Rlt_dec (dist mx my x y) r
      then Some {| index := i; type := anchor |}
      else None
  | CmdZ => None
  end.

(** [for (let i = cmds.length - 1; i >= 0; i--)]: [hitScan cmds r mx my n]
    tries the indices [n - 1] down to [0].  The scan starts at
    [cmds.length], so every index it reads holds a command. *)
Fixpoint hitScan (cmds : list Command) (r mx my : R) (n : nat)
  : option PointRef :=
  match n with
  | O => None
  | S i =>
      match cmds !! i with
      | Some c =>
          match hitCommand r mx my i c with
          | Some ref => Some ref
          | None => hitScan cmds r mx my i
          end
      | None => None
      end
  end.

(** [pointHit(mx, my, hit)]; the callers leave [hit] at its default 10.
    At zoom 0 the radius [hit / cam.z] is Infinity and has no real value:
    [Err NonFinite].  The handlers reach that case only with the pointer
    position [worldMouse] computes at that zoom, which is not finite
    either; they treat it as a miss. *)
Definition pointHit (ed : EditorState) (cmds : list Command)
    (mx my hit : R) : res (option PointRef) :=
  do r <- jsdiv hit (camZ (cam ed));
  Ok (hitScan cmds r mx my (length cmds)).

(** [worldMouse(area)], with the exact quotient. *)
Definition worldMouse (ed : EditorState) (mo : Mouse) (area : Area)
  : res (R * R) :=
  do wx <- jsdiv (mouseX mo - (areaX area + areaW area / 2) - camX (cam ed))
                 (camZ (cam ed));
  do wy <- jsdiv (mouseY mo - (areaY area + areaH area / 2) - camY (cam ed))
                 (camZ (cam ed));
  Ok (wx, wy).

(** The world transform of [draw(area)]:
    [translate(area.x + area.w / 2 + cam.x, area.y + area.h / 2 + cam.y);
     scale(cam.z)] puts the world point [(wx, wy)] at this canvas
    position. *)
Definition toScreen (ed : EditorState) (area : Area) (w : R * R) : R * R :=
  (areaX area + areaW area / 2 + camX (cam ed) + camZ (cam ed) * fst w,
   areaY area + areaH area / 2 + camY (cam ed) + camZ (cam ed) * snd w).

(** [mouseInRect(r)] *)
Definition mouseInRect (mo : Mouse) (r : Area) : bool :=
  (if Rge_dec (mouseX mo) (areaX r) then true else false) &&
  (if Rle_dec (mouseX mo) (areaX r + areaW r) then true else false) &&
  (if Rge_dec (mouseY mo) (areaY r) then true else false) &&
  (if Rle_dec (mouseY mo) (areaY r + areaH r) then true else false).

(** The selection after a press on the point [t]. *)
Definition pressSelection (shift : bool) (t : PointRef)
    (sel : list PointRef) : list PointRef :=
  let isSel := existsb (fun s => sameRef s t) sel in
  if shift then
    if isSel then List.filter (fun s => negb (sameRef s t)) sel
    else sel ++ [t]
  else if isSel then sel else [t].

(** The [else] branch of [mousePressed]: a press on empty canvas. *)
Definition pressOnCanvas (mo : Mouse) (ed : EditorState) : EditorState :=
  withDragOff (mouseX mo, mouseY mo)
    (withDragMode canvasDrag (withSelected [] ed)).

(** [mousePressed()]: how the handler completes and the editor it leaves.
    The model is only read.  At zoom 0 nothing throws: the world position
    of the pointer is Infinity or NaN, no distance from it is below the hit
    radius, [pointHit] answers [null] and the press is one on empty
    canvas. *)
Definition mousePressed (mo : Mouse) (m : GlyphModel) (ed : EditorState)
  : res unit * EditorState :=
  if negb (mouseInRect mo (lastEditorArea ed)) then (Ok tt, ed)
  else
    match worldMouse ed mo (lastEditorArea ed) with
    | Err _ => (Ok tt, pressOnCanvas mo ed)
    | Ok (mx, my) =>
        match pointHit ed (commands (path m)) mx my 10 with
        | Err _ => (Ok tt, pressOnCanvas mo ed)
        | Ok (Some t) =>
            let ed := withDragMode (pointDrag t) ed in
            match getPoint (commands (path m)) t with
            | Err e => (Err e, ed)
            | Ok (px, py) =>
                let ed := withDragOff (px - mx, py - my) ed in
                (Ok tt,
                 withSelected (pressSelection (shiftDown mo) t (selected ed))
                   ed)
            end
        | Ok None => (Ok tt, pressOnCanvas mo ed)
        end
    end.

(** [this.selected.forEach(sel => { const o = this.getPoint(sel);
    this.setPoint(sel, o.x + dx, o.y + dy, this.view.lock); })]: how the
    loop completes and the commands it leaves.  A call that throws does so
    before it writes, and ends the loop. *)
Fixpoint dragSelection (dx dy : R) (lockCollinear : bool)
    (sel : list PointRef) (cmds : list Command)
  : res unit * list Command :=
  match sel with
  | [] => (Ok tt, cmds)
  | s :: rest =>
      match getPoint cmds s with
      | Err e => (Err e, cmds)
      | Ok (ox, oy) =>
          match Editor.setPoint s (ox + dx) (oy + dy) lockCollinear cmds with
          | Err e => (Err e, cmds)
          | Ok cmds' => dragSelection dx dy lockCollinear rest cmds'
          end
      end
  end.

(** [mouseDragged()] on the editor and the model, with exact sums for the
    camera steps and the drag targets.  A point drag at zoom 0
    would write coordinates that are not finite; the model stops there
    with [Err NonFinite]. *)
Definition mouseDragged (mo : Mouse) (w : EditorState * GlyphModel)
  : res unit * (EditorState * GlyphModel) :=
  let '(ed, m) := w in
  match dragMode ed with
  | noDrag => (Ok tt, w)
  | canvasDrag =>
      let c := {| camX := camX (cam ed) + (mouseX mo - fst (dragOff ed));
                  camY := camY (cam ed) + (mouseY mo - snd (dragOff ed));
                  camZ := camZ (cam ed) |} in
      (Ok tt, (withDragOff (mouseX mo, mouseY mo) (withCam c ed), m))
  | pointDrag t =>
      match worldMouse ed mo (lastEditorArea ed) with
      | Err e => (Err e, w)
      | Ok (mx, my) =>
          let nx := mx + fst (dragOff ed) in
          let ny := my + snd (dragOff ed) in
          let nx := if grid (view ed) then jsround (nx / 10) * 10 else nx in
          let ny := if grid (view ed) then jsround (ny / 10) * 10 else ny in
          match getPoint (commands (path m)) t with
          | Err e => (Err e, w)
          | Ok (rx, ry) =>
              let '(r, cmds) :=
                dragSelection (nx - rx) (ny - ry) (lock (view ed))
                  (selected ed) (commands (path m)) in
              (r, (ed, withCommands cmds m))
          end
      end
  end.

(** [mouseReleased()] *)
Definition mouseReleased (w : EditorState * GlyphModel)
  : EditorState * GlyphModel :=
  let '(ed, m) := w in
  match dragMode ed with
  | pointDrag _ => (withDragMode noDrag ed, saveState m)
  | _ => (withDragMode noDrag ed, m)
  end.

(** [mouseMoved()]: the pointer position is only used inside the editor
    area.  At zoom 0 no point is within reach of the pointer, as in
    [mousePressed], and [hover] becomes [null]. *)
Definition mouseMoved (mo : Mouse) (m : GlyphModel) (ed : EditorState)
  : res unit * EditorState :=
  if mouseInRect mo (lastEditorArea ed) then
    match worldMouse ed mo (lastEditorArea ed) with
    | Err _ => (Ok tt, withHover None ed)
    | Ok (mx, my) =>
        match pointHit ed (commands (path m)) mx my 10 with
        | Err _ => (Ok tt, withHover None ed)
        | Ok h => (Ok tt, withHover h ed)
        end
    end
  else (Ok tt, withHover None ed).

(** [fitTo(area)], in exact arithmetic.  Both quotients are taken under the
    guard, by a positive width and height. *)
Definition fitTo (env : Env) (m : GlyphModel) (area : Area)
    (ed : EditorState) : EditorState :=
  let bb := bbox env m in
  if Rle_dec (box_w bb) 0 then ed
  else if Rle_dec (box_h bb) 0 then ed
  else
    let pad := 50 in
    let sx := (areaW area - pad * 2) / box_w bb in
    let sy := (areaH area - pad * 2) / box_h bb in
    let z := Rmin sx sy * 0.9 in
    withCam {| camX := - (box_x bb + box_w bb / 2) * z;
               camY := - (box_y bb + box_h bb / 2) * z;
               camZ := z |} ed.

(** A run of drag events, one handler call after the other; a handler
    that throws does not stop the next one. *)
Definition drags (mos : list Mouse) (w : EditorState * GlyphModel)
  : EditorState * GlyphModel :=
  fold_left (fun w mo => snd (mouseDragged mo w)) mos w.

(** [new Editor()], before the first [draw], for a given editor area. *)
Definition newEditor (area : Area) : EditorState :=
  {| cam := {| camX := 0; camY := 0; camZ := 1 |};
     dragMode := noDrag;
     dragOff := (0, 0);
     selected := [];
     hover := None;
     view := {| wire := true; fill := false; grid := false; lock := false |};
     initCam := false;
     lastEditorArea := area |}.

End Events.

(** ** Further notions used in the statements *)

(** The working path and the params of the model are the ones of the
    newest history entry: nothing was edited since the last commit. *)
Definition committed (m : GlyphModel) : Prop :=
  last (undoStack m) = Some {| s_path := path m; s_params := params m |}.

(** The handle of a control point: its offset from the end anchor. *)
Definition handles (c : Command) : list (R * R) :=
  match c with
  | CmdC x1 y1 x2 y2 x y => [(x1 - x, y1 - y); (x2 - x, y2 - y)]
  | CmdQ x1 y1 x y => [(x1 - x, y1 - y)]
  | _ => []
  end.

(** The point of a command a reference type names: what [getPoint] reads. *)
Definition pointOf (t : PointType) (c : Command) : option (R * R) :=
  match t with
  | anchor => xy c
  | c1 | q => xy1 c
  | c2 => xy2 c
  end.

(** A command after its anchor went to [(x, y)], a move by [(dx, dy)]. *)
Definition anchorMoved (x y dx dy : R) (c : Command) : Command :=
  match c with
  | CmdM _ _ => CmdM x y
  | CmdL _ _ => CmdL x y
  | CmdC x1 y1 x2 y2 _ _ => CmdC x1 y1 (x2 + dx) (y2 + dy) x y
  | CmdQ x1 y1 _ _ => CmdQ x1 y1 x y
  | CmdZ => CmdZ
  end.

(** A cubic command after its first control point moved by [(dx, dy)]. *)
Definition c1Shifted (dx dy : R) (c : Command) : Command :=
  match c with
  | CmdC x1 y1 x2 y2 x y => CmdC (x1 + dx) (y1 + dy) x2 y2 x y
  | other => other
  end.

(** A reference type names a point the command has: what [pointHit]
    answers for it. *)
Definition fits (t : PointType) (c : Command) : Prop :=
  match t, c with
  | anchor, (CmdM _ _ | CmdL _ _ | CmdC _ _ _ _ _ _ | CmdQ _ _ _ _) => True
  | c1, CmdC _ _ _ _ _ _ => True
  | c2, CmdC _ _ _ _ _ _ => True
  | q, CmdQ _ _ _ _ => True
  | _, _ => False
  end.

(** The point [p] is not within [r] of [(mx, my)]. *)
Definition beyond (r mx my : R) (p : R * R) : Prop :=
  ~ dist mx my (fst p) (snd p) < r.

(** An editor area of 600 by 600 at the origin, and a glyph of one line
    and one curve. *)
Definition sampleArea : Events.Area :=
  {| Events.areaX := 0; Events.areaY := 0;
     Events.areaW := 600; Events.areaH := 600 |}.

Definition twoCurves : list Command :=
  [CmdM 0 0; CmdC 10 0 20 0 30 0; CmdC 40 0 50 0 60 0].

(** The model showing [twoCurves], committed once, and an editor looking
    at it with the camera of a new editor. *)
Definition twoCurvesModel : GlyphModel :=
  saveState (withCommands twoCurves newGlyphModel).

Definition sampleEditor : Events.EditorState := Events.newEditor sampleArea.

(** [sampleEditor] after a press on the last anchor of [twoCurves], with
    the snap-to-grid box as given. *)
Definition grabbedEditor (gridOn : bool) : Events.EditorState :=
  {| Events.cam := {| Events.camX := 0; Events.camY := 0; Events.camZ := 1 |};
     Events.dragMode := Events.pointDrag {| index := 2; type := anchor |};
     Events.dragOff := (0, 0);
     Events.selected := [{| index := 2; type := anchor |}];
     Events.hover := None;
     Events.view := {| Events.wire := true; Events.fill := false;
                       Events.grid := gridOn; Events.lock := false |};
     Events.initCam := false;
     Events.lastEditorArea := sampleArea |}.

(** The pointer over the world point [(60, 0)] of [sampleEditor], the end
    anchor of the second curve of [twoCurves]. *)
Definition overLastAnchor (shift : bool) : Events.Mouse :=
  {| Events.mouseX := 360; Events.mouseY := 300; Events.shiftDown := shift |}.

(** ** Double precision *)

(** The numbers of the program are IEEE 754 binary64 values, and [+], [-]
    and [*] round to the nearest one.  The functions in which that shows
    are embedded here a second time, over [float] and operation by
    operation as the source has them: the passes of [applyParams] and the
    anchor branch of [setPoint]. *)
Module Double.

Local Open Scope float_scope.

Inductive Command : Type :=
| CmdM (x y : float)
| CmdL (x y : float)
| CmdC (x1 y1 x2 y2 x y : float)
| CmdQ (x1 y1 x y : float)
| CmdZ.

(** [c.type] *)
Definition typeOf (c : Command) : CommandType :=
  match c with
  | CmdM _ _ => typeM
  | CmdL _ _ => typeL
  | CmdC _ _ _ _ _ _ => typeC
  | CmdQ _ _ _ _ => typeQ
  | CmdZ => typeZ
  end.

Definition isC (c : Command) : bool :=
  match c with CmdC _ _ _ _ _ _ => true | _ => false end.

(** [(c.x, c.y)], for the commands with ['x' in c]. *)
Definition xy (c : Command) : option (float * float) :=
  match c with
  | CmdM x y | CmdL x y | CmdC _ _ _ _ x y | CmdQ _ _ x y => Some (x, y)
  | CmdZ => None
  end.

(** [(c.x2, c.y2)], for the commands with ['x2' in c]. *)
Definition xy2 (c : Command) : option (float * float) :=
  match c with
  | CmdC _ _ x2 y2 _ _ => Some (x2, y2)
  | _ => None
  end.

(** The points a command carries, control points included. *)
Definition pointsOf (c : Command) : list (float * float) :=
  match c with
  | CmdM x y | CmdL x y => [(x, y)]
  | CmdC x1 y1 x2 y2 x y => [(x1, y1); (x2, y2); (x, y)]
  | CmdQ x1 y1 x y => [(x1, y1); (x, y)]
  | CmdZ => []
  end.

(** A number after [JSON.parse(JSON.stringify(v))]: a finite value comes
    back as it was, except that [-0] is written as [0]; Infinity and NaN
    are written as [null], which [+], [-], [*], [<] and [isFinite] read as
    [0]. *)
Definition copyNumber (v : float) : float :=
  if PrimFloat.is_finite v then (if v =? 0 then 0 else v) else 0.

(** [JSON.parse(JSON.stringify(cmds || []))] *)
Definition copyCommand (c : Command) : Command :=
  match c with
  | CmdM x y => CmdM (copyNumber x) (copyNumber y)
  | CmdL x y => CmdL (copyNumber x) (copyNumber y)
  | CmdC x1 y1 x2 y2 x y =>
      CmdC (copyNumber x1) (copyNumber y1) (copyNumber x2) (copyNumber y2)
        (copyNumber x) (copyNumber y)
  | CmdQ x1 y1 x y =>
      CmdQ (copyNumber x1) (copyNumber y1) (copyNumber x) (copyNumber y)
  | CmdZ => CmdZ
  end.

Definition copyCommands (cmds : list Command) : list Command :=
  map copyCommand cmds.

(** p5's [lerp(start, stop, amt)]: [amt * (stop - start) + start]. *)
Definition lerp (start stop amt : float) : float :=
  amt * (stop - start) + start.

(** [Math.PI], the double nearest to the number. *)
Definition PI : float := 0x1.921fb54442d18p+1.

(** What [getBoundingBox] returns: the corners [x1, y1, x2, y2]. *)
Record BoundingBox : Type :=
  { bx1 : float; by1 : float; bx2 : float; by2 : float }.

(** The libraries as [applyParams] uses them: [getBoundingBox] of the
    global [opentype] ([None] while [typeof opentype === 'undefined']; the
    call answers [None] when the method is missing), and [Math.tan], whose
    rounding the language leaves to the engine. *)
Record Env : Type :=
  { opentype : option (list Command -> option BoundingBox);
    tan : float -> float }.

Record Params : Type :=
  { width : float; height : float; weight : float; slant : float;
    roundness : float }.

(** [{ x, y, w, h }] *)
Record Box : Type :=
  { box_x : float; box_y : float; box_w : float; box_h : float }.

(** [bboxOf(cmds)] *)
Definition bboxOf (env : Env) (cmds : list Command) : Box :=
  match opentype env with
  | None => {| box_x := 0; box_y := 0; box_w := 100; box_h := 100 |}
  | Some getBoundingBox =>
      match getBoundingBox (copyCommands cmds) with
      | None => {| box_x := 0; box_y := 0; box_w := 0; box_h := 0 |}
      | Some b =>
          if PrimFloat.is_finite (bx1 b) && PrimFloat.is_finite (by1 b) &&
             PrimFloat.is_finite (bx2 b) && PrimFloat.is_finite (by2 b)
          then {| box_x := bx1 b; box_y := by1 b;
                  box_w := bx2 b - bx1 b; box_h := by2 b - by1 b |}
          else {| box_x := 0; box_y := 0; box_w := 0; box_h := 0 |}
      end
  end.

(** [c.x += c.y * tanv], and the same for the control points. *)
Definition slantCommand (tanv : float) (c : Command) : Command :=
  match c with
  | CmdM x y => CmdM (x + y * tanv) y
  | CmdL x y => CmdL (x + y * tanv) y
  | CmdC x1 y1 x2 y2 x y =>
      CmdC (x1 + y1 * tanv) y1 (x2 + y2 * tanv) y2 (x + y * tanv) y
  | CmdQ x1 y1 x y => CmdQ (x1 + y1 * tanv) y1 (x + y * tanv) y
  | CmdZ => CmdZ
  end.

(** [c.x = (c.x - bb.x) * width + bb.x], [c.y = (c.y - bb.y) * height + bb.y],
    and the same for the control points. *)
Definition scaleCommand (bb : Box) (p : Params) (c : Command) : Command :=
  let sx v := (v - box_x bb) * width p + box_x bb in
  let sy v := (v - box_y bb) * height p + box_y bb in
  match c with
  | CmdM x y => CmdM (sx x) (sy y)
  | CmdL x y => CmdL (sx x) (sy y)
  | CmdC x1 y1 x2 y2 x y => CmdC (sx x1) (sy y1) (sx x2) (sy y2) (sx x) (sy y)
  | CmdQ x1 y1 x y => CmdQ (sx x1) (sy y1) (sx x) (sy y)
  | CmdZ => CmdZ
  end.

(** The roundness loop body: control points are pulled toward [(c.x, c.y)]. *)
Definition roundCommand (t : float) (c : Command) : Command :=
  match c with
  | CmdC x1 y1 x2 y2 x y =>
      CmdC (lerp x1 x t) (lerp y1 y t) (lerp x2 x t) (lerp y2 y t) x y
  | CmdQ x1 y1 x y => CmdQ (lerp x1 x t) (lerp y1 y t) x y
  | other => other
  end.

(** [if (this.params.slant !== 0) { ... }] *)
Definition slantPass (env : Env) (p : Params) (cmds : list Command)
  : list Command :=
  if slant p =? 0 then cmds
  else map (slantCommand (tan env (slant p * (PI / 4)))) cmds.

(** [if (bb.w > 0 && bb.h > 0) { ... }] *)
Definition scalePass (env : Env) (p : Params) (cmds : list Command)
  : list Command :=
  let bb := bboxOf env cmds in
  if (0 <? box_w bb) && (0 <? box_h bb) then map (scaleCommand bb p) cmds
  else cmds.

(** [if (this.params.roundness > 0) { ... }] *)
Definition roundPass (p : Params) (cmds : list Command) : list Command :=
  if 0 <? roundness p then map (roundCommand (roundness p)) cmds else cmds.

(** [applyParams()] up to [this.path.commands = cmds]: the commands it
    installs, from [this.originalPath.commands] and [this.params].  The
    commit that follows is [saveState], as in the main embedding. *)
Definition applyParams (env : Env) (p : Params) (cmds : list Command)
  : list Command :=
  roundPass p (scalePass env p (slantPass env p (copyCommands cmds))).

(** [nextCurve(i)], as in [Editor]. *)
Fixpoint scanCurve (cmds : list Command) (k : nat) : option nat :=
  match cmds with
  | [] => None
  | c :: rest => if isC c then Some k else scanCurve rest (S k)
  end.

Definition nextCurve (cmds : list Command) (i : nat) : option nat :=
  scanCurve (drop (S i) cmds) (S i).

(** The branch [if (ref.type === 'anchor') { ... return; }] of [setPoint],
    for the reference [{ index: i, type: 'anchor' }]. *)
Definition setPointAnchor (i : nat) (x y : float) (cmds : list Command)
  : res (list Command) :=
  do c <- orThrow TypeError (cmds !! i);
  do (cx, cy) <- orThrow NotModelled (xy c);
  let dx := x - cx in
  let dy := y - cy in
  let moved :=
    match c with
    | CmdM _ _ => CmdM x y
    | CmdL _ _ => CmdL x y
    | CmdC x1 y1 x2 y2 _ _ => CmdC x1 y1 (x2 + dx) (y2 + dy) x y
    | CmdQ x1 y1 _ _ => CmdQ x1 y1 x y
    | CmdZ => CmdZ
    end in
  let cmds := <[i := moved]> cmds in
  match nextCurve cmds i with
  | Some ni =>
      do n <- orThrow TypeError (cmds !! ni);
      match n with
      | CmdC x1 y1 x2 y2 nx ny =>
          Ok (<[ni := CmdC (x1 + dx) (y1 + dy) x2 y2 nx ny]> cmds)
      | _ => Err NotModelled
      end
  | None => Ok cmds
  end.

(** [{ width: 1, height: 1, weight: 0, slant: 0, roundness: 0 }], the
    params of a new model and after [generate]. *)
Definition defaultParams : Params :=
  {| width := 1; height := 1; weight := 0; slant := 0; roundness := 0 |}.

Definition addPoint (b : BoundingBox) (pt : float * float) : BoundingBox :=
  {| bx1 := if fst pt <? bx1 b then fst pt else bx1 b;
     by1 := if snd pt <? by1 b then snd pt else by1 b;
     bx2 := if bx2 b <? fst pt then fst pt else bx2 b;
     by2 := if by2 b <? snd pt then snd pt else by2 b |}.

(** Modelled from the spec: [opentype.Path.prototype.getBoundingBox] belongs
    to the opentype.js library and is not in the sources.  The box
    "enclosing all anchor and control points in the path (control points of
    curves count toward the box)", and "a zero-area box for an empty
    path". *)
Definition specBoundingBox (cmds : list Command) : option BoundingBox :=
  match concat (map pointsOf cmds) with
  | [] => Some {| bx1 := 0; by1 := 0; bx2 := 0; by2 := 0 |}
  | (x, y) :: pts =>
      Some (fold_left addPoint pts {| bx1 := x; by1 := y; bx2 := x; by2 := y |})
  end.

(** The session in which opentype.js is loaded, on an engine whose
    [Math.tan] is [tanE]. *)
Definition loadedEnv (tanE : float -> float) : Env :=
  {| opentype := Some specBoundingBox; tan := tanE |}.

End Double.

(** * Properties *)

(** ** Copies *)

Lemma copyCommand_id (c : Command) : copyCommand c = c.
Proof. destruct c; reflexivity. Qed.

Lemma copyCommands_id (cmds : list Command) : copyCommands cmds = cmds.
Proof.
  unfold copyCommands. induction cmds as [|c cmds IH]; simpl.
  - reflexivity.
  - rewrite copyCommand_id, IH. reflexivity.
Qed.

(** ** Scanning for cubic commands *)

Lemma scanCurve_Some (cmds : list Command) (k n : nat) :
  Editor.scanCurve cmds k = Some n ->
  (k <= n)%nat /\ exists x1 y1 x2 y2 x y,
    cmds !! (n - k)%nat = Some (CmdC x1 y1 x2 y2 x y).
Proof.
  revert k. induction cmds as [|c cmds IH]; intros k H; simpl in H.
  - discriminate.
  - destruct (isC c) eqn:Hc.
    + injection H as <-. split; [lia|].
      replace (k - k)%nat with 0%nat by lia.
      destruct c; try discriminate. simpl. eauto 10.
    + apply IH in H as [Hle (x1 & y1 & x2 & y2 & x & y & Hl)].
      split; [lia|].
      replace (n - k)%nat with (S (n - S k)) by lia. simpl. eauto 10.
Qed.

(** [nextCurve] answers a later index, and the command there is a cubic. *)
Lemma nextCurve_Some (cmds : list Command) (i ni : nat) :
  Editor.nextCurve cmds i = Some ni ->
  (i < ni)%nat /\ exists x1 y1 x2 y2 x y,
    cmds !! ni = Some (CmdC x1 y1 x2 y2 x y).
Proof.
  unfold Editor.nextCurve. intros H.
  apply scanCurve_Some in H as [Hle (x1 & y1 & x2 & y2 & x & y & Hl)].
  split; [lia|].
  rewrite lookup_drop in Hl.
  replace (S i + (ni - S i))%nat with ni in Hl by lia. eauto 10.
Qed.

(** Writing at [i] or before does not change what [nextCurve] finds after
    [i]. *)
Lemma nextCurve_insert (cmds : list Command) (i j : nat) (c : Command) :
  (j <= i)%nat ->
  Editor.nextCurve (<[j := c]> cmds) i = Editor.nextCurve cmds i.
Proof.
  intros Hj. unfold Editor.nextCurve.
  rewrite drop_insert_lt by lia. reflexivity.
Qed.

(** [prevCurve] started on a cubic command answers that very command. *)
Lemma prevCurve_self (cmds : list Command) (i : nat) x1 y1 x2 y2 x y :
  cmds !! i = Some (CmdC x1 y1 x2 y2 x y) ->
  Editor.prevCurve cmds i = Ok (Some i).
Proof. intros H. destruct i; simpl; rewrite H; reflexivity. Qed.

(** ** C1: moving an anchor *)

(** A cubic command right after [i] is the one [nextCurve] finds. *)
Lemma nextCurve_adjacent (cmds : list Command) (i : nat) x1 y1 x2 y2 x y :
  cmds !! S i = Some (CmdC x1 y1 x2 y2 x y) ->
  Editor.nextCurve cmds i = Some (S i).
Proof.
  intros H. unfold Editor.nextCurve. rewrite (drop_S _ _ _ H). reflexivity.
Qed.

(** Exact arithmetic.  [setPoint] on an anchor reference [i] whose command
    carries the anchor [(ax, ay)] succeeds; with [(dx, dy) = (x - ax, y - ay)]
    the anchor ends at [(x, y)], the second control point of the edited
    command, when that command is a cubic, is translated by [(dx, dy)], and
    so is the first control point of the cubic command [nextCurve] finds
    after [i], wherever it is; no other coordinate changes. *)
Lemma setPoint_anchor_exact
    (cmds : list Command) (i : nat) (c : Command) (ax ay x y : R)
    (lock : bool) :
  cmds !! i = Some c ->
  xy c = Some (ax, ay) ->
  let dx := x - ax in
  let dy := y - ay in
  exists cmds' c',
    Editor.setPoint {| index := i; type := anchor |} x y lock cmds = Ok cmds'
    /\ length cmds' = length cmds
    /\ cmds' !! i = Some c'
    /\ xy c' = Some (x, y)
    /\ xy1 c' = xy1 c
    /\ (forall x2 y2, xy2 c = Some (x2, y2) ->
          xy2 c' = Some (x2 + dx, y2 + dy))
    /\ (forall ni, Editor.nextCurve cmds i = Some ni ->
          exists x1 y1 x2 y2 nx ny,
            cmds !! ni = Some (CmdC x1 y1 x2 y2 nx ny) /\
            cmds' !! ni = Some (CmdC (x1 + dx) (y1 + dy) x2 y2 nx ny))
    /\ (forall j, j <> i -> Editor.nextCurve cmds i <> Some j ->
          cmds' !! j = cmds !! j).
Proof.
  intros Hc Hxy dx dy.
  assert (Hi : (i < length cmds)%nat) by (apply lookup_lt_is_Some; eauto).
  set (moved :=
         match c with
         | CmdM _ _ => CmdM x y
         | CmdL _ _ => CmdL x y
         | CmdC x1 y1 x2 y2 _ _ => CmdC x1 y1 (x2 + dx) (y2 + dy) x y
         | CmdQ x1 y1 _ _ => CmdQ x1 y1 x y
         | CmdZ => CmdZ
         end).
  assert (Hmoved : xy moved = Some (x, y) /\ xy1 moved = xy1 c /\
            forall x2 y2, xy2 c = Some (x2, y2) ->
                          xy2 moved = Some (x2 + dx, y2 + dy)).
  { destruct c; simpl in *; try discriminate;
      (split; [reflexivity|split; [reflexivity|]]);
      intros ? ? [= <- <-]; reflexivity. }
  destruct Hmoved as (Hm0 & Hm1 & Hm2).
  assert (Hstep :
    Editor.setPoint {| index := i; type := anchor |} x y lock cmds =
    match Editor.nextCurve cmds i with
    | Some ni =>
        do n <- orThrow TypeError (<[i := moved]> cmds !! ni);
        do (nx1, ny1) <- orThrow NotModelled (xy1 n);
        do n' <- orThrow NotModelled (set_xy1 (nx1 + dx) (ny1 + dy) n);
        Ok (<[ni := n']> (<[i := moved]> cmds))
    | None => Ok (<[i := moved]> cmds)
    end).
  { unfold Editor.setPoint. simpl. rewrite Hc. simpl.
    rewrite Hxy. simpl.
    destruct c; simpl in *; try discriminate;
      injection Hxy as <- <-; rewrite nextCurve_insert by lia; reflexivity. }
  rewrite Hstep. clear Hstep.
  destruct (Editor.nextCurve cmds i) as [ni|] eqn:Hn.
  - destruct (nextCurve_Some _ _ _ Hn) as [Hlt (x1 & y1 & x2 & y2 & nx & ny & Hni)].
    assert (Hnil : (ni < length cmds)%nat) by (apply lookup_lt_is_Some; eauto).
    rewrite list_lookup_insert_ne by lia. rewrite Hni. simpl.
    exists (<[ni := CmdC (x1 + dx) (y1 + dy) x2 y2 nx ny]> (<[i := moved]> cmds)), moved.
    split; [reflexivity|].
    split; [rewrite !length_insert; reflexivity|].
    split.
    { rewrite list_lookup_insert_ne by lia.
      apply list_lookup_insert_eq; assumption. }
    split; [assumption|]. split; [assumption|]. split; [assumption|].
    split.
    { intros ni' [= <-]. exists x1, y1, x2, y2, nx, ny. split; [assumption|].
      apply list_lookup_insert_eq. rewrite length_insert. assumption. }
    intros j Hji Hjn.
    rewrite list_lookup_insert_ne by congruence.
    apply list_lookup_insert_ne. congruence.
  - exists (<[i := moved]> cmds), moved.
    split; [reflexivity|].
    split; [apply length_insert|].
    split; [apply list_lookup_insert_eq; assumption|].
    split; [assumption|]. split; [assumption|]. split; [assumption|].
    split; [intros ni [=]|].
    intros j Hji _. apply list_lookup_insert_ne. congruence.
Qed.

Lemma double_scanCurve_Some (cmds : list Double.Command) (k n : nat) :
  Double.scanCurve cmds k = Some n ->
  (k <= n)%nat /\ exists x1 y1 x2 y2 x y,
    cmds !! (n - k)%nat = Some (Double.CmdC x1 y1 x2 y2 x y).
Proof.
  revert k. induction cmds as [|c cmds IH]; intros k H; simpl in H.
  - discriminate.
  - destruct (Double.isC c) eqn:Hc.
    + injection H as <-. split; [lia|].
      replace (k - k)%nat with 0%nat by lia.
      destruct c; try discriminate. simpl. eauto 10.
    + apply IH in H as [Hle (x1 & y1 & x2 & y2 & x & y & Hl)].
      split; [lia|].
      replace (n - k)%nat with (S (n - S k)) by lia. simpl. eauto 10.
Qed.

Lemma double_nextCurve_Some (cmds : list Double.Command) (i ni : nat) :
  Double.nextCurve cmds i = Some ni ->
  (i < ni)%nat /\ exists x1 y1 x2 y2 x y,
    cmds !! ni = Some (Double.CmdC x1 y1 x2 y2 x y).
Proof.
  unfold Double.nextCurve. intros H.
  apply double_scanCurve_Some in H as [Hle (x1 & y1 & x2 & y2 & x & y & Hl)].
  split; [lia|].
  rewrite lookup_drop in Hl.
  replace (S i + (ni - S i))%nat with ni in Hl by lia. eauto 10.
Qed.

Lemma double_nextCurve_insert (cmds : list Double.Command) (i j : nat)
    (c : Double.Command) :
  (j <= i)%nat ->
  Double.nextCurve (<[j := c]> cmds) i = Double.nextCurve cmds i.
Proof.
  intros Hj. unfold Double.nextCurve.
  rewrite drop_insert_lt by lia. reflexivity.
Qed.

Lemma double_nextCurve_adjacent (cmds : list Double.Command) (i : nat)
    x1 y1 x2 y2 x y :
  cmds !! S i = Some (Double.CmdC x1 y1 x2 y2 x y) ->
  Double.nextCurve cmds i = Some (S i).
Proof.
  intros H. unfold Double.nextCurve. rewrite (drop_S _ _ _ H). reflexivity.
Qed.

(** The anchor branch in doubles: what it writes at the edited command and
    at the command after it. *)
Lemma double_setPointAnchor_adjacent
    (cmds : list Double.Command) (i : nat) (c : Double.Command)
    (ax ay x y : float) :
  cmds !! i = Some c ->
  Double.xy c = Some (ax, ay) ->
  exists cmds' c',
    Double.setPointAnchor i x y cmds = Ok cmds'
    /\ cmds' !! i = Some c'
    /\ Double.xy c' = Some (x, y)
    /\ (forall x2 y2, Double.xy2 c = Some (x2, y2) ->
          Double.xy2 c' = Some (x2 + (x - ax), y2 + (y - ay))%float)
    /\ (forall a1 b1 a2 b2 a b,
          cmds !! S i = Some (Double.CmdC a1 b1 a2 b2 a b) ->
          cmds' !! S i =
          Some (Double.CmdC (a1 + (x - ax)) (b1 + (y - ay)) a2 b2 a b)%float).
Proof.
  intros Hc Hxy.
  assert (Hi : (i < length cmds)%nat) by (apply lookup_lt_is_Some; eauto).
  set (moved :=
         match c with
         | Double.CmdM _ _ => Double.CmdM x y
         | Double.CmdL _ _ => Double.CmdL x y
         | Double.CmdC x1 y1 x2 y2 _ _ =>
             Double.CmdC x1 y1 (x2 + (x - ax)) (y2 + (y - ay)) x y
         | Double.CmdQ x1 y1 _ _ => Double.CmdQ x1 y1 x y
         | Double.CmdZ => Double.CmdZ
         end%float).
  assert (Hmoved : Double.xy moved = Some (x, y) /\
            forall x2 y2, Double.xy2 c = Some (x2, y2) ->
                          Double.xy2 moved
                          = Some (x2 + (x - ax), y2 + (y - ay))%float).
  { destruct c; simpl in *; try discriminate;
      (split; [reflexivity|]); intros ? ? [= <- <-]; reflexivity. }
  destruct Hmoved as (Hm0 & Hm2).
  assert (Hstep :
    Double.setPointAnchor i x y cmds =
    match Double.nextCurve cmds i with
    | Some ni =>
        do n <- orThrow TypeError (<[i := moved]> cmds !! ni);
        match n with
        | Double.CmdC x1 y1 x2 y2 nx ny =>
            Ok (<[ni := Double.CmdC (x1 + (x - ax)) (y1 + (y - ay))
                          x2 y2 nx ny]> (<[i := moved]> cmds))
        | _ => Err NotModelled
        end
    | None => Ok (<[i := moved]> cmds)
    end%float).
  { unfold Double.setPointAnchor. rewrite Hc. simpl. rewrite Hxy. simpl.
    rewrite double_nextCurve_insert by lia. reflexivity. }
  rewrite Hstep. clear Hstep.
  destruct (Double.nextCurve cmds i) as [ni|] eqn:Hn.
  - destruct (double_nextCurve_Some _ _ _ Hn)
      as [Hlt (x1 & y1 & x2 & y2 & nx & ny & Hni)].
    assert (Hnil : (ni < length cmds)%nat) by (apply lookup_lt_is_Some; eauto).
    rewrite list_lookup_insert_ne by lia. rewrite Hni. simpl.
    eexists _, moved. split; [reflexivity|].
    split.
    { rewrite list_lookup_insert_ne by lia.
      apply list_lookup_insert_eq; assumption. }
    split; [assumption|]. split; [assumption|].
    intros a1 b1 a2 b2 a b Hnext.
    rewrite (double_nextCurve_adjacent _ _ _ _ _ _ _ _ Hnext) in Hn.
    injection Hn as <-. rewrite Hnext in Hni.
    injection Hni as <- <- <- <- <- <-.
    apply list_lookup_insert_eq. rewrite length_insert. assumption.
  - eexists _, moved. split; [reflexivity|].
    split; [apply list_lookup_insert_eq; assumption|].
    split; [assumption|]. split; [assumption|].
    intros a1 b1 a2 b2 a b Hnext.
    rewrite (double_nextCurve_adjacent _ _ _ _ _ _ _ _ Hnext) in Hn.
    discriminate.
Qed.

(** C1, as amended.  Moving an anchor with [setPoint] to [(x, y)] puts the
    anchor there and adds the delta the call computes,
    [(dx, dy) = (x - c.x, y - c.y)], to the second control point of the
    edited command when that command is a cubic and to the first control
    point of the command right after it when that one is a cubic: the
    control points next to the anchor on cubic segments.  The first half is
    the statement in exact arithmetic, where both control points move by
    exactly the delta of the anchor; the second half is the one in doubles,
    where the delta and the two sums are rounded. *)
Theorem setPoint_anchor_moves_adjacent_controls :
  (forall (cmds : list Command) (i : nat) (c : Command) (ax ay x y : R)
          (lock : bool),
      cmds !! i = Some c ->
      xy c = Some (ax, ay) ->
      exists cmds' c',
        Editor.setPoint {| index := i; type := anchor |} x y lock cmds
        = Ok cmds'
        /\ cmds' !! i = Some c'
        /\ xy c' = Some (x, y)
        /\ (forall x2 y2, xy2 c = Some (x2, y2) ->
              xy2 c' = Some (x2 + (x - ax), y2 + (y - ay)))
        /\ (forall a1 b1 a2 b2 a b,
              cmds !! S i = Some (CmdC a1 b1 a2 b2 a b) ->
              cmds' !! S i =
              Some (CmdC (a1 + (x - ax)) (b1 + (y - ay)) a2 b2 a b)))
  /\
  (forall (cmds : list Double.Command) (i : nat) (c : Double.Command)
          (ax ay x y : float),
      cmds !! i = Some c ->
      Double.xy c = Some (ax, ay) ->
      exists cmds' c',
        Double.setPointAnchor i x y cmds = Ok cmds'
        /\ cmds' !! i = Some c'
        /\ Double.xy c' = Some (x, y)
        /\ (forall x2 y2, Double.xy2 c = Some (x2, y2) ->
              Double.xy2 c' = Some (x2 + (x - ax), y2 + (y - ay))%float)
        /\ (forall a1 b1 a2 b2 a b,
              cmds !! S i = Some (Double.CmdC a1 b1 a2 b2 a b) ->
              cmds' !! S i =
              Some (Double.CmdC (a1 + (x - ax)) (b1 + (y - ay))
                      a2 b2 a b)%float)).
Proof.
  split.
  - intros cmds i c ax ay x y lock Hc Hxy.
    destruct (setPoint_anchor_exact cmds i c ax ay x y lock Hc Hxy)
      as (cmds' & c' & Hset & _ & Hc' & Hxy' & _ & Hown & Hnext & _).
    exists cmds', c'. split; [exact Hset|]. split; [exact Hc'|].
    split; [exact Hxy'|]. split; [exact Hown|].
    intros a1 b1 a2 b2 a b Hn.
    destruct (Hnext (S i) (nextCurve_adjacent _ _ _ _ _ _ _ _ Hn))
      as (x1 & y1 & x2 & y2 & nx & ny & Hold & Hnew).
    rewrite Hn in Hold. injection Hold as <- <- <- <- <- <-. exact Hnew.
  - exact double_setPointAnchor_adjacent.
Qed.

(** C1 as amended, on a path of two curves: the anchor between them goes
    from [(30, 0)] to [(35, 5)], and the control points on either side of
    it go with it; the same in doubles. *)
Lemma setPoint_anchor_moves_adjacent_controls_witness :
  (let cmds := [CmdM 0 0; CmdC 10 0 20 0 30 0; CmdC 40 0 50 0 60 0] in
   exists cmds' c',
     Editor.setPoint {| index := 1; type := anchor |} 35 5 false cmds = Ok cmds'
     /\ cmds' !! 1%nat = Some c'
     /\ xy c' = Some (35, 5)
     /\ xy2 c' = Some (20 + (35 - 30), 0 + (5 - 0))
     /\ cmds' !! 2%nat = Some (CmdC (40 + (35 - 30)) (0 + (5 - 0)) 50 0 60 0))
  /\
  (let cmds := [Double.CmdM 0 0; Double.CmdC 10 0 20 0 30 0;
                Double.CmdC 40 0 50 0 60 0] in
   exists cmds' c',
     Double.setPointAnchor 1 35 5 cmds = Ok cmds'
     /\ cmds' !! 1%nat = Some c'
     /\ Double.xy c' = Some (35, 5)
     /\ Double.xy2 c' = Some (20 + (35 - 30), 0 + (5 - 0))
     /\ cmds' !! 2%nat =
        Some (Double.CmdC (40 + (35 - 30)) (0 + (5 - 0)) 50 0 60 0))%float.
Proof.
  split.
  - intros cmds.
    destruct (proj1 setPoint_anchor_moves_adjacent_controls
                cmds 1%nat (CmdC 10 0 20 0 30 0) 30 0 35 5 false
                eq_refl eq_refl)
      as (cmds' & c' & Hset & Hc' & Hxy & Hown & Hnext).
    exists cmds', c'.
    split; [exact Hset|]. split; [exact Hc'|]. split; [exact Hxy|].
    split; [apply Hown; reflexivity|].
    apply (Hnext 40 0 50 0 60 0). reflexivity.
  - intros cmds.
    destruct (proj2 setPoint_anchor_moves_adjacent_controls
                cmds 1%nat (Double.CmdC 10 0 20 0 30 0)%float
                30%float 0%float 35%float 5%float eq_refl eq_refl)
      as (cmds' & c' & Hset & Hc' & Hxy & Hown & Hnext).
    exists cmds', c'.
    split; [exact Hset|]. split; [exact Hc'|]. split; [exact Hxy|].
    split; [apply Hown; reflexivity|].
    apply (Hnext 40 0 50 0 60 0)%float. reflexivity.
Defined.

(** C1 as stated fails three times.  On [M L C], moving the first anchor
    moves the first control point of the curve, which starts at the end of
    the line and not at the moved anchor: neither end of that curve moves,
    and its shape changes.  On [M Q Q], moving the anchor between the two
    curves moves no control point: the control point [(30, 10)] of the
    curve that starts at the anchor stays.  And in doubles a control point
    does not move by exactly the delta of its anchor: the anchor goes from
    0.1 to 0.3, a step of 0.19999999999999998, and the control point from
    0.2 to 0.4, a step of 0.2 (both differences are exact). *)
Lemma setPoint_anchor_counterexample :
  (Editor.setPoint {| index := 0; type := anchor |} 5 5 false
     [CmdM 0 0; CmdL 10 0; CmdC 20 0 30 10 40 10]
   = Ok [CmdM 5 5; CmdL 10 0; CmdC 25 5 30 10 40 10])
  /\
  (Editor.setPoint {| index := 1; type := anchor |} 25 5 false
     [CmdM 0 0; CmdQ 10 10 20 0; CmdQ 30 10 40 0]
   = Ok [CmdM 0 0; CmdQ 10 10 25 5; CmdQ 30 10 40 0])
  /\
  (Double.setPointAnchor 1 0.3 0
     [Double.CmdM 0 0; Double.CmdC 0 0 0.2 0 0.1 0]
   = Ok [Double.CmdM 0 0; Double.CmdC 0 0 0.4 0 0.3 0]
   /\ 0.3 - 0.1 = 0.19999999999999998
   /\ 0.4 - 0.2 = 0.2
   /\ (0.2 =? 0.19999999999999998) = false)%float.
Proof.
  split; [|split].
  - unfold Editor.setPoint. cbn. repeat (f_equal; try lra).
  - unfold Editor.setPoint. cbn. reflexivity.
  - repeat split; vm_compute; reflexivity.
Qed.

(** ** Collinear lock *)

Lemma hypot_nonneg (dx dy : R) : 0 <= hypot dx dy.
Proof. apply sqrt_pos. Qed.

Lemma hypot_sqr (dx dy : R) : hypot dx dy * hypot dx dy = dx * dx + dy * dy.
Proof. unfold hypot. apply sqrt_sqrt. nra. Qed.

(** The norm is zero only for the zero vector. *)
Lemma hypot_eq_0 (dx dy : R) : hypot dx dy = 0 -> dx = 0 /\ dy = 0.
Proof.
  intros H. pose proof (hypot_sqr dx dy) as Hs. rewrite H in Hs.
  split; nra.
Qed.

Lemma hypot_0_0 : hypot 0 0 = 0.
Proof.
  unfold hypot. replace (0 * 0 + 0 * 0) with 0 by ring. apply sqrt_0.
Qed.

(** A norm is known once a non-negative root of its square is. *)
Lemma hypot_root (dx dy r : R) :
  0 <= r -> dx * dx + dy * dy = r * r -> hypot dx dy = r.
Proof. intros Hr H. unfold hypot. rewrite H. apply sqrt_square. exact Hr. Qed.

(** The length the lock divides by is never zero. *)
Lemma lock_length_nonzero (dx dy : R) : jsor (hypot dx dy) 1 <> 0.
Proof. unfold jsor. destruct (Req_dec_T (hypot dx dy) 0); lra. Qed.

Lemma jsdiv_lock_length (a dx dy : R) :
  jsdiv a (jsor (hypot dx dy) 1) = Ok (a / jsor (hypot dx dy) 1).
Proof.
  unfold jsdiv. destruct (Req_dec_T (jsor (hypot dx dy) 1) 0) as [E|E].
  - destruct (lock_length_nonzero _ _ E).
  - reflexivity.
Qed.

(** What [mirrorOpposite] writes when the opposite control point is the
    first control point of a cubic command. *)
Lemma mirrorOpposite_c1 (x y : R) (ai oi : nat) (cmds : list Command)
    (a : Command) (ax ay a1 b1 a2 b2 ox oy : R) :
  cmds !! ai = Some a ->
  xy a = Some (ax, ay) ->
  cmds !! oi = Some (CmdC a1 b1 a2 b2 ox oy) ->
  let len := jsor (hypot (x - ax) (y - ay)) 1 in
  let ol := dist ax ay a1 b1 in
  Editor.mirrorOpposite x y ai oi c1 cmds =
  Ok (<[oi := CmdC (ax - (x - ax) / len * ol) (ay - (y - ay) / len * ol)
                   a2 b2 ox oy]> cmds).
Proof.
  intros Ha Hxy Ho len ol. unfold Editor.mirrorOpposite.
  rewrite Ha, Ho. simpl. rewrite Hxy. simpl.
  rewrite !jsdiv_lock_length. reflexivity.
Qed.

(** The same for the second control point. *)
Lemma mirrorOpposite_c2 (x y : R) (ai oi : nat) (cmds : list Command)
    (a : Command) (ax ay a1 b1 a2 b2 ox oy : R) :
  cmds !! ai = Some a ->
  xy a = Some (ax, ay) ->
  cmds !! oi = Some (CmdC a1 b1 a2 b2 ox oy) ->
  let len := jsor (hypot (x - ax) (y - ay)) 1 in
  let ol := dist ax ay a2 b2 in
  Editor.mirrorOpposite x y ai oi c2 cmds =
  Ok (<[oi := CmdC a1 b1 (ax - (x - ax) / len * ol)
                   (ay - (y - ay) / len * ol) ox oy]> cmds).
Proof.
  intros Ha Hxy Ho len ol. unfold Editor.mirrorOpposite.
  rewrite Ha, Ho. simpl. rewrite Hxy. simpl.
  rewrite !jsdiv_lock_length. reflexivity.
Qed.

(** [setPoint] with the lock on the second control point of the cubic
    command [i], when a cubic command [ni] follows. *)
Lemma setPoint_c2_lock (cmds : list Command) (i ni : nat)
    (x1 y1 x2 y2 ax ay a1 b1 a2 b2 a b x y : R) :
  cmds !! i = Some (CmdC x1 y1 x2 y2 ax ay) ->
  Editor.nextCurve cmds i = Some ni ->
  cmds !! ni = Some (CmdC a1 b1 a2 b2 a b) ->
  let len := jsor (hypot (x - ax) (y - ay)) 1 in
  let ol := dist ax ay a1 b1 in
  Editor.setPoint {| index := i; type := c2 |} x y true cmds =
  Ok (<[ni := CmdC (ax - (x - ax) / len * ol) (ay - (y - ay) / len * ol)
                   a2 b2 a b]>
        (<[i := CmdC x1 y1 x y ax ay]> cmds)).
Proof.
  intros Hc Hn Hni len ol.
  assert (Hi : (i < length cmds)%nat) by (apply lookup_lt_is_Some; eauto).
  destruct (nextCurve_Some _ _ _ Hn) as [Hlt _].
  unfold Editor.setPoint, Editor.lockTarget. simpl. rewrite Hc. simpl.
  rewrite nextCurve_insert by lia. rewrite Hn. simpl.
  apply mirrorOpposite_c1 with (a := CmdC x1 y1 x y ax ay).
  - apply list_lookup_insert_eq. exact Hi.
  - reflexivity.
  - rewrite list_lookup_insert_ne by lia. exact Hni.
Qed.

(** [setPoint] with the lock on the first control point of the cubic
    command [i]: [prevCurve] answers [i] itself, so the anchor is the end
    point of the same command and the opposite control point its own second
    control point. *)
Lemma setPoint_c1_lock (cmds : list Command) (i : nat)
    (x1 y1 x2 y2 ax ay x y : R) :
  cmds !! i = Some (CmdC x1 y1 x2 y2 ax ay) ->
  let len := jsor (hypot (x - ax) (y - ay)) 1 in
  let ol := dist ax ay x2 y2 in
  Editor.setPoint {| index := i; type := c1 |} x y true cmds =
  Ok (<[i := CmdC x y (ax - (x - ax) / len * ol) (ay - (y - ay) / len * ol)
                  ax ay]> cmds).
Proof.
  intros Hc len ol.
  assert (Hi : (i < length cmds)%nat) by (apply lookup_lt_is_Some; eauto).
  assert (Hc' : <[i := CmdC x y x2 y2 ax ay]> cmds !! i
                = Some (CmdC x y x2 y2 ax ay))
    by (apply list_lookup_insert_eq; exact Hi).
  unfold Editor.setPoint, Editor.lockTarget. simpl. rewrite Hc. simpl.
  rewrite (prevCurve_self _ _ _ _ _ _ _ _ Hc'). simpl.
  rewrite (mirrorOpposite_c2 x y i i _ _ ax ay x y x2 y2 ax ay Hc' eq_refl Hc').
  rewrite list_insert_insert_eq. reflexivity.
Qed.

(** A point put at [ol] times the unit vector of [(dx, dy)] away from
    [(ax, ay)] is at distance [ol] from it. *)
Lemma mirror_keeps_distance (ax ay dx dy ol : R) :
  0 <= ol ->
  hypot dx dy <> 0 ->
  dist ax ay (ax - dx / hypot dx dy * ol) (ay - dy / hypot dx dy * ol) = ol.
Proof.
  intros Hol Hlen. unfold dist. apply hypot_root; [exact Hol|].
  assert (Hunit : dx / hypot dx dy * (dx / hypot dx dy)
                  + dy / hypot dx dy * (dy / hypot dx dy) = 1).
  { transitivity ((dx * dx + dy * dy) / (hypot dx dy * hypot dx dy)).
    - field. exact Hlen.
    - rewrite hypot_sqr. field.
      rewrite <- hypot_sqr. intros E. apply Hlen.
      destruct (Rmult_integral _ _ E); assumption. }
  transitivity ((dx / hypot dx dy * (dx / hypot dx dy)
                 + dy / hypot dx dy * (dy / hypot dx dy)) * (ol * ol)).
  - ring.
  - rewrite Hunit. ring.
Qed.

(** C2, as amended.  In exact arithmetic, with the lock on: dragging the
    second control point of the cubic command [i] to [(x, y)], a point
    other than the end anchor [(ax, ay)] of that command, when the command
    right after it is a cubic too, the adjacent curve segment, puts the
    first control point of that next command on the ray from the shared
    anchor away from [(x, y)], at the distance it had from the anchor
    before the drag.  Nothing else of the two commands changes. *)
Theorem setPoint_c2_lock_mirrors_next_c1
    (cmds : list Command) (i : nat)
    (x1 y1 x2 y2 ax ay a1 b1 a2 b2 a b x y : R) :
  cmds !! i = Some (CmdC x1 y1 x2 y2 ax ay) ->
  cmds !! S i = Some (CmdC a1 b1 a2 b2 a b) ->
  (x, y) <> (ax, ay) ->
  exists nx ny,
    Editor.setPoint {| index := i; type := c2 |} x y true cmds =
      Ok (<[S i := CmdC nx ny a2 b2 a b]> (<[i := CmdC x1 y1 x y ax ay]> cmds))
    /\ dist ax ay nx ny = dist ax ay a1 b1
    /\ exists k, 0 <= k /\ nx - ax = - k * (x - ax) /\ ny - ay = - k * (y - ay).
Proof.
  intros Hc Hni Hne.
  pose proof (nextCurve_adjacent _ _ _ _ _ _ _ _ Hni) as Hn.
  assert (Hlen : hypot (x - ax) (y - ay) <> 0).
  { intros E. apply hypot_eq_0 in E as [Ex Ey]. apply Hne.
    f_equal; lra. }
  assert (Hor : jsor (hypot (x - ax) (y - ay)) 1 = hypot (x - ax) (y - ay)).
  { unfold jsor. destruct (Req_dec_T (hypot (x - ax) (y - ay)) 0);
      [contradiction|reflexivity]. }
  pose proof (setPoint_c2_lock cmds i (S i) x1 y1 x2 y2 ax ay a1 b1 a2 b2 a b
                x y Hc Hn Hni) as Hset.
  simpl in Hset. rewrite Hor in Hset.
  eexists _, _. split; [exact Hset|]. split.
  - apply mirror_keeps_distance; [apply hypot_nonneg|exact Hlen].
  - exists (dist ax ay a1 b1 / hypot (x - ax) (y - ay)). split.
    + apply Rmult_le_pos; [apply hypot_nonneg|].
      apply Rlt_le, Rinv_0_lt_compat.
      pose proof (hypot_nonneg (x - ax) (y - ay)). lra.
    + split; field; exact Hlen.
Qed.

(** C2, the amended statement at a concrete drag: the second control point
    of the first curve goes to [(30, 10)], above the anchor [(30, 0)]; the
    first control point of the next curve, [(40, 0)], lands below it at
    the same distance. *)
Lemma setPoint_c2_lock_mirrors_next_c1_witness :
  let cmds := [CmdM 0 0; CmdC 10 0 20 0 30 0; CmdC 40 0 50 0 60 0] in
  exists nx ny,
    Editor.setPoint {| index := 1; type := c2 |} 30 10 true cmds =
      Ok (<[2%nat := CmdC nx ny 50 0 60 0]>
            (<[1%nat := CmdC 10 0 30 10 30 0]> cmds))
    /\ dist 30 0 nx ny = dist 30 0 40 0
    /\ exists k, 0 <= k /\ nx - 30 = - k * (30 - 30) /\ ny - 0 = - k * (10 - 0).
Proof.
  intros cmds.
  apply (setPoint_c2_lock_mirrors_next_c1 cmds 1
           10 0 20 0 30 0 40 0 50 0 60 0 30 10).
  - reflexivity.
  - reflexivity.
  - intros E. apply (f_equal snd) in E. simpl in E. lra.
Defined.

(** C2 as stated fails twice on one path.  Dragging the first control point
    of the second curve with the lock on leaves the second control point
    [(20, 0)] of the curve before it where it was, not opposite the dragged
    point across the shared anchor [(30, 0)]: the second control point of
    the dragged curve itself is moved instead.  And dragging the second
    control point of the first curve onto its anchor [(30, 0)] puts the
    first control point of the next curve on that anchor, not at its
    distance 10 from it. *)
Lemma collinear_lock_counterexample :
  let cmds := [CmdM 0 0; CmdC 10 0 20 0 30 0; CmdC 40 0 50 0 60 0] in
  (Editor.setPoint {| index := 2; type := c1 |} 57 4 true cmds =
     Ok [CmdM 0 0; CmdC 10 0 20 0 30 0; CmdC 57 4 66 (-8) 60 0]
   /\ ~ (exists k, 0 <= k /\ 20 - 30 = - k * (57 - 30) /\ 0 - 0 = - k * (4 - 0)))
  /\
  (Editor.setPoint {| index := 1; type := c2 |} 30 0 true cmds =
     Ok [CmdM 0 0; CmdC 10 0 30 0 30 0; CmdC 30 0 50 0 60 0]
   /\ dist 30 0 30 0 <> dist 30 0 40 0).
Proof.
  intros cmds. split; split.
  - rewrite (setPoint_c1_lock cmds 2 40 0 50 0 60 0 57 4 eq_refl).
    rewrite (hypot_root (57 - 60) (4 - 0) 5) by first [lra | ring].
    unfold dist. rewrite (hypot_root (50 - 60) (0 - 0) 10) by first [lra | ring].
    unfold jsor. destruct (Req_dec_T 5 0) as [E|_]; [lra|].
    simpl. repeat (f_equal; try lra).
  - intros (k & Hk & H1 & H2). lra.
  - rewrite (setPoint_c2_lock cmds 1 2 10 0 20 0 30 0 40 0 50 0 60 0 30 0
               eq_refl eq_refl eq_refl).
    replace (30 - 30) with 0 by lra. replace (0 - 0) with 0 by lra.
    rewrite hypot_0_0.
    unfold jsor. destruct (Req_dec_T 0 0) as [_|E]; [|lra].
    simpl. repeat (f_equal; try lra).
  - unfold dist. rewrite (hypot_root (30 - 30) (0 - 0) 0) by first [lra | ring].
    rewrite (hypot_root (40 - 30) (0 - 0) 10) by first [lra | ring]. lra.
Qed.



(** ** History *)

Lemma newPath_commands (p : Path) : newPath (copyCommands (commands p)) = p.
Proof. rewrite copyCommands_id. destruct p. reflexivity. Qed.

Lemma pop_snoc {A : Type} (l : list A) (x : A) : pop (l ++ [x]) = (Some x, l).
Proof. unfold pop. rewrite last_snoc, removelast_last. reflexivity. Qed.

(** A non-empty stack has a top. *)
Lemma stack_top {A : Type} (l : list A) :
  (0 < length l)%nat -> exists rest top, l = rest ++ [top].
Proof.
  intros H. destruct (last l) as [top|] eqn:Hl.
  - apply last_Some in Hl as [rest ->]. eauto.
  - apply last_None in Hl. subst l. simpl in H. lia.
Qed.

Lemma undo_baseline (m : GlyphModel) :
  (length (undoStack m) <= 1)%nat -> undo m = m.
Proof.
  intros H. unfold undo.
  destruct (Nat.ltb_spec 1 (length (undoStack m))); [lia|reflexivity].
Qed.

Lemma undo_pops (m : GlyphModel) (past : list Snapshot) (s t : Snapshot) :
  undoStack m = past ++ [s; t] ->
  undo m =
  {| originalPath := originalPath m;
     path := s_path s;
     char := char m;
     params := s_params s;
     undoStack := past ++ [s];
     redoStack := redoStack m ++ [t];
     maxHist := maxHist m |}.
Proof.
  intros H. unfold undo. rewrite H.
  replace (past ++ [s; t]) with ((past ++ [s]) ++ [t])
    by (rewrite <- app_assoc; reflexivity).
  rewrite pop_snoc.
  destruct (Nat.ltb_spec 1 (length ((past ++ [s]) ++ [t]))) as [_|Hlen].
  - cbn [undoStack from_option]. rewrite last_snoc. unfold _load.
    cbn [originalPath char redoStack maxHist undoStack].
    rewrite newPath_commands. reflexivity.
  - rewrite !length_app in Hlen. simpl in Hlen. lia.
Qed.

Lemma redo_tip (m : GlyphModel) : redoStack m = [] -> redo m = m.
Proof. intros H. unfold redo. rewrite H. reflexivity. Qed.

Lemma redo_pops (m : GlyphModel) (future : list Snapshot) (s : Snapshot) :
  redoStack m = future ++ [s] ->
  redo m =
  {| originalPath := originalPath m;
     path := s_path s;
     char := char m;
     params := s_params s;
     undoStack := undoStack m ++ [s];
     redoStack := future;
     maxHist := maxHist m |}.
Proof.
  intros H. unfold redo. rewrite H, pop_snoc.
  destruct (Nat.ltb_spec 0 (length (future ++ [s]))) as [_|Hlen].
  - unfold _load. cbn [originalPath char redoStack maxHist undoStack from_option].
    rewrite newPath_commands. reflexivity.
  - rewrite length_app in Hlen. simpl in Hlen. lia.
Qed.

(** A stack of two entries or more has a top and an entry below it. *)
Lemma stack_top_two {A : Type} (l : list A) :
  (1 < length l)%nat -> exists past s t, l = past ++ [s; t].
Proof.
  intros Hlen.
  destruct (stack_top l) as (rest & t & ->); [lia|].
  destruct (stack_top rest) as (past & s & ->).
  { rewrite length_app in Hlen. simpl in Hlen. lia. }
  exists past, s, t. rewrite <- app_assoc. reflexivity.
Qed.

(** C3.  [undo] changes nothing while the undo stack has at most one entry;
    otherwise the stack is [past ++ [s; t]], its top [t] moves to the top of
    the redo stack and path and params are restored from [s], the new top.
    [redo] changes nothing while the redo stack is empty; otherwise the
    stack is [future ++ [s]], [s] moves back to the top of the undo stack
    and path and params are restored from it. *)
Theorem undo_redo_behaviour (m : GlyphModel) :
  ((length (undoStack m) <= 1)%nat -> undo m = m)
  /\ ((1 < length (undoStack m))%nat ->
        exists past s t,
          undoStack m = past ++ [s; t] /\
          undo m =
          {| originalPath := originalPath m;
             path := s_path s;
             char := char m;
             params := s_params s;
             undoStack := past ++ [s];
             redoStack := redoStack m ++ [t];
             maxHist := maxHist m |})
  /\ (redoStack m = [] -> redo m = m)
  /\ (redoStack m <> [] ->
        exists future s,
          redoStack m = future ++ [s] /\
          redo m =
          {| originalPath := originalPath m;
             path := s_path s;
             char := char m;
             params := s_params s;
             undoStack := undoStack m ++ [s];
             redoStack := future;
             maxHist := maxHist m |}).
Proof.
  split; [apply undo_baseline|]. split; [|split; [apply redo_tip|]].
  - intros Hlen.
    destruct (stack_top_two (undoStack m) Hlen) as (past & s & t & Hst).
    exists past, s, t. split; [exact Hst|]. apply undo_pops. exact Hst.
  - intros Hne.
    destruct (stack_top (redoStack m)) as (future & s & Hr).
    { destruct (redoStack m); [congruence|simpl; lia]. }
    exists future, s. split; [exact Hr|]. apply redo_pops. exact Hr.
Qed.

(** C3 on a model with three commits, one of them undone. *)
Lemma undo_redo_behaviour_witness :
  let m := undo (saveState (saveState fallbackModel)) in
  exists past s t,
    undoStack m = past ++ [s; t] /\
    undoStack (undo m) = past ++ [s] /\
    redoStack (undo m) = redoStack m ++ [t] /\
    path (undo m) = s_path s /\
    exists future r,
      redoStack m = future ++ [r] /\
      undoStack (redo m) = undoStack m ++ [r] /\
      path (redo m) = s_path r.
Proof.
  intros m.
  destruct (undo_redo_behaviour m) as (_ & Hundo & _ & Hredo).
  destruct Hundo as (past & s & t & Hst & Hu).
  { unfold m. vm_compute. lia. }
  destruct Hredo as (future & r & Hr & Hre).
  { unfold m. vm_compute. discriminate. }
  exists past, s, t. rewrite Hu. cbn [undoStack redoStack path].
  repeat split; try assumption.
  exists future, r. rewrite Hre. cbn [undoStack redoStack path].
  repeat split; assumption.
Defined.

(** ** The history bound *)

Lemma saveState_undoStack (m : GlyphModel) :
  undoStack (saveState m) =
  if (maxHist m <? length (undoStack m ++ [snapshotOf m]))%nat
  then tail (undoStack m ++ [snapshotOf m])
  else undoStack m ++ [snapshotOf m].
Proof. reflexivity. Qed.

Lemma tail_snoc {A : Type} (l : list A) (x : A) :
  l <> [] -> tail (l ++ [x]) = tail l ++ [x].
Proof. destruct l; [congruence|reflexivity]. Qed.

Lemma length_tail {A : Type} (l : list A) :
  length (tail l) = pred (length l).
Proof. destruct l; reflexivity. Qed.

(** A commit keeps the bound whatever the redo stack held. *)
Lemma saveState_bounded (m : GlyphModel) :
  maxHist m = 60%nat ->
  (length (undoStack m) <= 60)%nat ->
  historyBounded (saveState m).
Proof.
  intros Hmax Hlen. split; [exact Hmax|].
  rewrite saveState_undoStack. cbn [redoStack saveState]. rewrite Hmax.
  destruct (Nat.ltb_spec 60 (length (undoStack m ++ [snapshotOf m]))) as [H|H];
    [rewrite length_tail|]; rewrite length_app in *; simpl in *; lia.
Qed.

Lemma historyBounded_undo_le (m : GlyphModel) :
  historyBounded m -> maxHist m = 60%nat /\ (length (undoStack m) <= 60)%nat.
Proof. intros [Hmax Hlen]. split; [exact Hmax|lia]. Qed.

Lemma reset_bounded (m : GlyphModel) :
  maxHist m = 60%nat -> historyBounded (reset m).
Proof.
  intros Hmax. unfold reset. apply saveState_bounded; cbn; [exact Hmax|lia].
Qed.

Lemma undo_bounded (m : GlyphModel) : historyBounded m -> historyBounded (undo m).
Proof.
  intros [Hmax Hlen].
  destruct (Nat.le_gt_cases (length (undoStack m)) 1) as [H|H].
  - rewrite undo_baseline by exact H. split; assumption.
  - destruct (stack_top_two (undoStack m) H) as (past & s & t & Hst).
    rewrite (undo_pops m past s t Hst).
    split; [exact Hmax|]. cbn [undoStack redoStack].
    rewrite Hst in Hlen. rewrite !length_app in *. simpl in *. lia.
Qed.

Lemma redo_bounded (m : GlyphModel) : historyBounded m -> historyBounded (redo m).
Proof.
  intros [Hmax Hlen].
  destruct (redoStack m) as [|r rs] eqn:Hr.
  - rewrite redo_tip by exact Hr. split; [exact Hmax|]. rewrite Hr. exact Hlen.
  - destruct (stack_top (redoStack m)) as (future & s & Hfs);
      [rewrite Hr; simpl; lia|].
    rewrite (redo_pops m future s Hfs).
    split; [exact Hmax|]. cbn [undoStack redoStack].
    rewrite <- Hr, Hfs in Hlen. rewrite !length_app in *. simpl in *. lia.
Qed.

(** Every operation of a session keeps the bound. *)
Lemma step_bounded (G : Generator) (m m' : GlyphModel) :
  step G m m' -> historyBounded m -> historyBounded m'.
Proof.
  intros Hstep Hb. pose proof (historyBounded_undo_le m Hb) as [Hmax Hlen].
  destruct Hstep.
  - unfold generate. destruct ch as [[|a rest]|]; cbn [snd]; try exact Hb.
    destruct (font env), (opentype env); cbn [snd];
      try (apply reset_bounded; exact Hmax); exact Hb.
  - apply reset_bounded. exact Hmax.
  - unfold paramChange, applyParams. apply saveState_bounded; assumption.
  - unfold randomize.
    destruct (randomizeCommands G (commands (path m)) (randomSeed G seed)).
    cbn [fst]. apply saveState_bounded; assumption.
  - apply undo_bounded. exact Hb.
  - apply redo_bounded. exact Hb.
  - exact Hb.
  - apply saveState_bounded; assumption.
Qed.

Lemma reachable_bounded (G : Generator) (m : GlyphModel) :
  reachable G m -> historyBounded m.
Proof.
  induction 1 as [|m m' _ IH Hstep].
  - split; [reflexivity|simpl; lia].
  - exact (step_bounded G m m' Hstep IH).
Qed.

(** C7.  In every model a session reaches the undo stack holds at most 60
    entries.  [saveState] there pushes the snapshot of the current path and
    params, a copy that later edits of the working path do not touch: it
    goes on top of the stack as it was while that held fewer than 60
    entries, and on top of the stack without its oldest entry when it held
    60; the redo stack is emptied, and the stack still holds at most 60. *)
Theorem history_bounded_by_60 (G : Generator) (m : GlyphModel) :
  reachable G m ->
  (length (undoStack m) <= 60)%nat
  /\ (length (undoStack (saveState m)) <= 60)%nat
  /\ redoStack (saveState m) = []
  /\ last (undoStack (saveState m)) = Some (snapshotOf m)
  /\ s_path (snapshotOf m) = path m
  /\ s_params (snapshotOf m) = params m
  /\ ((length (undoStack m) < 60)%nat ->
        undoStack (saveState m) = undoStack m ++ [snapshotOf m])
  /\ ((length (undoStack m) = 60)%nat ->
        undoStack (saveState m) = tail (undoStack m) ++ [snapshotOf m])
  /\ (forall cmds,
        undoStack (withCommands cmds (saveState m)) = undoStack (saveState m)).
Proof.
  intros Hreach.
  destruct (historyBounded_undo_le m (reachable_bounded G m Hreach))
    as [Hmax Hlen].
  destruct (saveState_bounded m Hmax Hlen) as [_ Hlen'].
  split; [exact Hlen|]. split; [lia|]. split; [reflexivity|].
  assert (Hlast : last (undoStack (saveState m)) = Some (snapshotOf m)).
  { rewrite saveState_undoStack, Hmax.
    destruct (Nat.ltb_spec 60 (length (undoStack m ++ [snapshotOf m])))
      as [H|H]; [|apply last_snoc].
    destruct (undoStack m) as [|s0 l]; [simpl in H; lia|].
    apply (last_snoc _ l). }
  split; [exact Hlast|].
  split; [apply newPath_commands|]. split; [reflexivity|].
  split; [|split; [|reflexivity]].
  - intros Hlt. rewrite saveState_undoStack, Hmax.
    destruct (Nat.ltb_spec 60 (length (undoStack m ++ [snapshotOf m])))
      as [H|H]; [|reflexivity].
    rewrite length_app in H. simpl in H. lia.
  - intros Heq. rewrite saveState_undoStack, Hmax.
    destruct (Nat.ltb_spec 60 (length (undoStack m ++ [snapshotOf m])))
      as [H|H].
    + apply tail_snoc. intros E. rewrite E in Heq. simpl in Heq. lia.
    + rewrite length_app in H. simpl in H. lia.
Qed.

(** C7 on the model right after the first glyph is generated. *)
Lemma history_bounded_by_60_witness :
  reachable lcg fallbackModel
  /\ (length (undoStack fallbackModel) <= 60)%nat
  /\ undoStack (saveState fallbackModel) =
     undoStack fallbackModel ++ [snapshotOf fallbackModel].
Proof.
  assert (Hreach : reachable lcg fallbackModel).
  { apply (reachable_step lcg newGlyphModel).
    - apply reachable_new.
    - apply (step_generate lcg noFontEnv (Some "A"%string) newGlyphModel). }
  split; [exact Hreach|].
  destruct (history_bounded_by_60 lcg fallbackModel Hreach)
    as (Hlen & _ & _ & _ & _ & _ & Hpush & _).
  split; [exact Hlen|]. apply Hpush. vm_compute. lia.
Defined.

(** ** Generating *)

(** C9.  [generate] called with no character, or with the empty string,
    returns at once: the model it leaves is the model it was given, with
    the same original path, path, character, params and history stacks. *)
Theorem generate_without_character_ignored (env : Env) (m : GlyphModel) :
  generate env None m = (Ok tt, m)
  /\ generate env (Some ""%string) m = (Ok tt, m).
Proof. split; reflexivity. Qed.

(** ** Transforming *)

Lemma applyParams_commands (env : Env) (m : GlyphModel) :
  commands (path (applyParams env m)) =
  roundPass (params m)
    (scalePass env (params m)
       (slantPass (params m) (commands (originalPath m)))).
Proof. unfold applyParams. rewrite copyCommands_id. reflexivity. Qed.

(** Scaling by [1] in both directions moves no point, whatever the box. *)
Lemma scaleCommand_unit (bb : Box) (p : Params) (c : Command) :
  width p = 1 -> height p = 1 -> scaleCommand bb p c = c.
Proof.
  intros Hw Hh. destruct c; simpl; rewrite ?Hw, ?Hh; f_equal; ring.
Qed.

Lemma scalePass_unit (env : Env) (p : Params) (cmds : list Command) :
  width p = 1 -> height p = 1 -> scalePass env p cmds = cmds.
Proof.
  intros Hw Hh. unfold scalePass.
  assert (Hmap : forall bb, map (scaleCommand bb p) cmds = cmds).
  { intros bb. induction cmds as [|c cmds IH]; simpl; [reflexivity|].
    rewrite scaleCommand_unit by assumption. f_equal. exact IH. }
  destruct (Rgt_dec _ 0); [|reflexivity].
  destruct (Rgt_dec _ 0); [|reflexivity].
  apply Hmap.
Qed.

(** Exact arithmetic.  With width 1, height 1, slant 0 and roundness 0,
    whatever the weight, the path [applyParams] installs has the commands of
    the original path, coordinate for coordinate. *)
Lemma applyParams_identity_exact (env : Env) (m : GlyphModel) :
  width (params m) = 1 ->
  height (params m) = 1 ->
  slant (params m) = 0 ->
  roundness (params m) = 0 ->
  commands (path (applyParams env m)) = commands (originalPath m).
Proof.
  intros Hw Hh Hs Hr. rewrite applyParams_commands.
  unfold roundPass. rewrite Hr.
  destruct (Rgt_dec 0 0) as [H|_]; [lra|].
  rewrite scalePass_unit by assumption.
  unfold slantPass. rewrite Hs.
  destruct (Req_dec_T 0 0) as [_|H]; [reflexivity|lra].
Qed.

(** In doubles, with those params, only the scale pass can run. *)
Lemma double_applyParams_identity_passes
    (env : Double.Env) (p : Double.Params) (cmds : list Double.Command) :
  Double.slant p = 0%float ->
  Double.roundness p = 0%float ->
  Double.copyCommands cmds = cmds ->
  Double.applyParams env p cmds = Double.scalePass env p cmds.
Proof.
  intros Hs Hr Hcopy. unfold Double.applyParams, Double.roundPass,
    Double.slantPass. rewrite Hs, Hr, Hcopy. reflexivity.
Qed.

Lemma double_scaleCommand_typeOf (bb : Double.Box) (p : Double.Params)
    (c : Double.Command) :
  Double.typeOf (Double.scaleCommand bb p c) = Double.typeOf c.
Proof. destruct c; reflexivity. Qed.

Lemma double_slantCommand_typeOf (t : float) (c : Double.Command) :
  Double.typeOf (Double.slantCommand t c) = Double.typeOf c.
Proof. destruct c; reflexivity. Qed.

Lemma double_roundCommand_typeOf (t : float) (c : Double.Command) :
  Double.typeOf (Double.roundCommand t c) = Double.typeOf c.
Proof. destruct c; reflexivity. Qed.

Lemma double_copyCommand_typeOf (c : Double.Command) :
  Double.typeOf (Double.copyCommand c) = Double.typeOf c.
Proof. destruct c; reflexivity. Qed.

Lemma map_typeOf_map (f : Double.Command -> Double.Command)
    (cmds : list Double.Command) :
  (forall c, Double.typeOf (f c) = Double.typeOf c) ->
  map Double.typeOf (map f cmds) = map Double.typeOf cmds.
Proof.
  intros Hf. induction cmds as [|c cmds IH]; simpl; [reflexivity|].
  rewrite Hf, IH. reflexivity.
Qed.

(** No pass of [applyParams] adds, drops or retypes a command, in doubles
    as in exact arithmetic. *)
Lemma double_applyParams_types
    (env : Double.Env) (p : Double.Params) (cmds : list Double.Command) :
  map Double.typeOf (Double.applyParams env p cmds) = map Double.typeOf cmds.
Proof.
  unfold Double.applyParams, Double.roundPass, Double.scalePass,
    Double.slantPass, Double.copyCommands.
  destruct (PrimFloat.ltb 0 (Double.roundness p));
    [rewrite (map_typeOf_map _ _ (double_roundCommand_typeOf _))|];
    (destruct (_ && _);
     [rewrite (map_typeOf_map _ _ (double_scaleCommand_typeOf _ _))|]);
    (destruct (PrimFloat.eqb (Double.slant p) 0);
     [|rewrite (map_typeOf_map _ _ (double_slantCommand_typeOf _))]);
    apply (map_typeOf_map _ _ double_copyCommand_typeOf).
Qed.

(** C4, as amended.  With width 1, height 1, slant 0 and roundness 0,
    whatever the weight, the path [applyParams] installs has the commands of
    the original path, in type and order.  In exact arithmetic (first half)
    it has their coordinates too.  In doubles (second half), for an original
    path as the model stores it, a copy, the coordinates are those of the
    original when the scale pass is skipped, the bounding box having no
    width or no height; otherwise every coordinate [v] comes out as
    [(v - bb.x) * 1 + bb.x], or the same with [bb.y], rounded at each
    operation. *)
Theorem applyParams_identity_up_to_rounding :
  (forall (env : Env) (m : GlyphModel),
      width (params m) = 1 ->
      height (params m) = 1 ->
      slant (params m) = 0 ->
      roundness (params m) = 0 ->
      commands (path (applyParams env m)) = commands (originalPath m))
  /\
  (forall (env : Double.Env) (p : Double.Params) (cmds : list Double.Command),
      Double.width p = 1%float ->
      Double.height p = 1%float ->
      Double.slant p = 0%float ->
      Double.roundness p = 0%float ->
      Double.copyCommands cmds = cmds ->
      let bb := Double.bboxOf env cmds in
      let scaled := ((0 <? Double.box_w bb) && (0 <? Double.box_h bb))%float in
      let out := Double.applyParams env p cmds in
      map Double.typeOf out = map Double.typeOf cmds
      /\ (scaled = false -> out = cmds)
      /\ (scaled = true ->
          Forall2 (fun c c' =>
                     Double.pointsOf c' =
                     map (fun pt =>
                            ((fst pt - Double.box_x bb) * 1 + Double.box_x bb,
                             (snd pt - Double.box_y bb) * 1 + Double.box_y bb)%float)
                       (Double.pointsOf c))
            cmds out)).
Proof.
  split; [exact applyParams_identity_exact|].
  intros env p cmds Hw Hh Hs Hr Hcopy bb scaled out.
  split; [apply double_applyParams_types|].
  unfold out. rewrite double_applyParams_identity_passes by assumption.
  unfold Double.scalePass. fold bb. fold scaled.
  split; intros Hsc; rewrite Hsc; [reflexivity|].
  generalize bb. intros b. clear - Hw Hh.
  induction cmds as [|c cmds IH]; simpl; constructor; [|exact IH].
  destruct c; simpl; rewrite ?Hw, ?Hh; reflexivity.
Qed.

(** C4 as amended, on the curved glyph after the weight slider was set
    to 5, and in doubles on the line from [(0.2, 0)] to [(0.9, 1)]. *)
Lemma applyParams_identity_up_to_rounding_witness :
  commands (path (applyParams curvedEnv (withParam pWeight 5 curvedModel))) =
  [CmdM 0 0; CmdC 10 20 30 40 50 60; CmdQ 70 80 90 10; CmdZ]
  /\ (forall tanE,
        map Double.typeOf
          (Double.applyParams (Double.loadedEnv tanE) Double.defaultParams
             [Double.CmdM 0.2 0; Double.CmdL 0.9 1])
        = [typeM; typeL])%float.
Proof.
  split.
  - apply (proj1 applyParams_identity_up_to_rounding
             curvedEnv (withParam pWeight 5 curvedModel));
      reflexivity.
  - intros tanE.
    apply (proj2 applyParams_identity_up_to_rounding
             (Double.loadedEnv tanE) Double.defaultParams
             [Double.CmdM 0.2 0; Double.CmdL 0.9 1]%float);
      reflexivity.
Defined.

(** C4 as stated fails in doubles.  The line from [(0.2, 0)] to [(0.9, 1)]
    has the bounding box [{x: 0.2, y: 0, w: 0.7, h: 1}]; the scale pass
    runs and computes [(0.9 - 0.2) * 1 + 0.2], which is
    [0.8999999999999999] and not [0.9]. *)
Lemma applyParams_identity_counterexample :
  (forall tanE,
      Double.applyParams (Double.loadedEnv tanE) Double.defaultParams
        [Double.CmdM 0.2 0; Double.CmdL 0.9 1]
      = [Double.CmdM 0.2 0; Double.CmdL 0.8999999999999999 1])%float
  /\ ((0.9 - 0.2) * 1 + 0.2 = 0.8999999999999999)%float
  /\ (0.8999999999999999 =? 0.9)%float = false.
Proof.
  split; [|split].
  - intros tanE. vm_compute. reflexivity.
  - vm_compute. reflexivity.
  - vm_compute. reflexivity.
Qed.

(** [lerp] at [1] is its second argument. *)
Lemma lerp_1 (start stop : R) : lerp start stop 1 = stop.
Proof. unfold lerp. ring. Qed.

Lemma roundCommand_1_collapsed (c : Command) : collapsed (roundCommand 1 c).
Proof. destruct c; simpl; rewrite ?lerp_1; auto. Qed.

Lemma roundCommand_xy (t : R) (c : Command) : xy (roundCommand t c) = xy c.
Proof. destruct c; reflexivity. Qed.

Lemma slantPass_length (p : Params) (cmds : list Command) :
  length (slantPass p cmds) = length cmds.
Proof.
  unfold slantPass. destruct (Req_dec_T _ 0); [reflexivity|apply length_map].
Qed.

Lemma scalePass_length (env : Env) (p : Params) (cmds : list Command) :
  length (scalePass env p cmds) = length cmds.
Proof.
  unfold scalePass. repeat destruct (Rgt_dec _ 0);
    try reflexivity; apply length_map.
Qed.

Lemma map_typeOf_pass (f : Command -> Command) (cmds : list Command) :
  (forall c, typeOf (f c) = typeOf c) ->
  map typeOf (map f cmds) = map typeOf cmds.
Proof.
  intros Hf. induction cmds as [|c cmds IH]; simpl; [reflexivity|].
  rewrite Hf, IH. reflexivity.
Qed.

(** No pass of [applyParams] adds, drops or retypes a command. *)
Lemma applyParams_types (env : Env) (m : GlyphModel) :
  map typeOf (commands (path (applyParams env m))) =
  map typeOf (commands (originalPath m)).
Proof.
  rewrite applyParams_commands. unfold roundPass, scalePass, slantPass.
  destruct (Rgt_dec (roundness (params m)) 0);
    [rewrite map_typeOf_pass by (intros []; reflexivity)|];
    (destruct (Rgt_dec _ 0);
     [destruct (Rgt_dec _ 0);
      [rewrite map_typeOf_pass by (intros []; reflexivity)|]|]);
    (destruct (Req_dec_T _ 0);
     [reflexivity|apply map_typeOf_pass; intros []; reflexivity]).
Qed.

(** Exact arithmetic.  With roundness 1, whatever the other parameters,
    every cubic command of the path [applyParams] installs has both control
    points on its end anchor and every quadratic command its control point
    on its end anchor; the path has the commands of the original one in
    type and order, with the anchors the slant and scale passes gave
    them. *)
Lemma applyParams_roundness_one_exact (env : Env) (m : GlyphModel) :
  roundness (params m) = 1 ->
  let slantedScaled :=
    scalePass env (params m)
      (slantPass (params m) (commands (originalPath m))) in
  Forall collapsed (commands (path (applyParams env m)))
  /\ map typeOf (commands (path (applyParams env m))) =
     map typeOf (commands (originalPath m))
  /\ map xy (commands (path (applyParams env m))) = map xy slantedScaled.
Proof.
  intros Hr slantedScaled.
  split; [|split; [apply applyParams_types|]];
    rewrite applyParams_commands; fold slantedScaled;
    unfold roundPass; rewrite Hr;
    (destruct (Rgt_dec 1 0) as [_|H]; [|lra]).
  - apply Forall_forall. intros c Hc.
    apply list_elem_of_fmap in Hc as (c0 & -> & _).
    apply roundCommand_1_collapsed.
  - generalize slantedScaled. intros l.
    induction l as [|c l IH]; simpl; [reflexivity|].
    rewrite roundCommand_xy. f_equal. exact IH.
Qed.

(** C5, as amended.  With roundness 1, whatever the other parameters, the
    path [applyParams] installs has the commands of the original path in
    type and order: a cubic stays a cubic and a quadratic a quadratic, with
    the end anchor the slant and scale passes gave it.  In exact arithmetic
    (first half) both control points of every cubic and the control point
    of every quadratic lie on that end anchor.  In doubles (second half)
    every control coordinate [c] is replaced by [lerp(c, a, 1)], that is
    [1 * (a - c) + c] rounded at each operation, [a] being the matching
    coordinate of the end anchor. *)
Theorem applyParams_roundness_one_pulls_controls_onto_anchor :
  (forall (env : Env) (m : GlyphModel),
      roundness (params m) = 1 ->
      let slantedScaled :=
        scalePass env (params m)
          (slantPass (params m) (commands (originalPath m))) in
      Forall collapsed (commands (path (applyParams env m)))
      /\ map typeOf (commands (path (applyParams env m))) =
         map typeOf (commands (originalPath m))
      /\ map xy (commands (path (applyParams env m))) = map xy slantedScaled)
  /\
  (forall (env : Double.Env) (p : Double.Params) (cmds : list Double.Command),
      Double.roundness p = 1%float ->
      let slantedScaled :=
        Double.scalePass env p
          (Double.slantPass env p (Double.copyCommands cmds)) in
      map Double.typeOf (Double.applyParams env p cmds) =
      map Double.typeOf cmds
      /\ Forall2 (fun c c' =>
                    match c with
                    | Double.CmdC x1 y1 x2 y2 x y =>
                        c' = Double.CmdC (1 * (x - x1) + x1) (1 * (y - y1) + y1)
                               (1 * (x - x2) + x2) (1 * (y - y2) + y2) x y
                    | Double.CmdQ x1 y1 x y =>
                        c' = Double.CmdQ (1 * (x - x1) + x1) (1 * (y - y1) + y1)
                               x y
                    | other => c' = other
                    end%float)
           slantedScaled (Double.applyParams env p cmds)).
Proof.
  split; [exact applyParams_roundness_one_exact|].
  intros env p cmds Hr slantedScaled.
  split; [apply double_applyParams_types|].
  unfold Double.applyParams. fold slantedScaled.
  unfold Double.roundPass. rewrite Hr.
  replace (0 <? 1)%float with true by reflexivity.
  generalize slantedScaled. intros l.
  induction l as [|c l IH]; simpl; constructor; [|exact IH].
  destruct c; reflexivity.
Qed.

(** C5 as amended, on the curved glyph with the roundness slider at 1, and
    in doubles on a path of one quadratic. *)
Lemma applyParams_roundness_one_pulls_controls_onto_anchor_witness :
  Forall collapsed
    (commands (path (applyParams curvedEnv (withParam pRoundness 1 curvedModel))))
  /\ (forall tanE,
        map Double.typeOf
          (Double.applyParams (Double.loadedEnv tanE)
             {| Double.width := 1; Double.height := 1; Double.weight := 0;
                Double.slant := 0; Double.roundness := 1 |}
             [Double.CmdM 0 0; Double.CmdQ 0.2 1 0.05 0])
        = [typeM; typeQ])%float.
Proof.
  split.
  - apply (proj1 applyParams_roundness_one_pulls_controls_onto_anchor
             curvedEnv (withParam pRoundness 1 curvedModel)).
    reflexivity.
  - intros tanE.
    apply (proj2 applyParams_roundness_one_pulls_controls_onto_anchor
             (Double.loadedEnv tanE)
             {| Double.width := 1; Double.height := 1; Double.weight := 0;
                Double.slant := 0; Double.roundness := 1 |}
             [Double.CmdM 0 0; Double.CmdQ 0.2 1 0.05 0]%float).
    reflexivity.
Defined.

(** C5 as stated fails in doubles.  On the quadratic from [(0, 0)] to
    [(0.05, 0)] with the control point [(0.2, 1)], whose bounding box has
    its corner at the origin, so that the scale pass changes nothing, the
    roundness pass at 1 computes [1 * (0.05 - 0.2) + 0.2], which is
    [0.04999999999999999]: the control point ends next to the anchor, not
    on it. *)
Lemma applyParams_roundness_one_counterexample :
  (forall tanE,
      Double.applyParams (Double.loadedEnv tanE)
        {| Double.width := 1; Double.height := 1; Double.weight := 0;
           Double.slant := 0; Double.roundness := 1 |}
        [Double.CmdM 0 0; Double.CmdQ 0.2 1 0.05 0]
      = [Double.CmdM 0 0; Double.CmdQ 0.04999999999999999 0 0.05 0])%float
  /\ (Double.lerp 0.2 0.05 1 = 0.04999999999999999)%float
  /\ (0.04999999999999999 =? 0.05)%float = false.
Proof.
  split; [|split].
  - intros tanE. vm_compute. reflexivity.
  - vm_compute. reflexivity.
  - vm_compute. reflexivity.
Qed.

(** ** The bounding box of the fallback glyph *)

Lemma Rmin_left (a b : R) : a <= b -> Rmin a b = a.
Proof. intros H. unfold Rmin. destruct (Rle_dec a b); [reflexivity|lra]. Qed.

Lemma Rmax_left (a b : R) : b <= a -> Rmax a b = a.
Proof. intros H. unfold Rmax. destruct (Rle_dec a b); [lra|reflexivity]. Qed.

Lemma Rmin_right (a b : R) : b <= a -> Rmin a b = b.
Proof. intros H. unfold Rmin. destruct (Rle_dec a b); [lra|reflexivity]. Qed.

Lemma Rmax_right (a b : R) : a <= b -> Rmax a b = b.
Proof. intros H. unfold Rmax. destruct (Rle_dec a b); [reflexivity|lra]. Qed.

(** C8.  Without a font, [generate] of any character installs the fallback
    triangle [M(0,0) L(40,120) L(80,0) Z] as original and working path, and
    its bounding box is [{x: 0, y: 0, w: 80, h: 120}]. *)
Theorem fallback_bbox (m0 : GlyphModel) (a : ascii) (rest : string) :
  let m := snd (generate noFontEnv (Some (String a rest)) m0) in
  fst (generate noFontEnv (Some (String a rest)) m0) = Ok tt
  /\ commands (originalPath m) = [CmdM 0 0; CmdL 40 120; CmdL 80 0; CmdZ]
  /\ commands (path m) = [CmdM 0 0; CmdL 40 120; CmdL 80 0; CmdZ]
  /\ bboxOf noFontEnv [CmdM 0 0; CmdL 40 120; CmdL 80 0; CmdZ] =
     {| box_x := 0; box_y := 0; box_w := 80; box_h := 120 |}
  /\ bbox noFontEnv m =
     {| box_x := 0; box_y := 0; box_w := 80; box_h := 120 |}.
Proof.
  intros m.
  assert (Hbox : bboxOf noFontEnv [CmdM 0 0; CmdL 40 120; CmdL 80 0; CmdZ] =
                 {| box_x := 0; box_y := 0; box_w := 80; box_h := 120 |}).
  { unfold bboxOf. cbn.
    rewrite (Rmin_left 0 40), (Rmin_left 0 120), (Rmax_right 0 40),
      (Rmax_right 0 120), (Rmin_left 0 80), (Rmin_left 0 0),
      (Rmax_right 40 80), (Rmax_left 120 0) by lra.
    f_equal; lra. }
  split; [reflexivity|]. split; [reflexivity|]. split; [reflexivity|].
  split; [exact Hbox|]. exact Hbox.
Qed.

(** ** Randomizing *)

Section Randomize.

Variable G : Generator.

(** Case analysis on every draw in the goal. *)
Ltac draw_all :=
  unfold perturb;
  repeat match goal with
         | |- context [random ?G ?g] => destruct (random G g)
         end.

Lemma randomizeCommands_cons (c : Command) (rest : list Command)
    (g : rstate G) :
  fst (randomizeCommands G (c :: rest) g) =
  fst (randomizeCommand G c g)
    :: fst (randomizeCommands G rest (snd (randomizeCommand G c g))).
Proof.
  simpl. destruct (randomizeCommand G c g) as [c' g1]. simpl.
  destruct (randomizeCommands G rest g1). reflexivity.
Qed.

Lemma randomize_commands (seed : Z) (m : GlyphModel) (g : rstate G) :
  commands (path (fst (randomize G seed m g))) =
  fst (randomizeCommands G (commands (path m)) (randomSeed G seed)).
Proof.
  unfold randomize.
  destruct (randomizeCommands G (commands (path m)) (randomSeed G seed)).
  reflexivity.
Qed.

(** A command comes out as [Z] exactly when it went in as [Z], and then no
    value is drawn for it. *)
Lemma randomizeCommand_Z (c : Command) (g : rstate G) :
  fst (randomizeCommand G c g) = CmdZ <-> c = CmdZ.
Proof.
  destruct c; simpl; draw_all; simpl; split; (discriminate || reflexivity).
Qed.

Lemma randomizeCommands_lookup_Z (cmds : list Command) (g : rstate G)
    (i : nat) :
  fst (randomizeCommands G cmds g) !! i = Some CmdZ <->
  cmds !! i = Some CmdZ.
Proof.
  revert g i. induction cmds as [|c cmds IH]; intros g i.
  - reflexivity.
  - rewrite randomizeCommands_cons. destruct i as [|i]; simpl.
    + split; intros [= H]; f_equal; apply (randomizeCommand_Z c g); exact H.
    + apply IH.
Qed.

Lemma randomizeCommands_length (cmds : list Command) (g : rstate G) :
  length (fst (randomizeCommands G cmds g)) = length cmds.
Proof.
  revert g. induction cmds as [|c cmds IH]; intros g; [reflexivity|].
  rewrite randomizeCommands_cons. simpl. f_equal. apply IH.
Qed.

(** A path of [Z] commands only is left as it is. *)
Lemma randomizeCommands_all_Z (cmds : list Command) (g : rstate G) :
  Forall (fun c => c = CmdZ) cmds ->
  fst (randomizeCommands G cmds g) = cmds.
Proof.
  induction 1 as [|c cmds -> _ IH]; [reflexivity|].
  rewrite randomizeCommands_cons. simpl. f_equal. exact IH.
Qed.

(** The first value drawn for a command with an anchor moves its [x]. *)
Lemma randomizeCommand_x (c : Command) (g : rstate G) (x y : R) :
  xy c = Some (x, y) ->
  exists y',
    xy (fst (randomizeCommand G c g)) =
    Some (x + (fst (random G g) - 0.5) * 20, y').
Proof.
  intros H.
  destruct c; simpl in *; try discriminate; injection H as -> ->;
    unfold perturb; destruct (random G g) as [r g1]; simpl;
    draw_all; simpl; eauto.
Qed.

(** Two generator states whose next values differ give different paths as
    soon as one command is not [Z]. *)
Lemma randomizeCommands_differ (cmds : list Command) (g g' : rstate G) :
  Exists (fun c => c <> CmdZ) cmds ->
  fst (random G g) <> fst (random G g') ->
  fst (randomizeCommands G cmds g) <> fst (randomizeCommands G cmds g').
Proof.
  intros Hex Hdraw. induction cmds as [|c cmds IH]; [inversion Hex|].
  rewrite !randomizeCommands_cons. intros [= Hhead Htail].
  destruct (xy c) as [[x y]|] eqn:Hxy.
  - destruct (randomizeCommand_x c g x y Hxy) as [y1 H1].
    destruct (randomizeCommand_x c g' x y Hxy) as [y2 H2].
    rewrite Hhead, H2 in H1. injection H1 as Hx _. apply Hdraw. lra.
  - destruct c; try discriminate. simpl in Htail.
    apply IH; [|exact Htail].
    inversion Hex as [? ? Hc|? ? Hrest]; [congruence|exact Hrest].
Qed.

(** C6, as amended.  The path [randomize(seed)] leaves depends on the seed
    and the starting path only, not on the rest of the model nor on the
    state of the generator before the call; it has the commands of the
    starting path in number, and a [Z] command exactly where that path has
    one.  Two seeds give different paths when the path has a command other
    than [Z] and the generator, seeded with each, starts with different
    values; on a path of [Z] commands only, the empty path among them,
    every seed leaves the path as it was. *)
Theorem randomize_deterministic :
  (forall seed m1 m2 g1 g2,
      commands (path m1) = commands (path m2) ->
      commands (path (fst (randomize G seed m1 g1))) =
      commands (path (fst (randomize G seed m2 g2)))
      /\ snd (randomize G seed m1 g1) = snd (randomize G seed m2 g2))
  /\ (forall seed m g,
        length (commands (path (fst (randomize G seed m g)))) =
        length (commands (path m))
        /\ forall i,
            commands (path (fst (randomize G seed m g))) !! i = Some CmdZ <->
            commands (path m) !! i = Some CmdZ)
  /\ (forall seed1 seed2 m g1 g2,
        Exists (fun c => c <> CmdZ) (commands (path m)) ->
        fst (random G (randomSeed G seed1)) <>
        fst (random G (randomSeed G seed2)) ->
        commands (path (fst (randomize G seed1 m g1))) <>
        commands (path (fst (randomize G seed2 m g2))))
  /\ (forall seed m g,
        Forall (fun c => c = CmdZ) (commands (path m)) ->
        commands (path (fst (randomize G seed m g))) = commands (path m)).
Proof.
  split; [|split; [|split]].
  - intros seed m1 m2 g1 g2 H. rewrite !randomize_commands, H.
    split; [reflexivity|]. unfold randomize. rewrite H.
    destruct (randomizeCommands G (commands (path m2)) (randomSeed G seed)).
    reflexivity.
  - intros seed m g. rewrite randomize_commands.
    split; [apply randomizeCommands_length|].
    intros i. apply randomizeCommands_lookup_Z.
  - intros seed1 seed2 m g1 g2 Hex Hdraw. rewrite !randomize_commands.
    apply randomizeCommands_differ; assumption.
  - intros seed m g H. rewrite randomize_commands.
    apply randomizeCommands_all_Z. exact H.
Qed.

End Randomize.

(** The generator of the examples: two seeds start it with the same value
    exactly when they agree modulo [2^32]. *)
Lemma lcg_first_draw (s1 s2 : Z) :
  fst (random lcg (randomSeed lcg s1)) = fst (random lcg (randomSeed lcg s2))
  <-> (s1 mod 4294967296 = s2 mod 4294967296)%Z.
Proof.
  simpl. split.
  - intros H.
    set (z1 := (s1 mod 4294967296)%Z) in *.
    set (z2 := (s2 mod 4294967296)%Z) in *.
    assert (H1 : (0 <= z1 < 4294967296)%Z) by (apply Z.mod_pos_bound; lia).
    assert (H2 : (0 <= z2 < 4294967296)%Z) by (apply Z.mod_pos_bound; lia).
    assert (Hz : ((1664525 * z1 + 1013904223) mod 4294967296 =
                  (1664525 * z2 + 1013904223) mod 4294967296)%Z).
    { apply eq_IZR. lra. }
    assert (Hd : (4294967296 | 1664525 * (z1 - z2))%Z).
    { apply Z.mod_divide; [lia|].
      replace (1664525 * (z1 - z2))%Z
        with ((1664525 * z1 + 1013904223) - (1664525 * z2 + 1013904223))%Z
        by ring.
      rewrite Zminus_mod, Hz, Z.sub_diag. reflexivity. }
    apply Z.gauss in Hd; [|reflexivity].
    destruct Hd as [k Hk]. lia.
  - intros ->. reflexivity.
Qed.

(** C6, the amended statement on the fallback triangle: seed 42 gives the
    same path from a fresh generator and from a used one, and seed 43 gives
    another path. *)
Lemma randomize_deterministic_witness :
  commands (path (fst (randomize lcg 42 fallbackModel 0%Z))) =
  commands (path (fst (randomize lcg 42 (saveState fallbackModel) 7%Z)))
  /\ commands (path (fst (randomize lcg 42 fallbackModel 0%Z))) <>
     commands (path (fst (randomize lcg 43 fallbackModel 0%Z))).
Proof.
  destruct (randomize_deterministic lcg) as (Hsame & _ & Hdiffer & _).
  split.
  - apply (Hsame 42%Z fallbackModel (saveState fallbackModel) 0%Z 7%Z).
    reflexivity.
  - apply (Hdiffer 42%Z 43%Z fallbackModel 0%Z 0%Z).
    + apply Exists_cons_hd. discriminate.
    + intros H. apply lcg_first_draw in H. vm_compute in H. discriminate.
Defined.

(** C6 as stated fails: on the empty path of a new model the seeds 1 and 2
    leave the same coordinates, and on the fallback triangle so do the
    seeds 0 and [2^32], which start the generator in the same state. *)
Lemma randomize_seeds_counterexample :
  (1 <> 2)%Z
  /\ commands (path (fst (randomize lcg 1 newGlyphModel 0%Z))) =
     commands (path (fst (randomize lcg 2 newGlyphModel 0%Z)))
  /\ (0 <> 4294967296)%Z
  /\ commands (path (fst (randomize lcg 0 fallbackModel 0%Z))) =
     commands (path (fst (randomize lcg 4294967296 fallbackModel 0%Z))).
Proof.
  split; [discriminate|]. split; [reflexivity|]. split; [discriminate|].
  rewrite !randomize_commands. reflexivity.
Qed.

(** * Further properties *)

(** ** History: how undo, redo and commits compose *)

Lemma committed_top (m : GlyphModel) (l : list Snapshot) (t : Snapshot) :
  committed m -> undoStack m = l ++ [t] ->
  s_path t = path m /\ s_params t = params m.
Proof.
  unfold committed. intros Hc Hu. rewrite Hu, last_snoc in Hc.
  injection Hc as ->. split; reflexivity.
Qed.

(** One undo of a committed model is taken back by one redo. *)
Lemma redo_undo_step (m : GlyphModel) :
  committed m -> (1 < length (undoStack m))%nat ->
  redo (undo m) = m
  /\ committed (undo m)
  /\ length (undoStack (undo m)) = pred (length (undoStack m)).
Proof.
  intros Hc Hlen.
  destruct (stack_top_two (undoStack m) Hlen) as (past & s & t & Hst).
  assert (Hst' : undoStack m = (past ++ [s]) ++ [t])
    by (rewrite Hst, <- app_assoc; reflexivity).
  destruct (committed_top m _ t Hc Hst') as [Hp Hq].
  rewrite (undo_pops m past s t Hst). split; [|split].
  - erewrite redo_pops by reflexivity.
    cbn [originalPath char maxHist undoStack]. rewrite <- Hst', Hp, Hq.
    destruct m; reflexivity.
  - unfold committed. cbn [undoStack path params]. rewrite last_snoc.
    destruct s; reflexivity.
  - cbn [undoStack]. rewrite Hst. rewrite !length_app. simpl. lia.
Qed.

(** One redo from a committed model is taken back by one undo. *)
Lemma undo_redo_step (m : GlyphModel) :
  committed m -> redoStack m <> [] ->
  undo (redo m) = m
  /\ committed (redo m)
  /\ length (redoStack (redo m)) = pred (length (redoStack m)).
Proof.
  intros Hc Hne.
  destruct (stack_top (redoStack m)) as (future & s & Hr).
  { destruct (redoStack m); [congruence|simpl; lia]. }
  destruct (stack_top (undoStack m)) as (past & s0 & Hu).
  { unfold committed in Hc. destruct (undoStack m); [discriminate|simpl; lia]. }
  destruct (committed_top m _ s0 Hc Hu) as [Hp Hq].
  rewrite (redo_pops m future s Hr). split; [|split].
  - erewrite (undo_pops _ past s0 s)
      by (cbn [undoStack]; rewrite Hu, <- app_assoc; reflexivity).
    cbn [originalPath char maxHist redoStack]. rewrite <- Hu, <- Hr, Hp, Hq.
    destruct m; reflexivity.
  - unfold committed. cbn [undoStack path params]. rewrite last_snoc.
    destruct s; reflexivity.
  - cbn [redoStack]. rewrite Hr, length_app. simpl. lia.
Qed.

(** X1.  In a model whose path and params are those of its newest history
    entry, [n] undos followed by [n] redos give the model back, for every
    [n] below the number of entries of the undo stack; and [n] redos
    followed by [n] undos give it back, for every [n] up to the number of
    entries of the redo stack. *)
Theorem undo_redo_round_trip (m : GlyphModel) :
  committed m ->
  (forall n, (n < length (undoStack m))%nat ->
             Nat.iter n redo (Nat.iter n undo m) = m)
  /\ (forall n, (n <= length (redoStack m))%nat ->
                Nat.iter n undo (Nat.iter n redo m) = m).
Proof.
  intros Hc. split; intros n; revert m Hc.
  - induction n as [|n IH]; intros m Hc Hlen; [reflexivity|].
    destruct (redo_undo_step m Hc) as (Hback & Hc' & Hlen'); [lia|].
    rewrite (Nat.iter_succ_r n undo m), (Nat.iter_succ n redo).
    rewrite IH by (try assumption; lia). exact Hback.
  - induction n as [|n IH]; intros m Hc Hlen; [reflexivity|].
    assert (Hne : redoStack m <> [])
      by (intros E; rewrite E in Hlen; simpl in Hlen; lia).
    destruct (undo_redo_step m Hc Hne) as (Hback & Hc' & Hlen').
    rewrite (Nat.iter_succ_r n redo m), (Nat.iter_succ n undo).
    rewrite IH by (try assumption; lia). exact Hback.
Qed.

(** X1 on a model with three commits: two undos, then two redos. *)
Lemma undo_redo_round_trip_witness :
  Nat.iter 2 redo (Nat.iter 2 undo (saveState (saveState fallbackModel))) =
  saveState (saveState fallbackModel).
Proof.
  destruct (undo_redo_round_trip (saveState (saveState fallbackModel)))
    as [Hundo _].
  { unfold committed. vm_compute. reflexivity. }
  apply Hundo. vm_compute. lia.
Defined.

(** What one [undo] does to a model that was just committed. *)
Lemma undo_saveState_restores (m : GlyphModel) (s : Snapshot) :
  (2 <= maxHist m)%nat ->
  last (undoStack m) = Some s ->
  path (undo (saveState m)) = s_path s
  /\ params (undo (saveState m)) = s_params s
  /\ redoStack (undo (saveState m)) = [snapshotOf m]
  /\ redo (undo (saveState m)) = saveState m.
Proof.
  intros Hmax Hlast.
  apply last_Some in Hlast as [l Hl].
  assert (Hst : exists past,
             undoStack (saveState m) = past ++ [s; snapshotOf m]).
  { rewrite saveState_undoStack, Hl.
    destruct (Nat.ltb_spec (maxHist m)
                (length ((l ++ [s]) ++ [snapshotOf m]))) as [H|H].
    - destruct l as [|a l].
      + rewrite !length_app in H. simpl in H. lia.
      + exists l. simpl. rewrite <- app_assoc. reflexivity.
    - exists l. rewrite <- app_assoc. reflexivity. }
  destruct Hst as [past Hst].
  rewrite (undo_pops _ past s (snapshotOf m) Hst).
  cbn [path params redoStack saveState].
  split; [reflexivity|]. split; [reflexivity|]. split; [reflexivity|].
  erewrite (redo_pops _ [] (snapshotOf m)) by reflexivity.
  cbn [originalPath char maxHist undoStack snapshotOf s_path s_params].
  rewrite newPath_commands.
  replace ((past ++ [s]) ++ [snapshotOf m]) with (undoStack (saveState m))
    by (rewrite Hst, <- app_assoc; reflexivity).
  reflexivity.
Qed.

(** X2.  A commit is undone by one [undo]: with a bound of at least 2 and
    a history whose newest entry is [s], [undo] after [saveState] installs
    the path and params of [s] and leaves the committed snapshot as the only
    entry of the redo stack; [redo] then gives the committed model back. *)
Theorem undo_after_saveState (m : GlyphModel) (s : Snapshot) :
  (2 <= maxHist m)%nat ->
  last (undoStack m) = Some s ->
  path (undo (saveState m)) = s_path s
  /\ params (undo (saveState m)) = s_params s
  /\ redoStack (undo (saveState m)) = [snapshotOf m]
  /\ redo (undo (saveState m)) = saveState m.
Proof. apply undo_saveState_restores. Qed.

(** X2 on the fallback glyph with one anchor edited by hand. *)
Lemma undo_after_saveState_witness :
  let edited := withCommands [CmdM 5 5; CmdL 40 120; CmdL 80 0; CmdZ]
                  fallbackModel in
  commands (path (undo (saveState edited))) =
    [CmdM 0 0; CmdL 40 120; CmdL 80 0; CmdZ]
  /\ redo (undo (saveState edited)) = saveState edited.
Proof.
  intros edited.
  destruct (undo_after_saveState edited (snapshotOf fallbackModel))
    as (Hp & _ & _ & Hr).
  - vm_compute. lia.
  - vm_compute. reflexivity.
  - split; [rewrite Hp; vm_compute; reflexivity|exact Hr].
Defined.

(** X3.  [undo] and [redo] only move entries between the two stacks: the
    undo stack followed by the redo stack read from its top down is the
    same list before and after, and the original path, the character and
    the bound are left alone. *)
Theorem undo_redo_keep_timeline (m : GlyphModel) :
  (undoStack (undo m) ++ rev (redoStack (undo m)) =
   undoStack m ++ rev (redoStack m)
   /\ originalPath (undo m) = originalPath m
   /\ char (undo m) = char m /\ maxHist (undo m) = maxHist m)
  /\
  (undoStack (redo m) ++ rev (redoStack (redo m)) =
   undoStack m ++ rev (redoStack m)
   /\ originalPath (redo m) = originalPath m
   /\ char (redo m) = char m /\ maxHist (redo m) = maxHist m).
Proof.
  split.
  - destruct (Nat.le_gt_cases (length (undoStack m)) 1) as [H|H].
    + rewrite undo_baseline by exact H. repeat split.
    + destruct (stack_top_two (undoStack m) H) as (past & s & t & Hst).
      rewrite (undo_pops m past s t Hst).
      cbn [undoStack redoStack originalPath char maxHist].
      rewrite Hst, rev_app_distr. simpl. rewrite <- !app_assoc.
      repeat split.
  - destruct (redoStack m) as [|r rs] eqn:Hr.
    + rewrite redo_tip by exact Hr. rewrite Hr. repeat split.
    + destruct (stack_top (redoStack m)) as (future & s & Hfs);
        [rewrite Hr; simpl; lia|].
      rewrite (redo_pops m future s Hfs).
      cbn [undoStack redoStack originalPath char maxHist].
      rewrite <- Hr, Hfs, rev_app_distr. simpl. rewrite <- !app_assoc.
      repeat split.
Qed.

(** X4.  With the opentype library loaded, [generate] of a non-empty
    string installs the glyph of its first character (the font's outline,
    or the fallback triangle without a font) as original and working path
    with the default params, and starts the history afresh: one entry, an
    empty redo stack, whatever the history held.  Without the library the
    call throws after it stored the character and changes nothing else. *)
Theorem generate_restarts_history
    (env : Env) (a : ascii) (rest : string) (m : GlyphModel) :
  (forall ot, opentype env = Some ot -> (1 <= maxHist m)%nat ->
     let glyph := match font env with
                  | Some f => f a
                  | None => [CmdM 0 0; CmdL 40 120; CmdL 80 0; CmdZ]
                  end in
     let m' := snd (generate env (Some (String a rest)) m) in
     fst (generate env (Some (String a rest)) m) = Ok tt
     /\ char m' = a
     /\ commands (originalPath m') = glyph
     /\ commands (path m') = glyph
     /\ params m' = defaultParams
     /\ undoStack m' = [{| s_path := newPath glyph;
                           s_params := defaultParams |}]
     /\ redoStack m' = []
     /\ undo m' = m' /\ redo m' = m')
  /\ (opentype env = None ->
        generate env (Some (String a rest)) m = (Err TypeError, withChar a m)).
Proof.
  split.
  - intros ot Hot Hmax glyph m'.
    assert (Hm' : m' = reset (withOriginal (newPath glyph) (withChar a m))).
    { unfold m', generate, glyph. rewrite Hot.
      destruct (font env); cbn [snd]; rewrite copyCommands_id; reflexivity. }
    assert (Hstack : undoStack m' = [{| s_path := newPath glyph;
                                         s_params := defaultParams |}]).
    { rewrite Hm'. unfold reset. rewrite saveState_undoStack.
      cbn [undoStack maxHist withOriginal withChar app length].
      destruct (Nat.ltb_spec (maxHist m) 1) as [H|H]; [lia|].
      unfold snapshotOf. cbn [path params originalPath withOriginal commands newPath].
      rewrite !copyCommands_id. reflexivity. }
    split.
    { unfold generate. rewrite Hot. destruct (font env); reflexivity. }
    split; [rewrite Hm'; reflexivity|].
    split; [rewrite Hm'; reflexivity|].
    split; [rewrite Hm'; cbn; apply copyCommands_id|].
    split; [rewrite Hm'; reflexivity|].
    split; [exact Hstack|].
    split; [rewrite Hm'; reflexivity|].
    split.
    + apply undo_baseline. rewrite Hstack. simpl. lia.
    + apply redo_tip. rewrite Hm'. reflexivity.
  - intros Hnone. unfold generate. rewrite Hnone.
    destruct (font env); reflexivity.
Qed.

(** X4 with the curved font loaded, on a model with three commits. *)
Lemma generate_restarts_history_witness :
  let m := saveState (saveState fallbackModel) in
  length (undoStack (snd (generate curvedEnv (Some "O"%string) m))) = 1%nat
  /\ generate {| opentype := None; font := None |} (Some "O"%string) m =
     (Err TypeError, withChar "O"%char m).
Proof.
  intros m.
  destruct (generate_restarts_history curvedEnv "O"%char ""%string m)
    as [Hok _].
  destruct (generate_restarts_history {| opentype := None; font := None |}
              "O"%char ""%string m) as [_ Herr].
  split.
  - destruct (Hok specOpentype eq_refl) as (_ & _ & _ & _ & _ & Hs & _).
    + vm_compute. lia.
    + rewrite Hs. reflexivity.
  - apply Herr. reflexivity.
Defined.

(** ** Transforming: slant and roundness *)

Lemma slantCommand_0 (c : Command) : slantCommand 0 c = c.
Proof. destruct c; simpl; f_equal; ring. Qed.

Lemma map_slantCommand_0 (cmds : list Command) :
  map (slantCommand 0) cmds = cmds.
Proof.
  induction cmds as [|c cmds IH]; simpl; [reflexivity|].
  rewrite slantCommand_0, IH. reflexivity.
Qed.

(** X5.  In exact arithmetic, with the real tangent and the number pi:
    with width 1, height 1 and roundness 0, [applyParams] keeps every
    command and its type and shears the original path along the x axis,
    every point [(x, y)], control points included, going to
    [(x + y * t, y)] with [t = tan(slant * PI / 4)].  At slant 1 the factor
    is 1, at slant -1 it is -1, and at slant 0 it is 0.  (In doubles the
    factor is what the engine's [Math.tan] answers, and the product and
    the sum round.) *)
Theorem applyParams_slant_shears (env : Env) (m : GlyphModel) :
  width (params m) = 1 ->
  height (params m) = 1 ->
  roundness (params m) = 0 ->
  let t := tan (slant (params m) * (PI / 4)) in
  Forall2 (fun c c' =>
             typeOf c' = typeOf c /\
             pointsOf c' =
             map (fun pt => (fst pt + snd pt * t, snd pt)) (pointsOf c))
    (commands (originalPath m)) (commands (path (applyParams env m)))
  /\ (slant (params m) = 1 -> t = 1)
  /\ (slant (params m) = -1 -> t = -1)
  /\ (slant (params m) = 0 -> t = 0).
Proof.
  intros Hw Hh Hr t.
  assert (H0 : slant (params m) = 0 -> t = 0).
  { intros E. unfold t. rewrite E, Rmult_0_l. apply tan_0. }
  split; [|split; [|split; [|exact H0]]].
  - assert (Hcmds : commands (path (applyParams env m)) =
                    map (slantCommand t) (commands (originalPath m))).
    { rewrite applyParams_commands.
      unfold roundPass. rewrite Hr.
      destruct (Rgt_dec 0 0) as [H|_]; [lra|].
      rewrite scalePass_unit by assumption.
      unfold slantPass. destruct (Req_dec_T (slant (params m)) 0) as [E|E].
      + rewrite (H0 E), map_slantCommand_0. reflexivity.
      + reflexivity. }
    rewrite Hcmds. generalize (commands (originalPath m)). intros l.
    induction l as [|c l IH]; simpl; constructor; [|exact IH].
    destruct c; simpl; split; reflexivity.
  - intros E. unfold t. rewrite E, Rmult_1_l. apply tan_PI4.
  - intros E. unfold t. rewrite E.
    replace (-1 * (PI / 4)) with (- (PI / 4)) by ring.
    rewrite tan_neg, tan_PI4. reflexivity.
Qed.

(** X5 on the curved glyph with the slant slider at 1. *)
Lemma applyParams_slant_shears_witness :
  Forall2 (fun c c' =>
             typeOf c' = typeOf c /\
             pointsOf c' =
             map (fun pt => (fst pt + snd pt * 1, snd pt)) (pointsOf c))
    [CmdM 0 0; CmdC 10 20 30 40 50 60; CmdQ 70 80 90 10; CmdZ]
    (commands (path (applyParams curvedEnv (withParam pSlant 1 curvedModel)))).
Proof.
  destruct (applyParams_slant_shears curvedEnv (withParam pSlant 1 curvedModel))
    as (Hcmds & H1 & _); try reflexivity.
  rewrite (H1 eq_refl) in Hcmds. exact Hcmds.
Defined.

Lemma roundCommand_handles (t : R) (c : Command) :
  typeOf (roundCommand t c) = typeOf c
  /\ xy (roundCommand t c) = xy c
  /\ handles (roundCommand t c) =
     map (fun h => ((1 - t) * fst h, (1 - t) * snd h)) (handles c).
Proof.
  destruct c; simpl; repeat split; unfold lerp;
    repeat (f_equal; try ring).
Qed.

(** X6.  The roundness pass keeps every command, its type and its end
    anchor, and in exact arithmetic it multiplies every handle (the offset
    of a control point from the end anchor of its command) by
    [1 - roundness]; a roundness of zero or less changes nothing.  (In
    doubles [lerp] rounds at each operation, and the handle need not be
    that product.) *)
Theorem applyParams_roundness_scales_handles (env : Env) (m : GlyphModel) :
  let slantedScaled :=
    scalePass env (params m)
      (slantPass (params m) (commands (originalPath m))) in
  let t := roundness (params m) in
  (t <= 0 -> commands (path (applyParams env m)) = slantedScaled)
  /\ (0 < t ->
      Forall2 (fun c c' =>
                 typeOf c' = typeOf c /\ xy c' = xy c /\
                 handles c' =
                 map (fun h => ((1 - t) * fst h, (1 - t) * snd h)) (handles c))
        slantedScaled (commands (path (applyParams env m)))).
Proof.
  intros slantedScaled t. rewrite applyParams_commands.
  fold slantedScaled. unfold roundPass. fold t. split; intros Ht.
  - destruct (Rgt_dec t 0) as [H|_]; [lra|reflexivity].
  - destruct (Rgt_dec t 0) as [_|H]; [|lra].
    generalize slantedScaled. intros l.
    induction l as [|c l IH]; simpl; constructor.
    + apply roundCommand_handles.
    + exact IH.
Qed.

(** X6 on the curved glyph with the roundness slider at one half. *)
Lemma applyParams_roundness_scales_handles_witness :
  Forall2 (fun c c' =>
             typeOf c' = typeOf c /\ xy c' = xy c /\
             handles c' =
             map (fun h => ((1 - 0.5) * fst h, (1 - 0.5) * snd h)) (handles c))
    (scalePass curvedEnv (params (withParam pRoundness 0.5 curvedModel))
       (slantPass (params (withParam pRoundness 0.5 curvedModel))
          (commands (originalPath (withParam pRoundness 0.5 curvedModel)))))
    (commands
       (path (applyParams curvedEnv (withParam pRoundness 0.5 curvedModel)))).
Proof.
  destruct (applyParams_roundness_scales_handles
              curvedEnv (withParam pRoundness 0.5 curvedModel)) as [_ H].
  apply H. simpl. lra.
Defined.

(** ** Editor: what [setPoint] keeps *)

Lemma bind_Ok {A B : Type} (r : res A) (k : A -> res B) (b : B) :
  bind r k = Ok b -> exists a, r = Ok a /\ k a = Ok b.
Proof. destruct r as [a|e]; simpl; [eauto|discriminate]. Qed.

Lemma orThrow_Ok {A : Type} (e : error) (o : option A) (a : A) :
  orThrow e o = Ok a -> o = Some a.
Proof. destruct o; simpl; congruence. Qed.

Lemma set_xy_Some (x y : R) (c c' : Command) :
  set_xy x y c = Some c' ->
  typeOf c' = typeOf c /\ xy c' = Some (x, y)
  /\ xy1 c' = xy1 c /\ xy2 c' = xy2 c.
Proof. destruct c; simpl; intros [= <-]; repeat split. Qed.

Lemma set_xy1_Some (x y : R) (c c' : Command) :
  set_xy1 x y c = Some c' ->
  typeOf c' = typeOf c /\ xy1 c' = Some (x, y)
  /\ xy c' = xy c /\ xy2 c' = xy2 c.
Proof. destruct c; simpl; intros [= <-]; repeat split. Qed.

Lemma set_xy2_Some (x y : R) (c c' : Command) :
  set_xy2 x y c = Some c' ->
  typeOf c' = typeOf c /\ xy2 c' = Some (x, y)
  /\ xy c' = xy c /\ xy1 c' = xy1 c.
Proof. destruct c; simpl; intros [= <-]; repeat split. Qed.

Lemma getPoint_pointOf (cmds : list Command) (ref : PointRef) :
  Events.getPoint cmds ref =
  do c <- orThrow TypeError (cmds !! index ref);
  orThrow NotModelled (pointOf (type ref) c).
Proof.
  unfold Events.getPoint. destruct (cmds !! index ref); simpl; [|reflexivity].
  destruct (type ref); reflexivity.
Qed.

(** Writing a command of the same type leaves the types of the list. *)
Lemma map_typeOf_insert (cmds : list Command) (i : nat) (c c' : Command) :
  cmds !! i = Some c -> typeOf c' = typeOf c ->
  map typeOf (<[i := c']> cmds) = map typeOf cmds.
Proof.
  revert i. induction cmds as [|d cmds IH]; intros [|i] H Ht; simpl in *;
    try discriminate.
  - injection H as ->. rewrite Ht. reflexivity.
  - f_equal. apply IH; assumption.
Qed.

(** What a successful [mirrorOpposite] wrote. *)
Lemma mirrorOpposite_Ok (x y : R) (ai oi : nat) (key : PointType)
    (cmds cmds' : list Command) :
  Editor.mirrorOpposite x y ai oi key cmds = Ok cmds' ->
  exists o o',
    cmds !! oi = Some o /\ cmds' = <[oi := o']> cmds
    /\ typeOf o' = typeOf o /\ xy o' = xy o
    /\ (key = c1 -> xy2 o' = xy2 o)
    /\ (key <> c1 -> xy1 o' = xy1 o).
Proof.
  unfold Editor.mirrorOpposite. intros H.
  apply bind_Ok in H as (a & Ha & H).
  apply bind_Ok in H as (o & Ho & H). apply orThrow_Ok in Ho.
  apply bind_Ok in H as ([ax ay] & _ & H).
  apply bind_Ok in H as ([ox oy] & _ & H).
  rewrite !jsdiv_lock_length in H. simpl in H.
  apply bind_Ok in H as (o' & Ho' & H). apply orThrow_Ok in Ho'.
  injection H as <-. exists o, o'. split; [exact Ho|]. split; [reflexivity|].
  destruct key.
  - apply set_xy2_Some in Ho' as (Ht & _ & Hxy & Hxy1).
    repeat split; try assumption; congruence.
  - apply set_xy1_Some in Ho' as (Ht & _ & Hxy & Hxy2).
    repeat split; try assumption; congruence.
  - apply set_xy2_Some in Ho' as (Ht & _ & Hxy & Hxy1).
    repeat split; try assumption; congruence.
  - apply set_xy2_Some in Ho' as (Ht & _ & Hxy & Hxy1).
    repeat split; try assumption; congruence.
Qed.

(** [prevCurve] answers an index at or before the one it starts from. *)
Lemma prevCurve_le (cmds : list Command) (k pi : nat) :
  Editor.prevCurve cmds k = Ok (Some pi) -> (pi <= k)%nat.
Proof.
  induction k as [|k IH]; simpl; destruct (cmds !! _) as [c|];
    try discriminate; destruct (isC c); intros [= <-] || intros H;
    try lia; try discriminate.
  apply IH in H. lia.
Qed.

(** The shape of a successful [setPoint]: the command [c] at the index is
    replaced by [c'] of the same type, with the point set; then at most one
    more command, [o], is replaced by [o'] of the same type, and when that
    is the command at the index again, the point set stays. *)
Lemma setPoint_Ok_shape (ref : PointRef) (x y : R) (lock : bool)
    (cmds cmds' : list Command) :
  Editor.setPoint ref x y lock cmds = Ok cmds' ->
  exists c c',
    cmds !! index ref = Some c
    /\ typeOf c' = typeOf c
    /\ pointOf (type ref) c' = Some (x, y)
    /\ (cmds' = <[index ref := c']> cmds
        \/ exists oi o o',
            <[index ref := c']> cmds !! oi = Some o
            /\ cmds' = <[oi := o']> (<[index ref := c']> cmds)
            /\ typeOf o' = typeOf o
            /\ (oi = index ref ->
                pointOf (type ref) o' = pointOf (type ref) o)).
Proof.
  destruct ref as [i t]. unfold Editor.setPoint. cbn [index type]. intros H.
  apply bind_Ok in H as (c & Hc & H). apply orThrow_Ok in Hc.
  assert (Hcontrol : forall c',
    (match t with c2 => set_xy2 x y c | _ => set_xy1 x y c end) = Some c' ->
    t <> anchor ->
    (if lock
     then do target <- Editor.lockTarget (<[i := c']> cmds)
                         {| index := i; type := t |};
          match target with
          | Some (ai, (oi, key)) =>
              Editor.mirrorOpposite x y ai oi key (<[i := c']> cmds)
          | None => Ok (<[i := c']> cmds)
          end
     else Ok (<[i := c']> cmds)) = Ok cmds' ->
    exists c0 c',
      Some c = Some c0 /\ typeOf c' = typeOf c0
      /\ pointOf t c' = Some (x, y)
      /\ (cmds' = <[i := c']> cmds
          \/ exists oi o o',
              <[i := c']> cmds !! oi = Some o
              /\ cmds' = <[oi := o']> (<[i := c']> cmds)
              /\ typeOf o' = typeOf o
              /\ (oi = i -> pointOf t o' = pointOf t o))).
  { intros c' Hset Hna H'. exists c, c'. split; [reflexivity|].
    assert (Hc' : typeOf c' = typeOf c /\ pointOf t c' = Some (x, y)).
    { destruct t; try congruence;
        [apply set_xy1_Some in Hset|apply set_xy2_Some in Hset
        |apply set_xy1_Some in Hset]; destruct Hset as (? & ? & _);
        split; assumption. }
    destruct Hc' as [Ht Hp]. split; [exact Ht|]. split; [exact Hp|].
    destruct lock; [|left; congruence].
    apply bind_Ok in H' as (target & Htarget & H').
    destruct target as [[ai [oi key]]|]; [|left; congruence].
    right. apply mirrorOpposite_Ok in H'
      as (o & o' & Ho & -> & Hto & Hxy & Hk1 & Hk2).
    exists oi, o, o'. split; [exact Ho|]. split; [reflexivity|].
    split; [exact Hto|]. intros ->.
    unfold Editor.lockTarget in Htarget. cbn [index type] in Htarget.
    destruct t; try congruence.
    - apply bind_Ok in Htarget as ([pi|] & _ & Htarget); [|discriminate].
      apply Hk2. congruence.
    - destruct (Editor.nextCurve _ i) as [ni|] eqn:Hn; [|discriminate].
      apply nextCurve_Some in Hn as [Hlt _].
      assert (ni = i) by congruence. lia. }
  destruct t.
  - apply bind_Ok in H as ([cx cy] & Hxy & H). apply orThrow_Ok in Hxy.
    apply bind_Ok in H as (moved & Hmoved & H). apply orThrow_Ok in Hmoved.
    apply set_xy_Some in Hmoved as (Ht & Hp & _).
    set (moved' := match moved with
                   | CmdC x1 y1 x2 y2 ax ay =>
                       CmdC x1 y1 (x2 + (x - cx)) (y2 + (y - cy)) ax ay
                   | other => other
                   end) in *.
    assert (Hm : typeOf moved' = typeOf c /\ xy moved' = Some (x, y)).
    { rewrite <- Ht, <- Hp. destruct moved; split; reflexivity. }
    destruct Hm as [Ht' Hp'].
    exists c, moved'. split; [exact Hc|]. split; [exact Ht'|].
    split; [exact Hp'|].
    destruct (Editor.nextCurve _ i) as [ni|] eqn:Hn; [|left; congruence].
    right. apply bind_Ok in H as (n & Hnl & H). apply orThrow_Ok in Hnl.
    apply bind_Ok in H as ([nx1 ny1] & _ & H).
    apply bind_Ok in H as (n' & Hn' & H). apply orThrow_Ok in Hn'.
    injection H as <-. apply set_xy1_Some in Hn' as (Htn & _).
    exists ni, n, n'. split; [exact Hnl|]. split; [reflexivity|].
    split; [exact Htn|]. intros ->.
    apply nextCurve_Some in Hn as [Hlt _]. lia.
  - apply bind_Ok in H as (c' & Hset & H). apply orThrow_Ok in Hset.
    destruct (Hcontrol c' Hset ltac:(discriminate) H)
      as (c0 & c'' & [= <-] & Hrest). eauto.
  - apply bind_Ok in H as (c' & Hset & H). apply orThrow_Ok in Hset.
    destruct (Hcontrol c' Hset ltac:(discriminate) H)
      as (c0 & c'' & [= <-] & Hrest). eauto.
  - apply bind_Ok in H as (c' & Hset & H). apply orThrow_Ok in Hset.
    destruct (Hcontrol c' Hset ltac:(discriminate) H)
      as (c0 & c'' & [= <-] & Hrest). eauto.
Qed.

Lemma setPoint_getPoint (ref : PointRef) (x y : R) (lock : bool)
    (cmds cmds' : list Command) :
  Editor.setPoint ref x y lock cmds = Ok cmds' ->
  Events.getPoint cmds' ref = Ok (x, y).
Proof.
  intros H. apply setPoint_Ok_shape in H
    as (c & c' & Hc & Ht & Hp & [->|(oi & o & o' & Ho & -> & Hto & Hsame)]).
  - rewrite getPoint_pointOf.
    rewrite list_lookup_insert_eq by (apply lookup_lt_is_Some; eauto).
    simpl. rewrite Hp. reflexivity.
  - assert (Hi : (index ref < length cmds)%nat)
      by (apply lookup_lt_is_Some; eauto).
    rewrite getPoint_pointOf.
    destruct (Nat.eq_dec oi (index ref)) as [E|E].
    + rewrite E in *.
      rewrite list_lookup_insert_eq in Ho by exact Hi. injection Ho as <-.
      rewrite list_lookup_insert_eq by (rewrite length_insert; exact Hi).
      simpl. rewrite (Hsame eq_refl), Hp. reflexivity.
    + rewrite list_lookup_insert_ne by exact E.
      rewrite list_lookup_insert_eq by exact Hi.
      simpl. rewrite Hp. reflexivity.
Qed.

Lemma setPoint_types (ref : PointRef) (x y : R) (lock : bool)
    (cmds cmds' : list Command) :
  Editor.setPoint ref x y lock cmds = Ok cmds' ->
  map typeOf cmds' = map typeOf cmds.
Proof.
  intros H. apply setPoint_Ok_shape in H
    as (c & c' & Hc & Ht & _ & [->|(oi & o & o' & Ho & -> & Hto & _)]).
  - apply (map_typeOf_insert cmds _ c c'); assumption.
  - rewrite (map_typeOf_insert _ oi o o') by assumption.
    apply (map_typeOf_insert cmds _ c c'); assumption.
Qed.

(** X7.  A successful [setPoint], with or without the lock, leaves the point
    it was asked to set at [(x, y)]: [getPoint] of the same reference reads
    it back. *)
Theorem setPoint_then_getPoint (ref : PointRef) (x y : R) (lock : bool)
    (cmds cmds' : list Command) :
  Editor.setPoint ref x y lock cmds = Ok cmds' ->
  Events.getPoint cmds' ref = Ok (x, y).
Proof. apply setPoint_getPoint. Qed.

(** X7 on two curves: the first control point of the second curve is set
    with the lock on, which also rewrites its second control point. *)
Lemma setPoint_then_getPoint_witness :
  exists cmds',
    Editor.setPoint {| index := 2; type := c1 |} 57 4 true twoCurves = Ok cmds'
    /\ Events.getPoint cmds' {| index := 2; type := c1 |} = Ok (57, 4).
Proof.
  destruct (Editor.setPoint {| index := 2; type := c1 |} 57 4 true twoCurves)
    as [cmds'|e] eqn:H.
  - exists cmds'. split; [reflexivity|].
    apply (setPoint_then_getPoint _ 57 4 true twoCurves cmds' H).
  - exfalso. revert H.
    rewrite (setPoint_c1_lock twoCurves 2 40 0 50 0 60 0 57 4 eq_refl).
    discriminate.
Defined.

(** X8.  [setPoint] never adds, removes or retypes a command: after a
    successful call the path has the same command types in the same
    order. *)
Theorem setPoint_keeps_types (ref : PointRef) (x y : R) (lock : bool)
    (cmds cmds' : list Command) :
  Editor.setPoint ref x y lock cmds = Ok cmds' ->
  map typeOf cmds' = map typeOf cmds /\ length cmds' = length cmds.
Proof.
  intros H. pose proof (setPoint_types _ _ _ _ _ _ H) as Ht.
  split; [exact Ht|].
  rewrite <- (length_map typeOf cmds'), Ht. apply length_map.
Qed.

(** X8 on two curves, for an anchor between them. *)
Lemma setPoint_keeps_types_witness :
  exists cmds',
    Editor.setPoint {| index := 1; type := anchor |} 35 5 true twoCurves
      = Ok cmds'
    /\ map typeOf cmds' = [typeM; typeC; typeC].
Proof.
  eexists. split; [reflexivity|].
  eapply (proj1 (setPoint_keeps_types {| index := 1; type := anchor |}
                   35 5 true twoCurves _ eq_refl)).
Defined.

Lemma prevCurve_in_range (cmds : list Command) (k : nat) :
  (k < length cmds)%nat -> exists r, Editor.prevCurve cmds k = Ok r.
Proof.
  induction k as [|k IH]; intros Hk; simpl;
    destruct (lookup_lt_is_Some_2 cmds _ Hk) as [c ->];
    destruct (isC c); eauto.
  apply IH. lia.
Qed.

Lemma mirrorOpposite_in_range (x y : R) (ai oi : nat) (key : PointType)
    (cmds : list Command) :
  is_Some (cmds !! ai) -> is_Some (cmds !! oi) ->
  Editor.mirrorOpposite x y ai oi key cmds <> Err TypeError.
Proof.
  intros [a Ha] [o Ho]. unfold Editor.mirrorOpposite. rewrite Ha, Ho. simpl.
  destruct (xy a) as [[ax ay]|]; simpl; [|discriminate].
  destruct (match key with c1 => xy1 o | _ => xy2 o end) as [[ox oy]|];
    simpl; [|discriminate].
  rewrite !jsdiv_lock_length. simpl.
  destruct (match key with c1 => set_xy1 _ _ o | _ => set_xy2 _ _ o end);
    simpl; discriminate.
Qed.

(** X9.  [setPoint] throws exactly when the reference points past the end
    of the path: an index inside the path never makes it read a missing
    command, with any reference type and with or without the lock. *)
Theorem setPoint_throws_iff_out_of_range
    (ref : PointRef) (x y : R) (lock : bool) (cmds : list Command) :
  Editor.setPoint ref x y lock cmds = Err TypeError <->
  (length cmds <= index ref)%nat.
Proof.
  destruct ref as [i t]. cbn [index]. split.
  - intros H. destruct (Nat.le_gt_cases (length cmds) i) as [Hle|Hlt];
      [exact Hle|exfalso].
    destruct (lookup_lt_is_Some_2 cmds i Hlt) as [c Hc].
    revert H. unfold Editor.setPoint. cbn [index type]. rewrite Hc. simpl.
    assert (Hcontrol : forall c' : Command,
      (if lock
       then do target <- Editor.lockTarget (<[i := c']> cmds)
                           {| index := i; type := t |};
            match target with
            | Some (ai, (oi, key)) =>
                Editor.mirrorOpposite x y ai oi key (<[i := c']> cmds)
            | None => Ok (<[i := c']> cmds)
            end
       else Ok (<[i := c']> cmds)) <> Err TypeError).
    { intros c'. destruct lock; [|discriminate].
      assert (Hi : (i < length (<[i := c']> cmds))%nat)
        by (rewrite length_insert; exact Hlt).
      unfold Editor.lockTarget. cbn [index type]. destruct t; simpl;
        try discriminate.
      - destruct (prevCurve_in_range _ i Hi) as [[pi|] Hp]; rewrite Hp; simpl;
          [|discriminate].
        apply prevCurve_le in Hp.
        apply mirrorOpposite_in_range; apply lookup_lt_is_Some; lia.
      - destruct (Editor.nextCurve _ i) as [ni|] eqn:Hn; simpl; [|discriminate].
        apply nextCurve_Some in Hn as [_ (? & ? & ? & ? & ? & ? & Hni)].
        apply mirrorOpposite_in_range; [apply lookup_lt_is_Some; lia|eauto]. }
    destruct t.
    + destruct (xy c) as [[cx cy]|]; simpl; [|discriminate].
      destruct (set_xy x y c) as [moved|]; simpl; [|discriminate].
      destruct (Editor.nextCurve _ i) as [ni|] eqn:Hn; [|discriminate].
      apply nextCurve_Some in Hn as [_ (? & ? & ? & ? & ? & ? & ->)].
      simpl. discriminate.
    + destruct (set_xy1 x y c) as [c'|]; simpl; [apply Hcontrol|discriminate].
    + destruct (set_xy2 x y c) as [c'|]; simpl; [apply Hcontrol|discriminate].
    + destruct (set_xy1 x y c) as [c'|]; simpl; [apply Hcontrol|discriminate].
  - intros Hle. unfold Editor.setPoint. cbn [index].
    rewrite (lookup_ge_None_2 cmds i Hle). reflexivity.
Qed.

(** X9 on two curves: index 3 is past the end, index 2 is not. *)
Lemma setPoint_throws_iff_out_of_range_witness :
  Editor.setPoint {| index := 3; type := c2 |} 1 1 true twoCurves
    = Err TypeError
  /\ Editor.setPoint {| index := 2; type := c2 |} 1 1 true twoCurves
       <> Err TypeError.
Proof.
  split.
  - apply setPoint_throws_iff_out_of_range. simpl. lia.
  - intros H. apply setPoint_throws_iff_out_of_range in H. simpl in H. lia.
Defined.

(** ** Editor: anchor moves compose *)

Lemma scanCurve_same_types (d d' : list Command) (k : nat) :
  map typeOf d = map typeOf d' -> Editor.scanCurve d k = Editor.scanCurve d' k.
Proof.
  revert d' k. induction d as [|a d IH]; intros [|b d'] k Hd;
    simpl in *; try discriminate; [reflexivity|].
  injection Hd as Hab Hd.
  replace (isC a) with (isC b) by (destruct a, b; simpl in *; congruence).
  destruct (isC b); [reflexivity|]. apply IH. exact Hd.
Qed.

(** [nextCurve] only looks at the types of the commands. *)
Lemma nextCurve_same_types (l l' : list Command) (i : nat) :
  map typeOf l = map typeOf l' -> Editor.nextCurve l i = Editor.nextCurve l' i.
Proof.
  intros H. unfold Editor.nextCurve. apply scanCurve_same_types.
  rewrite <- !skipn_map, H. reflexivity.
Qed.

Lemma anchorMoved_xy (x y dx dy ax ay : R) (c : Command) :
  xy c = Some (ax, ay) -> xy (anchorMoved x y dx dy c) = Some (x, y).
Proof. destruct c; simpl; intros [=]; reflexivity. Qed.

(** The path a successful anchor move leaves, in closed form. *)
Lemma setPoint_anchor_result (cmds : list Command) (i : nat) (c : Command)
    (ax ay x y : R) (lock : bool) :
  cmds !! i = Some c ->
  xy c = Some (ax, ay) ->
  Editor.setPoint {| index := i; type := anchor |} x y lock cmds =
  Ok (match Editor.nextCurve cmds i with
      | Some ni =>
          alter (c1Shifted (x - ax) (y - ay)) ni
            (<[i := anchorMoved x y (x - ax) (y - ay) c]> cmds)
      | None => <[i := anchorMoved x y (x - ax) (y - ay) c]> cmds
      end).
Proof.
  intros Hc Hxy. unfold Editor.setPoint. cbn [index type]. rewrite Hc. simpl.
  rewrite Hxy. simpl.
  assert (Hmoved : exists moved,
    set_xy x y c = Some moved /\
    match moved with
    | CmdC x1 y1 x2 y2 bx by_ =>
        CmdC x1 y1 (x2 + (x - ax)) (y2 + (y - ay)) bx by_
    | other => other
    end = anchorMoved x y (x - ax) (y - ay) c).
  { destruct c; simpl in *; try discriminate; eauto. }
  destruct Hmoved as (moved & Hs & Hm). rewrite Hs. simpl. rewrite Hm.
  rewrite nextCurve_insert by lia.
  destruct (Editor.nextCurve cmds i) as [ni|] eqn:Hn; [|reflexivity].
  destruct (nextCurve_Some _ _ _ Hn) as [Hlt (a1 & b1 & a2 & b2 & a & b & Hni)].
  rewrite list_lookup_insert_ne by lia. rewrite Hni. simpl. f_equal.
  apply list_eq. intros j. destruct (Nat.eq_dec ni j) as [<-|E].
  - rewrite list_lookup_insert_eq
      by (rewrite length_insert; apply lookup_lt_is_Some; eauto).
    rewrite list_lookup_alter_eq, list_lookup_insert_ne by lia.
    rewrite Hni. reflexivity.
  - rewrite list_lookup_alter_ne by exact E.
    apply list_lookup_insert_ne. exact E.
Qed.

Lemma anchorMoved_twice (x1 y1 x2 y2 ax ay : R) (c : Command) :
  anchorMoved x2 y2 (x2 - x1) (y2 - y1)
    (anchorMoved x1 y1 (x1 - ax) (y1 - ay) c) =
  anchorMoved x2 y2 (x2 - ax) (y2 - ay) c.
Proof. destruct c; simpl; f_equal; ring. Qed.

Lemma c1Shifted_twice (x1 y1 x2 y2 ax ay : R) (c : Command) :
  c1Shifted (x2 - x1) (y2 - y1) (c1Shifted (x1 - ax) (y1 - ay) c) =
  c1Shifted (x2 - ax) (y2 - ay) c.
Proof. destruct c; simpl; f_equal; ring. Qed.

(** X10.  Anchor moves compose: moving the anchor of command [i] to
    [(x1, y1)] and then to [(x2, y2)] leaves the same path as moving it to
    [(x2, y2)] at once, whatever the lock flags; and moving it to the place
    where it is leaves the path as it was.  So a move followed by the move
    back restores every coordinate. *)
Theorem setPoint_anchor_moves_compose
    (cmds : list Command) (i : nat) (c : Command) (ax ay : R) :
  cmds !! i = Some c ->
  xy c = Some (ax, ay) ->
  (forall x1 y1 x2 y2 lock1 lock2 lock3,
      (do moved <- Editor.setPoint {| index := i; type := anchor |}
                     x1 y1 lock1 cmds;
       Editor.setPoint {| index := i; type := anchor |} x2 y2 lock2 moved) =
      Editor.setPoint {| index := i; type := anchor |} x2 y2 lock3 cmds)
  /\ (forall lock,
        Editor.setPoint {| index := i; type := anchor |} ax ay lock cmds
        = Ok cmds).
Proof.
  intros Hc Hxy.
  assert (Hi : (i < length cmds)%nat) by (apply lookup_lt_is_Some; eauto).
  split.
  - intros x1 y1 x2 y2 lock1 lock2 lock3.
    pose proof (setPoint_anchor_result cmds i c ax ay x1 y1 lock1 Hc Hxy)
      as H1.
    rewrite H1. cbn [bind].
    pose proof (setPoint_types _ _ _ _ _ _ H1) as Ht.
    set (cmds1 := match Editor.nextCurve cmds i with
                  | Some ni => alter _ ni _ | None => _ end) in *.
    assert (Hc1 : cmds1 !! i =
                  Some (anchorMoved x1 y1 (x1 - ax) (y1 - ay) c)).
    { unfold cmds1. destruct (Editor.nextCurve cmds i) as [ni|] eqn:Hn.
      - apply nextCurve_Some in Hn as [Hlt _].
        rewrite list_lookup_alter_ne by lia.
        apply list_lookup_insert_eq. exact Hi.
      - apply list_lookup_insert_eq. exact Hi. }
    rewrite (setPoint_anchor_result cmds1 i _ x1 y1 x2 y2 lock2 Hc1
               (anchorMoved_xy _ _ _ _ _ _ _ Hxy)).
    rewrite (setPoint_anchor_result cmds i c ax ay x2 y2 lock3 Hc Hxy).
    rewrite (nextCurve_same_types cmds1 cmds i Ht).
    rewrite anchorMoved_twice. f_equal. unfold cmds1.
    destruct (Editor.nextCurve cmds i) as [ni|] eqn:Hn.
    + apply nextCurve_Some in Hn as [Hlt _].
      apply list_eq. intros j. destruct (Nat.eq_dec ni j) as [<-|E].
      * rewrite !list_lookup_alter_eq.
        rewrite !list_lookup_insert_ne by lia.
        rewrite list_lookup_alter_eq, list_lookup_insert_ne by lia.
        destruct (cmds !! ni) as [n|]; simpl; [|reflexivity].
        rewrite c1Shifted_twice. reflexivity.
      * rewrite !list_lookup_alter_ne by exact E.
        destruct (Nat.eq_dec i j) as [<-|E'].
        -- rewrite !list_lookup_insert_eq;
             rewrite ?length_alter, ?length_insert; auto.
        -- rewrite !list_lookup_insert_ne by exact E'.
           rewrite list_lookup_alter_ne by exact E.
           apply list_lookup_insert_ne. exact E'.
    + apply list_insert_insert_eq.
  - intros lock.
    rewrite (setPoint_anchor_result cmds i c ax ay ax ay lock Hc Hxy).
    assert (Hsame : anchorMoved ax ay (ax - ax) (ay - ay) c = c).
    { destruct c; simpl in *; try discriminate; injection Hxy as -> ->;
        f_equal; ring. }
    rewrite Hsame, (list_insert_id cmds i c Hc). f_equal.
    destruct (Editor.nextCurve cmds i) as [ni|]; [|reflexivity].
    apply list_alter_id. intros n. destruct n; simpl; f_equal; ring.
Qed.

(** X10 on two curves: the anchor between them goes away and comes
    back. *)
Lemma setPoint_anchor_moves_compose_witness :
  (do moved <- Editor.setPoint {| index := 1; type := anchor |}
                 35 5 false twoCurves;
   Editor.setPoint {| index := 1; type := anchor |} 30 0 false moved)
  = Ok twoCurves.
Proof.
  destruct (setPoint_anchor_moves_compose
              twoCurves 1 (CmdC 10 0 20 0 30 0) 30 0 eq_refl eq_refl)
    as [Hcompose Hstay].
  rewrite (Hcompose 35 5 30 0 false false false). apply Hstay.
Defined.

(** ** Editor: hit testing *)

Lemma hitCommand_Some (r mx my : R) (i : nat) (c : Command) (ref : PointRef) :
  Events.hitCommand r mx my i c = Some ref ->
  index ref = i /\ fits (type ref) c
  /\ exists px py,
      pointOf (type ref) c = Some (px, py) /\ dist mx my px py < r.
Proof.
  destruct c; simpl;
    repeat match goal with
           | |- context [Rlt_dec ?a ?b] => destruct (Rlt_dec a b)
           end;
    intros [= <-]; simpl; eauto 10.
Qed.

Lemma hitCommand_None (r mx my : R) (i : nat) (c : Command) :
  Events.hitCommand r mx my i c = None <->
  Forall (beyond r mx my) (pointsOf c).
Proof.
  unfold beyond. destruct c; simpl;
    repeat match goal with
           | |- context [Rlt_dec ?a ?b] => destruct (Rlt_dec a b)
           end;
    split; intros H; try discriminate; try reflexivity;
    repeat constructor; simpl; try assumption;
    repeat match goal with
           | H : Forall _ (_ :: _) |- _ => inversion H; clear H; subst
           end; simpl in *; contradiction.
Qed.

(** An anchor is answered only when the control points are out of reach. *)
Lemma hitCommand_anchor (r mx my : R) (i : nat) (c : Command)
    (ref : PointRef) :
  Events.hitCommand r mx my i c = Some ref -> type ref = anchor ->
  forall p, xy1 c = Some p \/ xy2 c = Some p -> beyond r mx my p.
Proof.
  unfold beyond. destruct c; simpl;
    repeat match goal with
           | |- context [Rlt_dec ?a ?b] => destruct (Rlt_dec a b)
           end;
    intros [= <-]; simpl; try discriminate;
    intros _ p [[= <-]|[= <-]]; assumption.
Qed.

Lemma hitScan_Some (cmds : list Command) (r mx my : R) (n : nat)
    (ref : PointRef) :
  Events.hitScan cmds r mx my n = Some ref ->
  (index ref < n)%nat
  /\ exists c,
      cmds !! index ref = Some c
      /\ Events.hitCommand r mx my (index ref) c = Some ref
      /\ forall j c', (index ref < j < n)%nat -> cmds !! j = Some c' ->
                      Events.hitCommand r mx my j c' = None.
Proof.
  induction n as [|n IH]; simpl; [discriminate|].
  destruct (cmds !! n) as [c|] eqn:Hc; [|discriminate].
  destruct (Events.hitCommand r mx my n c) as [ref'|] eqn:Hh.
  - intros [= <-]. destruct (hitCommand_Some _ _ _ _ _ _ Hh) as [Hi _].
    rewrite Hi. split; [lia|]. exists c. split; [exact Hc|].
    split; [exact Hh|]. intros j c' Hj. lia.
  - intros H. destruct (IH H) as (Hlt & c0 & Hc0 & Hh0 & Habove).
    split; [lia|]. exists c0. split; [exact Hc0|]. split; [exact Hh0|].
    intros j c' Hj Hc'. destruct (Nat.eq_dec j n) as [->|E].
    + congruence.
    + apply (Habove j c'); [lia|exact Hc'].
Qed.

Lemma hitScan_None (cmds : list Command) (r mx my : R) (n : nat) :
  (n <= length cmds)%nat ->
  (Events.hitScan cmds r mx my n = None <->
   forall j c, (j < n)%nat -> cmds !! j = Some c ->
               Events.hitCommand r mx my j c = None).
Proof.
  induction n as [|n IH]; intros Hn; simpl.
  - split; [intros _ j c Hj; lia|reflexivity].
  - destruct (lookup_lt_is_Some_2 cmds n) as [c Hc]; [lia|]. rewrite Hc.
    destruct (Events.hitCommand r mx my n c) as [ref|] eqn:Hh.
    + split; [discriminate|]. intros H.
      rewrite (H n c) in Hh by (try lia; assumption). discriminate.
    + rewrite IH by lia. split; intros H j c' Hj Hc'.
      * destruct (Nat.eq_dec j n) as [->|E]; [congruence|].
        apply H; [lia|exact Hc'].
      * apply H; [lia|exact Hc'].
Qed.

(** A reference that fits its command can always be set. *)
Lemma setPoint_fits (cmds : list Command) (i : nat) (t : PointType)
    (c : Command) (x y : R) (lock : bool) :
  cmds !! i = Some c -> fits t c ->
  exists cmds', Editor.setPoint {| index := i; type := t |} x y lock cmds
                = Ok cmds'.
Proof.
  intros Hc Hfit.
  assert (Hi : (i < length cmds)%nat) by (apply lookup_lt_is_Some; eauto).
  destruct t.
  - destruct (xy c) as [[ax ay]|] eqn:Hxy.
    + rewrite (setPoint_anchor_result cmds i c ax ay x y lock Hc Hxy). eauto.
    + destruct c; simpl in *; try discriminate; contradiction.
  - destruct c; simpl in Hfit; try contradiction. destruct lock.
    + rewrite (setPoint_c1_lock cmds i _ _ _ _ _ _ x y Hc). eauto.
    + unfold Editor.setPoint. cbn [index type]. rewrite Hc. simpl. eauto.
  - destruct c; simpl in Hfit; try contradiction. destruct lock.
    + destruct (Editor.nextCurve cmds i) as [ni|] eqn:Hn.
      * destruct (nextCurve_Some _ _ _ Hn) as [_ (a1 & b1 & a2 & b2 & a & b & Hni)].
        rewrite (setPoint_c2_lock cmds i ni _ _ _ _ _ _ _ _ _ _ _ _ x y
                   Hc Hn Hni). eauto.
      * unfold Editor.setPoint, Editor.lockTarget. cbn [index type].
        rewrite Hc. simpl. rewrite nextCurve_insert by lia. rewrite Hn.
        simpl. eauto.
    + unfold Editor.setPoint. cbn [index type]. rewrite Hc. simpl. eauto.
  - destruct c; simpl in Hfit; try contradiction.
    unfold Editor.setPoint. cbn [index type]. rewrite Hc. simpl.
    destruct lock; simpl; eauto.
Qed.

Lemma pointHit_Some (ed : Events.EditorState) (cmds : list Command)
    (mx my hit : R) (ref : PointRef) :
  Events.pointHit ed cmds mx my hit = Ok (Some ref) ->
  Events.camZ (Events.cam ed) <> 0
  /\ exists c px py,
      cmds !! index ref = Some c
      /\ fits (type ref) c
      /\ Events.hitCommand (hit / Events.camZ (Events.cam ed)) mx my
           (index ref) c = Some ref
      /\ Events.getPoint cmds ref = Ok (px, py)
      /\ dist mx my px py < hit / Events.camZ (Events.cam ed)
      /\ forall j c', (index ref < j)%nat -> cmds !! j = Some c' ->
                      Forall (beyond (hit / Events.camZ (Events.cam ed)) mx my)
                        (pointsOf c').
Proof.
  unfold Events.pointHit, jsdiv.
  destruct (Req_dec_T (Events.camZ (Events.cam ed)) 0) as [E|E];
    simpl; [discriminate|].
  intros [= H]. split; [exact E|].
  apply hitScan_Some in H as (Hlt & c & Hc & Hh & Habove).
  destruct (hitCommand_Some _ _ _ _ _ _ Hh) as (_ & Hfit & px & py & Hp & Hd).
  exists c, px, py. split; [exact Hc|]. split; [exact Hfit|].
  split; [exact Hh|]. split.
  { rewrite getPoint_pointOf, Hc. simpl. rewrite Hp. reflexivity. }
  split; [exact Hd|].
  intros j c' Hj Hc'. apply (hitCommand_None _ _ _ j).
  apply Habove; [|exact Hc']. split; [exact Hj|].
  apply lookup_lt_is_Some. eauto.
Qed.

(** X11.  A reference [pointHit] answers is usable: its command exists,
    the point it names is read by [getPoint] and lies within the radius
    [hit / cam.z] of the pointer, and [setPoint] on it succeeds for every
    target, with or without the lock. *)
Theorem pointHit_answers_usable_reference
    (ed : Events.EditorState) (cmds : list Command) (mx my hit : R)
    (ref : PointRef) :
  Events.pointHit ed cmds mx my hit = Ok (Some ref) ->
  (exists px py,
      Events.getPoint cmds ref = Ok (px, py)
      /\ dist mx my px py < hit / Events.camZ (Events.cam ed))
  /\ (forall x y lock, exists cmds',
        Editor.setPoint ref x y lock cmds = Ok cmds').
Proof.
  intros H. apply pointHit_Some in H
    as (_ & c & px & py & Hc & Hfit & _ & Hg & Hd & _).
  split; [eauto|]. intros x y lock. destruct ref as [i t].
  apply (setPoint_fits cmds i t c x y lock Hc Hfit).
Qed.

(** X12.  [pointHit] answers the topmost point in reach.  With a non-zero
    zoom it answers nothing exactly when no point of any command, control
    points included, is within the radius; when it answers a reference,
    every point of every later command is out of reach, and when the
    reference is an anchor so are the control points of its own command. *)
Theorem pointHit_answers_topmost
    (ed : Events.EditorState) (cmds : list Command) (mx my hit : R) :
  Events.camZ (Events.cam ed) <> 0 ->
  let r := hit / Events.camZ (Events.cam ed) in
  (Events.pointHit ed cmds mx my hit = Ok None <->
   forall j c, cmds !! j = Some c -> Forall (beyond r mx my) (pointsOf c))
  /\ (forall ref,
        Events.pointHit ed cmds mx my hit = Ok (Some ref) ->
        (forall j c, (index ref < j)%nat -> cmds !! j = Some c ->
                     Forall (beyond r mx my) (pointsOf c))
        /\ (type ref = anchor ->
            forall c p, cmds !! index ref = Some c ->
                        xy1 c = Some p \/ xy2 c = Some p ->
                        beyond r mx my p)).
Proof.
  intros Hz r. split.
  - unfold Events.pointHit, jsdiv.
    destruct (Req_dec_T (Events.camZ (Events.cam ed)) 0) as [E|_];
      [contradiction|]. simpl. fold r. split.
    + intros [= H] j c Hc. apply (hitCommand_None _ _ _ j).
      apply (proj1 (hitScan_None cmds r mx my (length cmds) (Nat.le_refl _)) H
               j c); [apply lookup_lt_is_Some; eauto|exact Hc].
    + intros H. f_equal.
      apply (hitScan_None cmds r mx my (length cmds) (Nat.le_refl _)).
      intros j c _ Hc. apply hitCommand_None. apply (H j c Hc).
  - intros ref H. apply pointHit_Some in H
      as (_ & c & px & py & Hc & _ & Hh & _ & _ & Habove).
    split; [exact Habove|].
    intros Ha c0 p Hc0 Hp. rewrite Hc in Hc0. injection Hc0 as <-.
    apply (hitCommand_anchor _ _ _ _ _ _ Hh Ha p Hp).
Qed.

(** The distance between two points on one horizontal line. *)
Lemma dist_root (x1 y1 x2 y2 r : R) :
  0 <= r -> (x2 - x1) * (x2 - x1) + (y2 - y1) * (y2 - y1) = r * r ->
  dist x1 y1 x2 y2 = r.
Proof. intros Hr H. unfold dist. apply hypot_root; assumption. Qed.

(** The hit test of [sampleEditor] at the world point [(mx, my)] =
    [(60, 0)]: of the second curve of [twoCurves] the control points are 20
    and 10 away, out of the radius 10, and the anchor is under the
    pointer. *)
Lemma pointHit_twoCurves (mx my : R) :
  mx = 60 -> my = 0 ->
  Events.pointHit sampleEditor twoCurves mx my 10 =
  Ok (Some {| index := 2; type := anchor |}).
Proof.
  intros Hx Hy. unfold Events.pointHit, jsdiv. simpl.
  destruct (Req_dec_T 1 0) as [E|_]; [lra|]. simpl.
  rewrite (dist_root mx my 40 0 20), (dist_root mx my 50 0 10),
    (dist_root mx my 60 0 0) by (subst; first [lra|ring]).
  destruct (Rlt_dec 20 (10 / 1)) as [H|_]; [lra|].
  destruct (Rlt_dec 10 (10 / 1)) as [H|_]; [lra|].
  destruct (Rlt_dec 0 (10 / 1)) as [_|H]; [reflexivity|lra].
Qed.

(** X11 on two curves, the pointer on the last anchor. *)
Lemma pointHit_answers_usable_reference_witness :
  exists cmds',
    Editor.setPoint {| index := 2; type := anchor |} 70 5 true twoCurves
    = Ok cmds'.
Proof.
  destruct (pointHit_answers_usable_reference sampleEditor twoCurves 60 0 10
              {| index := 2; type := anchor |}
              (pointHit_twoCurves 60 0 eq_refl eq_refl)) as [_ Hset].
  apply Hset.
Defined.

(** X12 on two curves: the anchor answered at [(60, 0)] has its control
    point [(50, 0)] out of reach. *)
Lemma pointHit_answers_topmost_witness :
  beyond (10 / 1) 60 0 (50, 0).
Proof.
  destruct (pointHit_answers_topmost sampleEditor twoCurves 60 0 10)
    as [_ Htop].
  { simpl. lra. }
  destruct (Htop {| index := 2; type := anchor |}
              (pointHit_twoCurves 60 0 eq_refl eq_refl)) as [_ Hanchor].
  apply (Hanchor eq_refl (CmdC 40 0 50 0 60 0) (50, 0) eq_refl).
  right. reflexivity.
Defined.

(** ** Editor: pressing and selecting *)

Lemma sameRef_true (s t : PointRef) : Events.sameRef s t = true <-> s = t.
Proof.
  destruct s as [i a], t as [j b]. unfold Events.sameRef. simpl.
  rewrite andb_true_iff, Nat.eqb_eq. split.
  - intros [-> H]. destruct a, b; try discriminate; reflexivity.
  - intros [= -> ->]. split; [reflexivity|]. destruct b; reflexivity.
Qed.

Lemma isSelected_true (t : PointRef) (sel : list PointRef) :
  existsb (fun s => Events.sameRef s t) sel = true <-> In t sel.
Proof.
  rewrite existsb_exists. split.
  - intros (s & Hin & Hs). apply sameRef_true in Hs. subst. exact Hin.
  - intros Hin. exists t. split; [exact Hin|]. apply sameRef_true. reflexivity.
Qed.

Lemma sameRef_cases (s t : PointRef) : s = t \/ s <> t.
Proof.
  destruct (Events.sameRef s t) eqn:E.
  - left. apply sameRef_true. exact E.
  - right. intros H. apply sameRef_true in H. congruence.
Qed.

Lemma isSelected_cases (t : PointRef) (sel : list PointRef) :
  In t sel \/ ~ In t sel.
Proof.
  destruct (existsb (fun s => Events.sameRef s t) sel) eqn:E.
  - left. apply isSelected_true. exact E.
  - right. intros H. apply isSelected_true in H. congruence.
Qed.

Lemma In_deselected (s t : PointRef) (sel : list PointRef) :
  In s (List.filter (fun s => negb (Events.sameRef s t)) sel) <->
  In s sel /\ s <> t.
Proof.
  rewrite filter_In, negb_true_iff. split; intros [Hin H]; split;
    try exact Hin.
  - intros ->. rewrite (proj2 (sameRef_true t t) eq_refl) in H. discriminate.
  - destruct (Events.sameRef s t) eqn:E; [|reflexivity].
    apply sameRef_true in E. contradiction.
Qed.

Lemma NoDup_List_filter {A : Type} (f : A -> bool) (l : list A) :
  NoDup l -> NoDup (List.filter f l).
Proof.
  induction 1 as [|x l Hx _ IH]; simpl; [constructor|].
  destruct (f x); [|exact IH]. constructor; [|exact IH].
  intros Hin. apply Hx. apply list_elem_of_In.
  apply list_elem_of_In, filter_In in Hin. tauto.
Qed.

Lemma pressSelection_NoDup (shift : bool) (t : PointRef)
    (sel : list PointRef) :
  NoDup sel -> NoDup (Events.pressSelection shift t sel).
Proof.
  intros Hnd. unfold Events.pressSelection.
  destruct (existsb _ sel) eqn:Hsel; destruct shift; try assumption.
  - apply NoDup_List_filter. exact Hnd.
  - apply NoDup_app. split; [exact Hnd|]. split; [|apply NoDup_singleton].
    intros s Hs Hst. apply list_elem_of_singleton in Hst. subst.
    apply list_elem_of_In, isSelected_true in Hs. congruence.
  - apply NoDup_singleton.
Qed.

(** A press with shift held flips the membership of the point pressed and
    of no other. *)
Lemma pressSelection_shift_In (s t : PointRef) (sel : list PointRef) :
  In s (Events.pressSelection true t sel) <->
  (s <> t /\ In s sel) \/ (s = t /\ ~ In t sel).
Proof.
  unfold Events.pressSelection.
  destruct (existsb _ sel) eqn:Hsel.
  - apply isSelected_true in Hsel. rewrite In_deselected. tauto.
  - assert (Hnot : ~ In t sel).
    { intros H. apply isSelected_true in H. congruence. }
    rewrite in_app_iff. simpl.
    destruct (sameRef_cases s t) as [->|Hne]; [tauto|].
    split; [intros [H|[H|[]]]; [tauto|congruence]|tauto].
Qed.

(** The three ways [mousePressed] runs. *)
Lemma mousePressed_outside (mo : Events.Mouse) (m : GlyphModel)
    (ed : Events.EditorState) :
  Events.mouseInRect mo (Events.lastEditorArea ed) = false ->
  Events.mousePressed mo m ed = (Ok tt, ed).
Proof. intros H. unfold Events.mousePressed. rewrite H. reflexivity. Qed.

Lemma mousePressed_hit (mo : Events.Mouse) (m : GlyphModel)
    (ed : Events.EditorState) (mx my : R) (t : PointRef) :
  Events.mouseInRect mo (Events.lastEditorArea ed) = true ->
  Events.worldMouse ed mo (Events.lastEditorArea ed) = Ok (mx, my) ->
  Events.pointHit ed (commands (path m)) mx my 10 = Ok (Some t) ->
  exists px py,
    Events.getPoint (commands (path m)) t = Ok (px, py)
    /\ Events.mousePressed mo m ed =
       (Ok tt,
        Events.withSelected
          (Events.pressSelection (Events.shiftDown mo) t (Events.selected ed))
          (Events.withDragOff (px - mx, py - my)
             (Events.withDragMode (Events.pointDrag t) ed))).
Proof.
  intros Hin Hw Hhit.
  destruct (pointHit_Some _ _ _ _ _ _ Hhit)
    as (_ & c & px & py & _ & _ & _ & Hg & _).
  exists px, py. split; [exact Hg|].
  unfold Events.mousePressed. rewrite Hin. simpl. rewrite Hw, Hhit, Hg.
  reflexivity.
Qed.

Lemma mousePressed_miss (mo : Events.Mouse) (m : GlyphModel)
    (ed : Events.EditorState) (mx my : R) :
  Events.mouseInRect mo (Events.lastEditorArea ed) = true ->
  Events.worldMouse ed mo (Events.lastEditorArea ed) = Ok (mx, my) ->
  Events.pointHit ed (commands (path m)) mx my 10 = Ok None ->
  Events.mousePressed mo m ed =
  (Ok tt,
   Events.withDragOff (Events.mouseX mo, Events.mouseY mo)
     (Events.withDragMode Events.canvasDrag (Events.withSelected [] ed))).
Proof.
  intros Hin Hw Hhit. unfold Events.mousePressed.
  rewrite Hin. simpl. rewrite Hw, Hhit. reflexivity.
Qed.

(** X13.  The selection never holds a point twice: whatever a press does
    (outside the editor area, on a point with or without shift, on empty
    canvas), a selection without duplicates stays without duplicates, so a
    drag moves every selected point once.  A press inside the area at zoom
    0 throws nothing and hits nothing: it empties the selection and starts
    a canvas drag from the pointer position. *)
Theorem mousePressed_keeps_selection_distinct
    (mo : Events.Mouse) (m : GlyphModel) (ed : Events.EditorState) :
  (NoDup (Events.selected ed) ->
   NoDup (Events.selected (snd (Events.mousePressed mo m ed))))
  /\ (Events.camZ (Events.cam ed) = 0 ->
      Events.mouseInRect mo (Events.lastEditorArea ed) = true ->
      Events.mousePressed mo m ed =
      (Ok tt,
       Events.withDragOff (Events.mouseX mo, Events.mouseY mo)
         (Events.withDragMode Events.canvasDrag
            (Events.withSelected [] ed)))).
Proof.
  split.
  - intros Hnd. unfold Events.mousePressed.
    destruct (negb _); [exact Hnd|].
    destruct (Events.worldMouse _ _ _) as [[mx my]|e]; [|apply NoDup_nil_2].
    destruct (Events.pointHit _ _ _ _ _) as [[t|]|e];
      [| |apply NoDup_nil_2].
    + destruct (Events.getPoint _ t) as [[px py]|e]; [|exact Hnd].
      cbn. apply pressSelection_NoDup. exact Hnd.
    + cbn. apply NoDup_nil_2.
  - intros Hz Hin. unfold Events.mousePressed, Events.worldMouse, jsdiv.
    rewrite Hin, Hz.
    destruct (Req_dec_T 0 0) as [_|E]; [reflexivity|contradiction].
Qed.

(** The pointer of [overLastAnchor] is inside the area of [sampleEditor]
    and over the world point [(60, 0)]. *)
Lemma overLastAnchor_inside (shift : bool) :
  Events.mouseInRect (overLastAnchor shift)
    (Events.lastEditorArea sampleEditor) = true.
Proof.
  unfold Events.mouseInRect. simpl.
  repeat match goal with
         | |- context [Rge_dec ?a ?b] => destruct (Rge_dec a b); [|lra]
         | |- context [Rle_dec ?a ?b] => destruct (Rle_dec a b); [|lra]
         end.
  reflexivity.
Qed.

Lemma overLastAnchor_world (shift : bool) :
  exists mx my,
    Events.worldMouse sampleEditor (overLastAnchor shift)
      (Events.lastEditorArea sampleEditor) = Ok (mx, my)
    /\ mx = 60 /\ my = 0.
Proof.
  unfold Events.worldMouse, jsdiv. simpl.
  destruct (Req_dec_T 1 0) as [E|_]; [lra|]. simpl.
  eexists _, _. split; [reflexivity|]. split; lra.
Qed.

(** X13 on the sample editor: one point selected and a shift press on
    another; and a press at zoom 0. *)
Lemma mousePressed_keeps_selection_distinct_witness :
  NoDup (Events.selected
           (snd (Events.mousePressed (overLastAnchor true) twoCurvesModel
                   (Events.withSelected [{| index := 1; type := c1 |}]
                      sampleEditor))))
  /\ Events.selected
       (snd (Events.mousePressed (overLastAnchor false) twoCurvesModel
               (Events.withCam
                  {| Events.camX := 0; Events.camY := 0; Events.camZ := 0 |}
                  (Events.withSelected [{| index := 1; type := c1 |}]
                     sampleEditor)))) = [].
Proof.
  split.
  - apply (proj1 (mousePressed_keeps_selection_distinct _ _ _)).
    simpl. apply NoDup_singleton.
  - rewrite (proj2 (mousePressed_keeps_selection_distinct
                      (overLastAnchor false) twoCurvesModel
                      (Events.withCam
                         {| Events.camX := 0; Events.camY := 0;
                            Events.camZ := 0 |}
                         (Events.withSelected [{| index := 1; type := c1 |}]
                            sampleEditor)))
               eq_refl (overLastAnchor_inside false)).
    reflexivity.
Defined.

(** X14.  Shift-click toggles: when a press with shift held hits the point
    [t], pressing again at the same place leaves exactly the points
    selected that were selected before the first press; after the first
    press alone, [t] is selected exactly when it was not before and every
    other point keeps its state. *)
Theorem shift_press_toggles
    (mo : Events.Mouse) (m : GlyphModel) (ed : Events.EditorState)
    (mx my : R) (t : PointRef) :
  Events.mouseInRect mo (Events.lastEditorArea ed) = true ->
  Events.worldMouse ed mo (Events.lastEditorArea ed) = Ok (mx, my) ->
  Events.pointHit ed (commands (path m)) mx my 10 = Ok (Some t) ->
  Events.shiftDown mo = true ->
  let once := snd (Events.mousePressed mo m ed) in
  let twice := snd (Events.mousePressed mo m once) in
  (In t (Events.selected once) <-> ~ In t (Events.selected ed))
  /\ (forall s, s <> t ->
        (In s (Events.selected once) <-> In s (Events.selected ed)))
  /\ (forall s, In s (Events.selected twice) <-> In s (Events.selected ed)).
Proof.
  intros Hin Hw Hhit Hshift once twice.
  destruct (mousePressed_hit mo m ed mx my t Hin Hw Hhit)
    as (px & py & Hg & Hpress).
  assert (Honce : Events.selected once =
                  Events.pressSelection true t (Events.selected ed)).
  { unfold once. rewrite Hpress, Hshift. reflexivity. }
  assert (Htwice : Events.selected twice =
                   Events.pressSelection true t (Events.selected once)).
  { unfold twice.
    destruct (mousePressed_hit mo m once mx my t) as (px' & py' & _ & ->).
    - unfold once. rewrite Hpress. exact Hin.
    - unfold once. rewrite Hpress. exact Hw.
    - unfold once. rewrite Hpress. exact Hhit.
    - rewrite Hshift. reflexivity. }
  split; [|split].
  - rewrite Honce, pressSelection_shift_In. tauto.
  - intros s Hne. rewrite Honce, pressSelection_shift_In. tauto.
  - intros s. rewrite Htwice, pressSelection_shift_In.
    rewrite Honce, !pressSelection_shift_In.
    destruct (sameRef_cases s t) as [->|Hne]; [|tauto].
    destruct (isSelected_cases t (Events.selected ed)); tauto.
Qed.

(** X14 on the sample editor: nothing selected, one shift press on the
    last anchor selects it. *)
Lemma shift_press_toggles_witness :
  In {| index := 2; type := anchor |}
    (Events.selected
       (snd (Events.mousePressed (overLastAnchor true) twoCurvesModel
               sampleEditor))).
Proof.
  destruct (overLastAnchor_world true) as (mx & my & Hw & Hx & Hy).
  destruct (shift_press_toggles (overLastAnchor true) twoCurvesModel
              sampleEditor mx my {| index := 2; type := anchor |}
              (overLastAnchor_inside true) Hw
              (pointHit_twoCurves mx my Hx Hy) eq_refl) as [Hin _].
  apply Hin. simpl. tauto.
Defined.

(** ** Editor: dragging *)

Lemma drags_canvas (ed : Events.EditorState) (m : GlyphModel)
    (mos : list Events.Mouse) (mo : Events.Mouse) :
  Events.dragMode ed = Events.canvasDrag ->
  let w := Events.drags (mos ++ [mo]) (ed, m) in
  snd w = m
  /\ Events.camX (Events.cam (fst w)) =
     Events.camX (Events.cam ed)
     + (Events.mouseX mo - fst (Events.dragOff ed))
  /\ Events.camY (Events.cam (fst w)) =
     Events.camY (Events.cam ed)
     + (Events.mouseY mo - snd (Events.dragOff ed))
  /\ Events.camZ (Events.cam (fst w)) = Events.camZ (Events.cam ed)
  /\ Events.selected (fst w) = Events.selected ed
  /\ Events.dragMode (fst w) = Events.canvasDrag.
Proof.
  revert ed. induction mos as [|mo1 mos IH]; intros ed Hd w.
  - unfold w, Events.drags. simpl. rewrite Hd. cbn.
    repeat split; try reflexivity. exact Hd.
  - unfold w, Events.drags. simpl. rewrite Hd. cbn [snd].
    set (ed1 := Events.withDragOff _ _).
    destruct (IH ed1 Hd) as (Hm & Hx & Hy & Hz & Hs & Hmode).
    unfold Events.drags in Hm, Hx, Hy, Hz, Hs, Hmode.
    split; [exact Hm|]. split; [rewrite Hx; simpl; ring|].
    split; [rewrite Hy; simpl; ring|]. split; [rewrite Hz; reflexivity|].
    split; [rewrite Hs; reflexivity|exact Hmode].
Qed.

(** X15.  In exact arithmetic panning does not drift: after a press on
    empty canvas, a run of drag events leaves the camera moved by the
    pointer position of the last event minus the position of the press,
    whatever the path in between.  (In doubles every event adds a rounded
    step, and the sum of the steps need not be that.)  Zoom, selection
    and model are untouched, and the release that follows commits
    nothing. *)
Theorem pan_follows_pointer
    (ed : Events.EditorState) (m : GlyphModel)
    (mos : list Events.Mouse) (mo : Events.Mouse) :
  Events.dragMode ed = Events.canvasDrag ->
  let w := Events.drags (mos ++ [mo]) (ed, m) in
  snd w = m
  /\ Events.camX (Events.cam (fst w)) =
     Events.camX (Events.cam ed)
     + (Events.mouseX mo - fst (Events.dragOff ed))
  /\ Events.camY (Events.cam (fst w)) =
     Events.camY (Events.cam ed)
     + (Events.mouseY mo - snd (Events.dragOff ed))
  /\ Events.camZ (Events.cam (fst w)) = Events.camZ (Events.cam ed)
  /\ Events.selected (fst w) = Events.selected ed
  /\ snd (Events.mouseReleased w) = m.
Proof.
  intros Hd w.
  destruct (drags_canvas ed m mos mo Hd) as (Hm & Hx & Hy & Hz & Hs & Hmode).
  fold w in Hm, Hx, Hy, Hz, Hs, Hmode.
  repeat (split; [assumption|]).
  unfold Events.mouseReleased. destruct w as [ed' m']. simpl in *.
  rewrite Hmode. exact Hm.
Qed.

(** X15 on the sample editor: two drag events after a press on canvas at
    [(100, 100)]. *)
Lemma pan_follows_pointer_witness :
  let pressed := Events.withDragOff (100, 100)
                   (Events.withDragMode Events.canvasDrag sampleEditor) in
  let at_ x y := {| Events.mouseX := x; Events.mouseY := y;
                    Events.shiftDown := false |} in
  Events.camX (Events.cam (fst (Events.drags [at_ 130 90; at_ 150 120]
                                  (pressed, twoCurvesModel)))) =
  0 + (150 - 100).
Proof.
  intros pressed at_.
  destruct (pan_follows_pointer pressed twoCurvesModel [at_ 130 90]
              (at_ 150 120) eq_refl) as (_ & Hx & _).
  exact Hx.
Defined.

Lemma fits_getPoint (cmds : list Command) (t : PointRef) (c : Command) :
  cmds !! index t = Some c -> fits (type t) c ->
  exists px py, Events.getPoint cmds t = Ok (px, py).
Proof.
  intros Hc Hfit. rewrite getPoint_pointOf, Hc. simpl.
  destruct (type t), c; simpl in *; try contradiction; eauto.
Qed.

(** A drag with one point selected, the one that was pressed: the point
    goes to the target [(nx, ny)] the handler computed. *)
Lemma mouseDragged_single (mo : Events.Mouse) (ed : Events.EditorState)
    (m : GlyphModel) (t : PointRef) (c : Command) (mx my : R) :
  Events.dragMode ed = Events.pointDrag t ->
  Events.selected ed = [t] ->
  Events.worldMouse ed mo (Events.lastEditorArea ed) = Ok (mx, my) ->
  commands (path m) !! index t = Some c ->
  fits (type t) c ->
  let snap v := if Events.grid (Events.view ed)
                then jsround (v / 10) * 10 else v in
  let nx := snap (mx + fst (Events.dragOff ed)) in
  let ny := snap (my + snd (Events.dragOff ed)) in
  exists cmds',
    Events.mouseDragged mo (ed, m) = (Ok tt, (ed, withCommands cmds' m))
    /\ Events.getPoint cmds' t = Ok (nx, ny)
    /\ map typeOf cmds' = map typeOf (commands (path m)).
Proof.
  intros Hd Hsel Hw Hc Hfit snap nx ny. subst snap nx ny. cbv beta.
  set (nx := if Events.grid (Events.view ed) then _ else _).
  set (ny := if Events.grid (Events.view ed) then _ else _).
  destruct (fits_getPoint _ t c Hc Hfit) as (px & py & Hg).
  destruct t as [i ty]. cbn [index type] in *.
  destruct (setPoint_fits (commands (path m)) i ty c
              (px + (nx - px)) (py + (ny - py))
              (Events.lock (Events.view ed)) Hc Hfit) as [cmds' Hset].
  exists cmds'. split; [|split].
  - unfold Events.mouseDragged. rewrite Hd, Hw, Hg, Hsel.
    fold nx. fold ny. cbn [Events.dragSelection].
    rewrite Hg, Hset. reflexivity.
  - rewrite (setPoint_getPoint _ _ _ _ _ _ Hset). f_equal. f_equal; ring.
  - apply (setPoint_types _ _ _ _ _ _ Hset).
Qed.

(** X16.  With the grid off, a drag of the one selected point puts it at
    the pointer's world position plus the offset recorded at the press: the
    point keeps following the pointer.  The command types are kept and
    nothing is committed to the history. *)
Theorem drag_follows_pointer (mo : Events.Mouse) (ed : Events.EditorState)
    (m : GlyphModel) (t : PointRef) (c : Command) (mx my : R) :
  Events.dragMode ed = Events.pointDrag t ->
  Events.selected ed = [t] ->
  Events.grid (Events.view ed) = false ->
  Events.worldMouse ed mo (Events.lastEditorArea ed) = Ok (mx, my) ->
  commands (path m) !! index t = Some c ->
  fits (type t) c ->
  exists cmds',
    Events.mouseDragged mo (ed, m) = (Ok tt, (ed, withCommands cmds' m))
    /\ Events.getPoint cmds' t =
       Ok (mx + fst (Events.dragOff ed), my + snd (Events.dragOff ed))
    /\ map typeOf cmds' = map typeOf (commands (path m))
    /\ undoStack (withCommands cmds' m) = undoStack m.
Proof.
  intros Hd Hsel Hgrid Hw Hc Hfit.
  destruct (mouseDragged_single mo ed m t c mx my Hd Hsel Hw Hc Hfit)
    as (cmds' & Hdrag & Hg & Ht).
  rewrite Hgrid in Hg. exists cmds'. repeat split; assumption.
Qed.

(** [Math.round] answers an integer at most one half away. *)
Lemma jsround_near (v : R) :
  exists k : Z, jsround v = IZR k /\ v - 0.5 < IZR k <= v + 0.5.
Proof.
  unfold jsround. exists (Int_part (v + 0.5)). split; [reflexivity|].
  destruct (base_Int_part (v + 0.5)) as [Hle Hgt]. lra.
Qed.

(** X17.  In exact arithmetic, with snap-to-grid on, a drag of the one
    selected point puts it on the grid: both coordinates are integer
    multiples of 10, each the multiple nearest to the unsnapped target (at
    most 5 away, ties going up).  (In doubles the point is written at
    [o.x + (nx - o.x)] for the grid value [nx], and that sum need not be
    [nx].) *)
Theorem drag_snaps_to_grid (mo : Events.Mouse) (ed : Events.EditorState)
    (m : GlyphModel) (t : PointRef) (c : Command) (mx my : R) :
  Events.dragMode ed = Events.pointDrag t ->
  Events.selected ed = [t] ->
  Events.grid (Events.view ed) = true ->
  Events.worldMouse ed mo (Events.lastEditorArea ed) = Ok (mx, my) ->
  commands (path m) !! index t = Some c ->
  fits (type t) c ->
  exists cmds' (k l : Z),
    Events.mouseDragged mo (ed, m) = (Ok tt, (ed, withCommands cmds' m))
    /\ Events.getPoint cmds' t = Ok (IZR k * 10, IZR l * 10)
    /\ mx + fst (Events.dragOff ed) - 5 < IZR k * 10
       <= mx + fst (Events.dragOff ed) + 5
    /\ my + snd (Events.dragOff ed) - 5 < IZR l * 10
       <= my + snd (Events.dragOff ed) + 5.
Proof.
  intros Hd Hsel Hgrid Hw Hc Hfit.
  destruct (mouseDragged_single mo ed m t c mx my Hd Hsel Hw Hc Hfit)
    as (cmds' & Hdrag & Hg & _).
  rewrite Hgrid in Hg.
  destruct (jsround_near ((mx + fst (Events.dragOff ed)) / 10))
    as (k & Hk & Hkb).
  destruct (jsround_near ((my + snd (Events.dragOff ed)) / 10))
    as (l & Hl & Hlb).
  rewrite Hk, Hl in Hg. exists cmds', k, l.
  split; [exact Hdrag|]. split; [exact Hg|]. split; lra.
Qed.

(** X16 on the sample editor: the last anchor is grabbed and the pointer
    is over [(60, 0)]. *)
Lemma drag_follows_pointer_witness :
  exists cmds' mx my,
    Events.mouseDragged (overLastAnchor false)
      (grabbedEditor false, twoCurvesModel) =
      (Ok tt, (grabbedEditor false, withCommands cmds' twoCurvesModel))
    /\ Events.getPoint cmds' {| index := 2; type := anchor |} =
       Ok (mx + 0, my + 0)
    /\ mx = 60 /\ my = 0.
Proof.
  destruct (overLastAnchor_world false) as (mx & my & Hw & Hx & Hy).
  destruct (drag_follows_pointer (overLastAnchor false) (grabbedEditor false)
              twoCurvesModel {| index := 2; type := anchor |}
              (CmdC 40 0 50 0 60 0) mx my eq_refl eq_refl eq_refl Hw eq_refl I)
    as (cmds' & Hdrag & Hg & _).
  exists cmds', mx, my. repeat split; assumption.
Defined.

(** X17 on the sample editor with snap-to-grid on. *)
Lemma drag_snaps_to_grid_witness :
  exists cmds' (k l : Z),
    Events.mouseDragged (overLastAnchor false)
      (grabbedEditor true, twoCurvesModel) =
      (Ok tt, (grabbedEditor true, withCommands cmds' twoCurvesModel))
    /\ Events.getPoint cmds' {| index := 2; type := anchor |} =
       Ok (IZR k * 10, IZR l * 10).
Proof.
  destruct (overLastAnchor_world false) as (mx & my & Hw & Hx & Hy).
  destruct (drag_snaps_to_grid (overLastAnchor false) (grabbedEditor true)
              twoCurvesModel {| index := 2; type := anchor |}
              (CmdC 40 0 50 0 60 0) mx my eq_refl eq_refl eq_refl Hw eq_refl I)
    as (cmds' & k & l & Hdrag & Hg & _).
  exists cmds', k, l. split; assumption.
Defined.

(** X18.  A click commits: a press that hits a point followed by the
    release, with no drag in between, runs [saveState] although no
    coordinate changed; on a model with nothing uncommitted the next [undo]
    then only takes that entry off and shows the same path and params.  A
    press on empty canvas followed by the release leaves the model as it
    was. *)
Theorem click_on_point_commits
    (mo : Events.Mouse) (m : GlyphModel) (ed : Events.EditorState)
    (mx my : R) (h : option PointRef) :
  Events.mouseInRect mo (Events.lastEditorArea ed) = true ->
  Events.worldMouse ed mo (Events.lastEditorArea ed) = Ok (mx, my) ->
  Events.pointHit ed (commands (path m)) mx my 10 = Ok h ->
  let w := Events.mouseReleased (snd (Events.mousePressed mo m ed), m) in
  Events.dragMode (fst w) = Events.noDrag
  /\ match h with
     | Some t =>
         snd w = saveState m
         /\ path (snd w) = path m
         /\ (committed m -> (2 <= maxHist m)%nat ->
             path (undo (snd w)) = path m
             /\ params (undo (snd w)) = params m
             /\ redoStack (undo (snd w)) = [snapshotOf m])
     | None => snd w = m
     end.
Proof.
  intros Hin Hw Hhit w. destruct h as [t|].
  - destruct (mousePressed_hit mo m ed mx my t Hin Hw Hhit)
      as (px & py & _ & Hpress).
    assert (Hw' : w = (Events.withDragMode Events.noDrag
                         (snd (Events.mousePressed mo m ed)), saveState m)).
    { unfold w. rewrite Hpress. reflexivity. }
    rewrite Hw'. cbn [fst snd]. split; [reflexivity|].
    split; [reflexivity|]. split; [reflexivity|].
    intros Hc Hmax.
    destruct (undo_saveState_restores m _ Hmax Hc) as (Hp & Hq & Hr & _).
    repeat split; assumption.
  - assert (Hw' : w = (Events.withDragMode Events.noDrag
                         (snd (Events.mousePressed mo m ed)), m)).
    { unfold w. rewrite (mousePressed_miss mo m ed mx my Hin Hw Hhit).
      reflexivity. }
    rewrite Hw'. split; reflexivity.
Qed.

(** X18 on the sample editor: a click on the last anchor. *)
Lemma click_on_point_commits_witness :
  snd (Events.mouseReleased
         (snd (Events.mousePressed (overLastAnchor false) twoCurvesModel
                 sampleEditor), twoCurvesModel))
  = saveState twoCurvesModel.
Proof.
  destruct (overLastAnchor_world false) as (mx & my & Hw & Hx & Hy).
  destruct (click_on_point_commits (overLastAnchor false) twoCurvesModel
              sampleEditor mx my (Some {| index := 2; type := anchor |})
              (overLastAnchor_inside false) Hw
              (pointHit_twoCurves mx my Hx Hy)) as (_ & Hsave & _).
  exact Hsave.
Defined.

(** X19.  A group drag moves a control point twice when its own anchor is
    selected with it: with the lock off, dragging the anchor and the second
    control point of one cubic command by [(dx, dy)] moves the anchor by
    [(dx, dy)] and the control point once with the anchor and once on its
    own, to [(x2 + ((ax + dx) - ax)) + dx]: in exact arithmetic, by twice
    [(dx, dy)].  (In doubles each of these sums rounds.) *)
Theorem group_drag_moves_own_control_twice
    (cmds : list Command) (i : nat) (x1 y1 x2 y2 ax ay dx dy : R) :
  cmds !! i = Some (CmdC x1 y1 x2 y2 ax ay) ->
  exists cmds',
    Events.dragSelection dx dy false
      [{| index := i; type := anchor |}; {| index := i; type := c2 |}] cmds
    = (Ok tt, cmds')
    /\ cmds' !! i =
       Some (CmdC x1 y1 (x2 + (ax + dx - ax) + dx) (y2 + (ay + dy - ay) + dy)
               (ax + dx) (ay + dy))
    /\ x2 + (ax + dx - ax) + dx = x2 + 2 * dx
    /\ y2 + (ay + dy - ay) + dy = y2 + 2 * dy.
Proof.
  intros Hc.
  assert (Hi : (i < length cmds)%nat) by (apply lookup_lt_is_Some; eauto).
  pose proof (setPoint_anchor_result cmds i _ ax ay (ax + dx) (ay + dy) false
                Hc eq_refl) as Hset.
  set (cmds1 := match Editor.nextCurve cmds i with
                | Some ni => alter _ ni _ | None => _ end) in Hset.
  assert (Hc1 : cmds1 !! i =
                Some (CmdC x1 y1 (x2 + (ax + dx - ax)) (y2 + (ay + dy - ay))
                        (ax + dx) (ay + dy))).
  { unfold cmds1. destruct (Editor.nextCurve cmds i) as [ni|] eqn:Hn.
    - apply nextCurve_Some in Hn as [Hlt _].
      rewrite list_lookup_alter_ne by lia.
      apply list_lookup_insert_eq. exact Hi.
    - apply list_lookup_insert_eq. exact Hi. }
  eexists. split; [|split; [|split; ring]].
  - cbn [Events.dragSelection]. unfold Events.getPoint at 1.
    cbn [index type]. rewrite Hc. cbn [orThrow bind xy]. rewrite Hset.
    unfold Events.getPoint, Editor.setPoint. cbn [index type].
    rewrite Hc1. cbn. reflexivity.
  - apply list_lookup_insert_eq.
    apply lookup_lt_is_Some. rewrite Hc1. eauto.
Qed.

(** X19 on two curves: the anchor between them and the control point
    before it, dragged by [(5, 5)]. *)
Lemma group_drag_moves_own_control_twice_witness :
  exists cmds',
    Events.dragSelection 5 5 false
      [{| index := 1; type := anchor |}; {| index := 1; type := c2 |}]
      twoCurves = (Ok tt, cmds')
    /\ cmds' !! 1%nat =
       Some (CmdC 10 0 (20 + (30 + 5 - 30) + 5) (0 + (0 + 5 - 0) + 5)
               (30 + 5) (0 + 5))
    /\ 20 + (30 + 5 - 30) + 5 = 20 + 2 * 5
    /\ 0 + (0 + 5 - 0) + 5 = 0 + 2 * 5.
Proof.
  apply (group_drag_moves_own_control_twice twoCurves 1 10 0 20 0 30 0 5 5).
  reflexivity.
Defined.

(** ** Editor: camera *)

(** X20.  In exact arithmetic [fitTo] centres the glyph and makes it fit:
    for a bounding box of positive width and height and an area wider and
    higher than the two pads of 50, the new zoom is positive, the centre of
    the box is drawn at the centre of the area, and the box drawn at that
    zoom is at most 0.9 times the area less its pads, in both directions.
    (In doubles the zoom and the product are rounded, and the box drawn can
    exceed that bound.)  A box of zero width or height leaves the
    camera as it was. *)
Theorem fitTo_centres_and_fits
    (env : Env) (m : GlyphModel) (area : Events.Area)
    (ed : Events.EditorState) :
  let bb := bbox env m in
  let ed' := Events.fitTo env m area ed in
  (box_w bb <= 0 \/ box_h bb <= 0 -> ed' = ed)
  /\ (0 < box_w bb -> 0 < box_h bb ->
      100 < Events.areaW area -> 100 < Events.areaH area ->
      0 < Events.camZ (Events.cam ed')
      /\ Events.toScreen ed' area
           (box_x bb + box_w bb / 2, box_y bb + box_h bb / 2) =
         (Events.areaX area + Events.areaW area / 2,
          Events.areaY area + Events.areaH area / 2)
      /\ Events.camZ (Events.cam ed') * box_w bb
         <= 0.9 * (Events.areaW area - 100)
      /\ Events.camZ (Events.cam ed') * box_h bb
         <= 0.9 * (Events.areaH area - 100)).
Proof.
  intros bb ed'. unfold ed', Events.fitTo. fold bb. split.
  - intros [H|H].
    + destruct (Rle_dec (box_w bb) 0); [reflexivity|contradiction].
    + destruct (Rle_dec (box_w bb) 0); [reflexivity|].
      destruct (Rle_dec (box_h bb) 0); [reflexivity|contradiction].
  - intros Hw Hh Haw Hah.
    destruct (Rle_dec (box_w bb) 0) as [H|_]; [lra|].
    destruct (Rle_dec (box_h bb) 0) as [H|_]; [lra|].
    cbn [Events.cam Events.withCam Events.camZ Events.camX Events.camY
         Events.toScreen fst snd].
    set (sx := (Events.areaW area - 50 * 2) / box_w bb).
    set (sy := (Events.areaH area - 50 * 2) / box_h bb).
    assert (Hsx : sx * box_w bb = Events.areaW area - 100)
      by (unfold sx; field; lra).
    assert (Hsy : sy * box_h bb = Events.areaH area - 100)
      by (unfold sy; field; lra).
    assert (Hsx0 : 0 < sx) by (apply Rdiv_lt_0_compat; lra).
    assert (Hsy0 : 0 < sy) by (apply Rdiv_lt_0_compat; lra).
    pose proof (Rmin_l sx sy) as Hl. pose proof (Rmin_r sx sy) as Hr.
    assert (Hmin0 : 0 < Rmin sx sy) by (apply Rmin_glb_lt; assumption).
    split; [lra|].
    split; [unfold Events.toScreen; cbn; apply f_equal2; ring|]. split; nra.
Qed.

(** The bounding box of the fallback glyph is 80 wide and 120 high. *)
Lemma fallback_bbox_value :
  box_w (bbox noFontEnv fallbackModel) = 80
  /\ box_h (bbox noFontEnv fallbackModel) = 120.
Proof.
  unfold bbox, bboxOf. cbn.
  rewrite (Rmin_left 0 40), (Rmin_left 0 120), (Rmax_right 0 40),
    (Rmax_right 0 120), (Rmin_left 0 80), (Rmin_left 0 0),
    (Rmax_right 40 80), (Rmax_left 120 0) by lra.
  split; lra.
Qed.

(** X20 on the fallback glyph in the sample area. *)
Lemma fitTo_centres_and_fits_witness :
  0 < Events.camZ (Events.cam (Events.fitTo noFontEnv fallbackModel
                                 sampleArea sampleEditor)).
Proof.
  destruct (fitTo_centres_and_fits noFontEnv fallbackModel sampleArea
              sampleEditor) as [_ Hfit].
  destruct fallback_bbox_value as [Hbw Hbh].
  destruct Hfit as (Hz & _); [rewrite Hbw; lra|rewrite Hbh; lra
                              |simpl; lra|simpl; lra|exact Hz].
Defined.

(** X21.  In exact arithmetic the pointer-to-world mapping undoes the
    drawing transform: with a non-zero zoom, [worldMouse] of the canvas
    position where a world point is drawn is that world point, and a world
    point [worldMouse] answers is drawn under the pointer.  (In doubles
    the quotient and the product round, and a round trip need not end on
    the double it started from.)  With a zoom of zero the quotient is not
    finite. *)
Theorem worldMouse_inverts_draw_transform
    (ed : Events.EditorState) (area : Events.Area) :
  (Events.camZ (Events.cam ed) <> 0 ->
   (forall (w : R * R) (shift : bool),
       Events.worldMouse ed
         {| Events.mouseX := fst (Events.toScreen ed area w);
            Events.mouseY := snd (Events.toScreen ed area w);
            Events.shiftDown := shift |} area = Ok w)
   /\ (forall mo w,
         Events.worldMouse ed mo area = Ok w ->
         Events.toScreen ed area w = (Events.mouseX mo, Events.mouseY mo)))
  /\ (Events.camZ (Events.cam ed) = 0 ->
      forall mo, Events.worldMouse ed mo area = Err NonFinite).
Proof.
  split.
  - intros Hz. split.
    + intros [wx wy] shift. unfold Events.worldMouse, Events.toScreen, jsdiv.
      destruct (Req_dec_T (Events.camZ (Events.cam ed)) 0) as [E|_];
        [contradiction|].
      cbn. f_equal. f_equal; field; exact Hz.
    + intros mo w. unfold Events.worldMouse, Events.toScreen, jsdiv.
      destruct (Req_dec_T (Events.camZ (Events.cam ed)) 0) as [E|_];
        [contradiction|].
      cbn. intros [= <-]. cbn. f_equal; field; exact Hz.
  - intros Hz mo. unfold Events.worldMouse, jsdiv.
    destruct (Req_dec_T (Events.camZ (Events.cam ed)) 0) as [_|E];
      [reflexivity|contradiction].
Qed.

(** X21 on the sample editor: the world point [(60, 0)]. *)
Lemma worldMouse_inverts_draw_transform_witness :
  Events.worldMouse sampleEditor
    {| Events.mouseX := fst (Events.toScreen sampleEditor sampleArea (60, 0));
       Events.mouseY := snd (Events.toScreen sampleEditor sampleArea (60, 0));
       Events.shiftDown := false |} sampleArea = Ok (60, 0).
Proof.
  destruct (worldMouse_inverts_draw_transform sampleEditor sampleArea)
    as [Hinv _].
  destruct Hinv as [Hback _]; [simpl; lra|].
  apply (Hback (60, 0) false).
Defined.

(** ** Randomizing: how far a point moves *)

Lemma randomizeCommand_near (G : Generator) (c : Command) (g : rstate G) :
  (forall g, 0 <= fst (random G g) < 1) ->
  typeOf (fst (randomizeCommand G c g)) = typeOf c
  /\ Forall2 (fun v v' => -10 <= v' - v < 10)
       (coords c) (coords (fst (randomizeCommand G c g))).
Proof.
  intros Hrange. destruct c; simpl; unfold perturb;
    repeat match goal with
           | |- context [random G ?s] =>
               pose proof (Hrange s); destruct (random G s)
           end;
    simpl in *; (split; [reflexivity|]);
    repeat (apply List.Forall2_cons; [lra|]); apply List.Forall2_nil.
Qed.

Lemma randomizeCommands_near (G : Generator) (cmds : list Command)
    (g : rstate G) :
  (forall g, 0 <= fst (random G g) < 1) ->
  Forall2 (fun c c' =>
             typeOf c' = typeOf c /\
             Forall2 (fun v v' => -10 <= v' - v < 10) (coords c) (coords c'))
    cmds (fst (randomizeCommands G cmds g)).
Proof.
  intros Hrange. revert g. induction cmds as [|c cmds IH]; intros g.
  - constructor.
  - rewrite randomizeCommands_cons. constructor.
    + apply randomizeCommand_near. exact Hrange.
    + apply IH.
Qed.

(** X22.  With a generator whose values lie in [[0, 1)], [randomize] keeps
    every command and its type and moves every coordinate by at least -10
    and by less than 10. *)
Theorem randomize_moves_less_than_10
    (G : Generator) (seed : Z) (m : GlyphModel) (g : rstate G) :
  (forall g, 0 <= fst (random G g) < 1) ->
  Forall2 (fun c c' =>
             typeOf c' = typeOf c /\
             Forall2 (fun v v' => -10 <= v' - v < 10) (coords c) (coords c'))
    (commands (path m)) (commands (path (fst (randomize G seed m g)))).
Proof.
  intros Hrange. rewrite randomize_commands.
  apply randomizeCommands_near. exact Hrange.
Qed.

(** The generator of the examples answers values in [[0, 1)]. *)
Lemma lcg_range (z : rstate lcg) : 0 <= fst (random lcg z) < 1.
Proof.
  simpl.
  destruct (Z.mod_pos_bound (1664525 * z + 1013904223) 4294967296)
    as [Hlo Hhi]; [lia|].
  apply IZR_le in Hlo. apply IZR_lt in Hhi.
  split.
  - apply Rmult_le_pos; [exact Hlo|]. apply Rlt_le, Rinv_0_lt_compat. lra.
  - apply (Rmult_lt_reg_r 4294967296); [lra|]. field_simplify. lra.
Qed.

(** X22 on the fallback glyph with the generator of the examples. *)
Lemma randomize_moves_less_than_10_witness :
  Forall2 (fun c c' =>
             typeOf c' = typeOf c /\
             Forall2 (fun v v' => -10 <= v' - v < 10) (coords c) (coords c'))
    (commands (path fallbackModel))
    (commands (path (fst (randomize lcg 42 fallbackModel 0%Z)))).
Proof.
  apply (randomize_moves_less_than_10 lcg 42 fallbackModel 0%Z).
  exact lcg_range.
Defined.
